(** * Batch translation pipeline: scheduler, render order and font sizing

    A shallow embedding of [src/App.tsx] (the task queue driven by the
    [processQueue] effect, [handleFilesSelected], the remove button and
    [fileToBase64]) and of the [SplitView] component ([loadPreview],
    [sortedBlocks] and the font sizing of each translated block).

    Conventions of the embedding.
    - A JavaScript number holding a count or a percentage ([progress],
      loop indices, lengths) is an integer ([Z] or [nat]); the one
      division of the scheduler is done in [Q] and floored, as the source
      does with [Math.floor].
    - A JavaScript number holding a measure (box coordinates, zoom, pixel
      sizes) is read in two ways.  The font-size estimate is compared
      with the formula of the specification as an expression over real
      numbers, with [NaN] explicit.  What [SplitView] decides from such
      numbers (the clamp of the font size, the header test, the zoom
      buttons, the render order) depends on rounding, overflow and [NaN]:
      it is embedded in module [Binary64] with the binary64 operations
      that JavaScript performs, and its properties are proved from the
      specification of these operations ([SpecFloat], [FloatAxioms]).
      The full-screen zoom, which only passes through [Math.max] and
      [Math.min] with constant bounds, is kept over real numbers.
    - A JavaScript string is a [string], and its [length] the number of
      its characters.
    - [setTasks (prev => ...)] is a function from task list to task list;
      the awaits of [processQueue] cut a run into a script of such
      updates, and the step relation of the application interleaves the
      scripts of all runs with file drops and removals.
    - What the code takes from its environment is an input of the model:
      the ids and URLs drawn for new tasks, how the [FileReader] and the
      adapter call settle, [Date.now()], the table [TARGET_LANG_OPTIONS]
      and the PDF rasterizer. *)

From Stdlib Require Import ZArith QArith Qround Reals Lra Lia.
From Stdlib Require Import List String Ascii Bool.
From Stdlib.Strings Require Import Byte.
From Stdlib Require Import Permutation Sorted Relations.
From Stdlib Require Import DecimalString.
From Stdlib Require Floats.
Import ListNotations.

#[local] Set Warnings "-inexact-float".

Local Open Scope Z_scope.
Local Open Scope string_scope.
Local Open Scope list_scope.

(** ** JavaScript numbers used as measures *)

Inductive JsNum : Type :=
| NaN : JsNum
| Num : R -> JsNum.

(** [Math.sqrt]: [NaN] below zero. *)
Definition Math_sqrt (x : R) : JsNum :=
  if Rlt_dec x 0 then NaN else Num (sqrt x).

(** [Math.min] returns [NaN] as soon as one argument is. *)
Definition Math_min (a b : JsNum) : JsNum :=
  match a, b with
  | Num x, Num y => Num (Rmin x y)
  | _, _ => NaN
  end.

(** ** Data model ([types.ts] as used by the two components) *)

Inductive TaskStatus : Type := pending | processing | completed | error.

Definition status_eqb (a b : TaskStatus) : bool :=
  match a, b with
  | pending, pending | processing, processing
  | completed, completed | error, error => true
  | _, _ => false
  end.

(** [box] is [ymin, xmin, ymax, xmax], in percent of the page. *)
Record Box : Type := mkBox { box0 : R; box1 : R; box2 : R; box3 : R }.

(** One element of [result.blocks] as the adapter returns it. *)
Record BlockData : Type := mkBlockData {
  bd_text : string;
  bd_translatedText : string;
  bd_box : Box;
  bd_isBold : option bool;
  bd_type : option string
}.

Record TranslatedBlock : Type := mkBlock {
  b_id : string;
  b_pageIndex : Z;
  b_text : string;
  b_translatedText : string;
  b_box : Box;
  b_isBold : option bool;
  b_type : option string
}.

Record File : Type := mkFile {
  file_name : string;
  file_type : string;
  file_bytes : list byte
}.

Record FileTask : Type := mkTask {
  id : string;
  name : string;
  file : File;
  previewUrl : string;
  status : TaskStatus;
  detailedStatus : string;
  progress : Z;
  totalPages : Z;
  processedPages : Z;
  warnings : list string;
  translatedBlocks : list TranslatedBlock;
  targetLanguage : string
}.

(** ** The font-size estimate of one block, as an exact expression
    ([SplitView], the body of [sortedBlocks.map]) *)

Definition height (b : TranslatedBlock) : R := (box2 (b_box b) - box0 (b_box b))%R.
Definition width (b : TranslatedBlock) : R := (box3 (b_box b) - box1 (b_box b))%R.

(** [width * 5.95 * zoom] and [height * 8.42 * zoom]. *)
Definition boxWidthPx (b : TranslatedBlock) (zoom : R) : R :=
  (width b * (595 / 100) * zoom)%R.
Definition boxHeightPx (b : TranslatedBlock) (zoom : R) : R :=
  (height b * (842 / 100) * zoom)%R.
Definition area (b : TranslatedBlock) (zoom : R) : R :=
  (boxWidthPx b zoom * boxHeightPx b zoom)%R.

(** [block.translatedText.length || 1]: [0] is falsy. *)
Definition charCount (b : TranslatedBlock) : nat :=
  match String.length (b_translatedText b) with
  | O => 1%nat
  | n => n
  end.

(** [Math.sqrt((area * 0.90) / charCount)]. *)
Definition densityFontSize (b : TranslatedBlock) (zoom : R) : JsNum :=
  Math_sqrt ((area b zoom * (90 / 100)) / INR (charCount b))%R.

(** After the "sanity cap" of short strings. *)
Definition cappedFontSize (b : TranslatedBlock) (zoom : R) : JsNum :=
  if (charCount b <? 10)%nat
  then Math_min (densityFontSize b zoom) (Num (boxHeightPx b zoom * (85 / 100))%R)
  else densityFontSize b zoom.

(** ** Strings of the scheduler *)

(** Template literals: [`${n}`] of a count or a percentage. *)
Definition str_of_nat (n : nat) : string := NilEmpty.string_of_uint (Nat.to_uint n).
Definition str_of_Z (z : Z) : string := NilZero.string_of_int (Z.to_int z).

(** [s.includes(needle)]. *)
Fixpoint includes (needle s : string) : bool :=
  prefix needle s
  || match s with
     | EmptyString => false
     | String _ s' => includes needle s'
     end.

(** [s.split(sep)] for a one-character separator. *)
Fixpoint split_acc (sep : ascii) (cur : string) (s : string) : list string :=
  match s with
  | EmptyString => [cur]
  | String c s' =>
      if Ascii.eqb c sep then cur :: split_acc sep EmptyString s'
      else split_acc sep (cur ++ String c EmptyString) s'
  end.

Definition split (sep : ascii) (s : string) : list string := split_acc sep EmptyString s.

(** ** Files, [FileReader] and [fileToBase64] *)

(** A thrown value is read through its [message] only: [new Error(m)]
    has one, the event passed to [reader.onerror] has none. *)
Definition JsError : Type := option string.
Definition Error (m : string) : JsError := Some m.

(** What a promise settles to. *)
Inductive Settled (A : Type) : Type :=
| Resolved : A -> Settled A
| Rejected : JsError -> Settled A.
Arguments Resolved {A} _.
Arguments Rejected {A} _.

(** The base64 alphabet of data URLs. *)
Definition b64_char (n : N) : ascii :=
  if (n <? 26)%N then ascii_of_N (65 + n)
  else if (n <? 52)%N then ascii_of_N (97 + (n - 26))
  else if (n <? 62)%N then ascii_of_N (48 + (n - 52))
  else if (n =? 62)%N then "+"%char
  else "/"%char.

Fixpoint base64 (bs : list byte) : string :=
  match bs with
  | [] => EmptyString
  | [a] =>
      let x := Byte.to_N a in
      String (b64_char (x / 4)) (String (b64_char ((x mod 4) * 16)) "==")
  | [a; b] =>
      let x := Byte.to_N a in
      let y := Byte.to_N b in
      String (b64_char (x / 4))
        (String (b64_char ((x mod 4) * 16 + y / 16))
           (String (b64_char ((y mod 16) * 4)) "="))
  | a :: b :: c :: rest =>
      let x := Byte.to_N a in
      let y := Byte.to_N b in
      let z := Byte.to_N c in
      String (b64_char (x / 4))
        (String (b64_char ((x mod 4) * 16 + y / 16))
           (String (b64_char ((y mod 16) * 4 + z / 64))
              (String (b64_char (z mod 64)) (base64 rest))))
  end.

(** The browser's [reader.readAsDataURL(file)] on a readable file. *)
Definition dataURL (f : File) : string :=
  "data:" ++ file_type f ++ ";base64," ++ base64 (file_bytes f).

(** How the [FileReader] of [fileToBase64] ends: [onload] with
    [reader.result] (a string or not), or [onerror]. *)
Inductive ReaderEvent : Type :=
| onload : option string -> ReaderEvent
| onerror : JsError -> ReaderEvent.

(** [fileToBase64]: resolves with [reader.result.split(',')[1]], which is
    [undefined] ([None]) when the result has no comma. *)
Definition fileToBase64 (ev : ReaderEvent) : Settled (option string) :=
  match ev with
  | onload (Some result) => Resolved (nth_error (split ","%char result) 1)
  | onload None => Rejected (Error "Failed to read file")
  | onerror e => Rejected e
  end.

(** ** The Analysis Client Adapter ([analyzeAndTranslateImage]) *)

(** The resolved value: [null]/[undefined], or an object whose [blocks]
    may be missing. *)
Record AnalysisResult : Type := mkResult { blocks : option (list BlockData) }.

Definition AdapterAnswer : Type := Settled (option AnalysisResult).

(** The three arguments of the call. *)
Record AdapterRequest : Type := mkRequest {
  req_base64 : option string;
  req_mimeType : string;
  req_targetLang : string
}.

(** [TARGET_LANG_OPTIONS.find(o => o.value === lang)?.label || 'English'];
    the table ([constants.ts]) is a parameter, as (value, label) pairs. *)
Definition targetLabel (TARGET_LANG_OPTIONS : list (string * string)) (lang : string) : string :=
  match find (fun o => String.eqb (fst o) lang) TARGET_LANG_OPTIONS with
  | Some (_, EmptyString) | None => "English"
  | Some (_, label) => label
  end.

(** What [processQueue] sends once [fileToBase64] has resolved. *)
Definition adapterRequest (TARGET_LANG_OPTIONS : list (string * string))
    (pendingTask : FileTask) (base64 : option string) : AdapterRequest :=
  {| req_base64 := base64;
     req_mimeType := file_type (file pendingTask);
     req_targetLang := targetLabel TARGET_LANG_OPTIONS (targetLanguage pendingTask) |}.

(** ** The updates of [processQueue] *)

(** [30 + Math.floor(((i + 1) / totalBlocks) * 60)]. *)
Definition currentProgress (i totalBlocks : nat) : Z :=
  30 + Qfloor ((inject_Z (Z.of_nat i + 1) / inject_Z (Z.of_nat totalBlocks)) * 60)%Q.

(** The object spreads written by [processQueue], one constructor per
    [setTasks] call, in source order. *)
Inductive Patch : Type :=
| PatchProcessing
| PatchExtracting
| PatchTranslating
| PatchBlock (i totalBlocks : nat) (blockData : BlockData) (now : Z)
| PatchCompleted
| PatchError (errorMessage : string).

Definition newBlock (i : nat) (blockData : BlockData) (now : Z) : TranslatedBlock :=
  {| b_id := "b-" ++ str_of_nat i ++ "-" ++ str_of_Z now;
     b_pageIndex := 0;
     b_text := bd_text blockData;
     b_translatedText := bd_translatedText blockData;
     b_box := bd_box blockData;
     b_isBold := bd_isBold blockData;
     b_type := bd_type blockData |}.

Definition applyPatch (p : Patch) (t : FileTask) : FileTask :=
  match p with
  | PatchProcessing =>
      mkTask (id t) (name t) (file t) (previewUrl t)
        processing "Performing OCR Analysis..." 5
        (totalPages t) (processedPages t) (warnings t) (translatedBlocks t) (targetLanguage t)
  | PatchExtracting =>
      mkTask (id t) (name t) (file t) (previewUrl t)
        (status t) "Extracting text layout..." 20
        (totalPages t) (processedPages t) (warnings t) (translatedBlocks t) (targetLanguage t)
  | PatchTranslating =>
      mkTask (id t) (name t) (file t) (previewUrl t)
        (status t) "Translating content (Page 1)..." (progress t)
        (totalPages t) (processedPages t) (warnings t) (translatedBlocks t) (targetLanguage t)
  | PatchBlock i totalBlocks blockData now =>
      let currentProgress := currentProgress i totalBlocks in
      mkTask (id t) (name t) (file t) (previewUrl t)
        (status t)
        ("Translating block " ++ str_of_nat (i + 1) ++ "/" ++ str_of_nat totalBlocks
           ++ " (" ++ str_of_Z currentProgress ++ "%)")
        currentProgress
        (totalPages t) (processedPages t) (warnings t)
        (translatedBlocks t ++ [newBlock i blockData now]) (targetLanguage t)
  | PatchCompleted =>
      mkTask (id t) (name t) (file t) (previewUrl t)
        completed "Translation Completed" 100
        (totalPages t) (processedPages t) (warnings t) (translatedBlocks t) (targetLanguage t)
  | PatchError errorMessage =>
      mkTask (id t) (name t) (file t) (previewUrl t)
        error "Error encountered" (progress t)
        (totalPages t) (processedPages t) [errorMessage] (translatedBlocks t) (targetLanguage t)
  end.

(** [setTasks(prev => prev.map(t => t.id === pendingTask.id ? {...} : t))]. *)
Definition setTasks (tid : string) (p : Patch) (prev : list FileTask) : list FileTask :=
  map (fun t => if String.eqb (id t) tid then applyPatch p t else t) prev.

(** The message of the [catch] block. *)
Definition errorMessage (e : JsError) : string :=
  match e with
  | Some m =>
      match m with
      | EmptyString => "Analysis failed"
      | _ => if includes "API key" m then "Invalid API Key" else m
      end
  | None => "Analysis failed"
  end.

(** The streaming loop: one update per block, [now i] being [Date.now()]
    in iteration [i]. *)
Fixpoint streamFrom (i totalBlocks : nat) (blocks : list BlockData) (now : nat -> Z) : list Patch :=
  match blocks with
  | [] => []
  | blockData :: rest =>
      PatchBlock i totalBlocks blockData (now i) :: streamFrom (S i) totalBlocks rest now
  end.

Definition streaming (blocks : list BlockData) (now : nat -> Z) : list Patch :=
  streamFrom 0 (List.length blocks) blocks now.

(** The updates of one [processQueue] run after the first one, given how
    its awaits settle: the file read, then the adapter call. *)
Definition processQueue_rest (reader : ReaderEvent) (answer : AdapterAnswer)
    (now : nat -> Z) : list Patch :=
  match fileToBase64 reader with
  | Rejected e => [PatchError (errorMessage e)]
  | Resolved _ =>
      PatchExtracting ::
      match answer with
      | Rejected e => [PatchError (errorMessage e)]
      | Resolved (Some (mkResult (Some blocks))) =>
          PatchTranslating :: streaming blocks now ++ [PatchCompleted]
      | Resolved _ =>
          [PatchError (errorMessage (Error "Invalid response format from Analysis Engine"))]
      end
  end.

Definition processQueue_writes (reader : ReaderEvent) (answer : AdapterAnswer)
    (now : nat -> Z) : list Patch :=
  PatchProcessing :: processQueue_rest reader answer now.

(** ** The application state and its transitions *)

(** [handleFilesSelected]: the task created for one file; [tid] and [url]
    are what [Math.random().toString(36).substr(2, 9)] and
    [URL.createObjectURL(file)] returned. *)
Definition newTask (defaultTargetLang : string) (pick : string * string * File) : FileTask :=
  let '(tid, url, f) := pick in
  {| id := tid;
     name := file_name f;
     file := f;
     previewUrl := url;
     status := pending;
     detailedStatus := "Waiting to start...";
     progress := 0;
     totalPages := 1;
     processedPages := 0;
     warnings := [];
     translatedBlocks := [];
     targetLanguage := defaultTargetLang |}.

Definition pick_id (pick : string * string * File) : string := fst (fst pick).

(** [setTasks(prev => [...prev, ...newTasks])]; nothing for no files. *)
Definition handleFilesSelected (defaultTargetLang : string)
    (picks : list (string * string * File)) (prev : list FileTask) : list FileTask :=
  match picks with
  | [] => prev
  | _ => prev ++ map (newTask defaultTargetLang) picks
  end.

(** The remove button: [setTasks(ts => ts.filter(t => t.id !== task.id))]. *)
Definition removeTask (tid : string) (ts : list FileTask) : list FileTask :=
  filter (fun t => negb (String.eqb (id t) tid)) ts.

Definition is_processing (t : FileTask) : bool := status_eqb (status t) processing.
Definition is_pending (t : FileTask) : bool := status_eqb (status t) pending.

(** The body of the effect on the rendered [tasks]: the task that
    [processQueue] starts, if it is called and finds one. *)
Definition effect (tasks : list FileTask) : option FileTask :=
  if existsb is_processing tasks then None else find is_pending tasks.

(** A [processQueue] run that is suspended at an await: the id it closed
    over and the updates it has still to make. *)
Record Flight : Type := mkFlight { target : string; script : list Patch }.

(** [issued] is a ghost field: every id generated so far. *)
Record App : Type := mkApp {
  tasks : list FileTask;
  flights : list Flight;
  issued : list string
}.

Definition initial : App := mkApp [] [] [].

(** The successor states: files were dropped, a task was removed, the
    effect started [pendingTask], a suspended run made its next update. *)
Definition afterFiles (a : App) (lang : string) (picks : list (string * string * File)) : App :=
  mkApp (handleFilesSelected lang picks (tasks a)) (flights a)
        (issued a ++ map pick_id picks).

Definition afterRemove (a : App) (tid : string) : App :=
  mkApp (removeTask tid (tasks a)) (flights a) (issued a).

Definition afterEffect (a : App) (pendingTask : FileTask) (reader : ReaderEvent)
    (answer : AdapterAnswer) (now : nat -> Z) : App :=
  mkApp (setTasks (id pendingTask) PatchProcessing (tasks a))
        (mkFlight (id pendingTask) (processQueue_rest reader answer now) :: flights a)
        (issued a).

Definition afterWrite (a : App) (before : list Flight) (tid : string) (p : Patch)
    (rest : list Patch) (after : list Flight) : App :=
  mkApp (setTasks tid p (tasks a)) (before ++ mkFlight tid rest :: after) (issued a).

(** One transition per event of the page.  The ids drawn for new tasks are
    taken to be new ([step_files]); the effect reads the committed task
    list, to which every earlier update has been applied ([step_effect]);
    a suspended run resumes with its next update ([step_write]). *)
Inductive step : App -> App -> Prop :=
| step_files : forall a lang picks,
    NoDup (map pick_id picks) ->
    (forall x, In x (map pick_id picks) -> ~ In x (issued a)) ->
    step a (afterFiles a lang picks)
| step_remove : forall a tid,
    step a (afterRemove a tid)
| step_effect : forall a pendingTask reader answer now,
    effect (tasks a) = Some pendingTask ->
    step a (afterEffect a pendingTask reader answer now)
| step_write : forall a before tid p rest after,
    flights a = before ++ mkFlight tid (p :: rest) :: after ->
    step a (afterWrite a before tid p rest after).

Definition reachable (a : App) : Prop := clos_refl_trans_n1 App step initial a.

(** ** Running one script on one task *)

(** The task after each update of a script, the starting task first. *)
Fixpoint states (ps : list Patch) (t : FileTask) : list FileTask :=
  t :: match ps with
       | [] => []
       | p :: ps' => states ps' (applyPatch p t)
       end.

Definition progressTrace (ps : list Patch) (t : FileTask) : list Z :=
  map progress (states ps t).

(** The progress an update writes, if it writes one. *)
Definition written (p : Patch) : option Z :=
  match p with
  | PatchProcessing => Some 5
  | PatchExtracting => Some 20
  | PatchTranslating => None
  | PatchBlock i totalBlocks _ _ => Some (currentProgress i totalBlocks)
  | PatchCompleted => Some 100
  | PatchError _ => None
  end.

(** ** The preview renderer ([loadPreview] of [SplitView]) *)

(** pdf.js and the canvas are external: document bytes, page number,
    viewport scale, blob type and quality give the blob, if rendering
    succeeds. *)
Definition Rasterizer : Type := list byte -> nat -> Q -> string -> Q -> option (list byte).

(** The bytes behind [previewSrc]. *)
Definition loadPreview (rasterize : Rasterizer) (task : FileTask) : option (list byte) :=
  if String.eqb (file_type (file task)) "application/pdf"
  then rasterize (file_bytes (file task)) 1%nat 2%Q "image/jpeg" (95 # 100)%Q
  else Some (file_bytes (file task)).

(** ** The specification's wording of the font-size estimate

    Section 4.3: pixel dimensions from the fractional box and the page
    size scaled by the zoom factor; [charCount = max(1, length(text))];
    [fontSize = sqrt(area * 0.90 / charCount)], capped at
    [0.85 * heightPx] when [charCount < 10]. *)




(** ** Sample data *)

Definition imageFile : File := mkFile "scan.png" "image/png" (list_byte_of_string "PNG!").
Definition pdfFile : File := mkFile "scan.pdf" "application/pdf" (list_byte_of_string "%PDF-1.4").

Definition f1 : FileTask := newTask "zh-CN" ("f1", "blob:f1", imageFile).
Definition f2 : FileTask := newTask "zh-CN" ("f2", "blob:f2", imageFile).
Definition pdfTask : FileTask := newTask "zh-CN" ("p1", "blob:p1", pdfFile).

Definition sampleData (text translated : string) : BlockData :=
  mkBlockData text translated (mkBox 10 10 20 60) None (Some "text").

Definition threeBlocks : list BlockData :=
  [sampleData "eins" "one"; sampleData "zwei" "two"; sampleData "drei" "three"].

Definition answersThree : AdapterAnswer := Resolved (Some (mkResult (Some threeBlocks))).
Definition networkError : AdapterAnswer := Rejected (Error "Failed to fetch").

(** [Date.now()] of the streaming iterations, 30 ms apart. *)
Definition sampleClock (i : nat) : Z := 1700000000000 + 30 * Z.of_nat i.

Definition readable (f : File) : ReaderEvent := onload (Some (dataURL f)).

(** A stand-in for pdf.js and the canvas: an empty JPEG stream. *)
Definition jpegStub : Rasterizer := fun _ _ _ _ _ => Some [xff; xd8; xff; xd9].

(** ** Auxiliary notions for the proofs *)

Definition ids (ts : list FileTask) : list string := map id ts.

(** A script that a suspended run can hold: it never writes
    ['processing'], and a terminal update is its last one. *)
Fixpoint script_ok (ps : list Patch) : bool :=
  match ps with
  | [] => true
  | PatchProcessing :: _ => false
  | PatchCompleted :: rest | PatchError _ :: rest =>
      match rest with [] => true | _ => false end
  | _ :: rest => script_ok rest
  end.

(** Every progress value that [ps] writes is at least the one before it,
    starting from [p]. *)
Fixpoint mono_from (p : Z) (ps : list Patch) : bool :=
  match ps with
  | [] => true
  | u :: rest =>
      match written u with
      | Some q => (p <=? q)%Z && mono_from q rest
      | None => mono_from p rest
      end
  end.

(** What [processQueue] obtains for a task whose file is readable. *)
Definition schedulerPageImage (task : FileTask) : Settled (option string) :=
  fileToBase64 (readable (file task)).

(** The specification's wording (section 4.2, step 2): the page image is
    the one of the Preview Renderer. *)
Definition spec_pageImage (rasterize : Rasterizer) (task : FileTask) : option string :=
  option_map base64 (loadPreview rasterize task).

(** The application after [f1] and [f2] were dropped together and the
    effect started [f1] with [fileToBase64] and the adapter settling as
    given. *)
Definition twoFiles : App :=
  mkApp [f1; f2] [] ["f1"; "f2"].

Definition started (reader : ReaderEvent) (answer : AdapterAnswer) : App :=
  mkApp (setTasks "f1" PatchProcessing [f1; f2])
        [mkFlight "f1" (processQueue_rest reader answer sampleClock)]
        ["f1"; "f2"].

Definition processingCount (ts : list FileTask) : nat :=
  List.length (filter is_processing ts).

(** A suspended run and the task it closed over, while the task is
    listed: the task was started, it is still ['processing'] as long as
    updates remain, and the remaining updates do not lower its progress. *)
Definition flight_ok (ts : list FileTask) (f : Flight) : Prop :=
  script_ok (script f) = true
  /\ forall t, In t ts -> id t = target f ->
       mono_from (progress t) (script f) = true
       /\ status t <> pending
       /\ (script f <> [] -> status t = processing).

(** The invariant of the application. *)
Record Inv (a : App) : Prop := mkInv {
  inv_nodup : NoDup (ids (tasks a));
  inv_issued : forall x, In x (ids (tasks a)) -> In x (issued a);
  inv_targets : forall f, In f (flights a) -> In (target f) (issued a);
  inv_targets_nodup : NoDup (map target (flights a));
  inv_single : (processingCount (tasks a) <= 1)%nat;
  inv_pending : forall t, In t (tasks a) -> status t = pending -> progress t = 0;
  inv_flights : forall f, In f (flights a) -> flight_ok (tasks a) f
}.

(** The run that was started last makes its next update. *)
Definition resume (a : App) : App :=
  match flights a with
  | mkFlight tid (p :: rest) :: after => afterWrite a [] tid p rest after
  | _ => a
  end.

(** The task of a given id, if listed. *)
Definition getTask (tid : string) (ts : list FileTask) : option FileTask :=
  find (fun t => String.eqb (id t) tid) ts.

(** The run of [f1] has written progress 20 and holds the failure update
    of a rejected adapter call; then it has made that update. *)
Definition failing : App := resume (started (readable imageFile) networkError).
Definition failed : App := resume failing.

(** [f1] as listed in [started] and in [failing]. *)
Definition f1_started : FileTask := applyPatch PatchProcessing f1.
Definition f1_extracting : FileTask := applyPatch PatchExtracting f1_started.

(** [f1] is removed while its run waits for [fileToBase64]; the abandoned
    run then makes two of its updates. *)
Definition cancelled : App := afterRemove (started (readable imageFile) answersThree) "f1".
Definition cancelled_later : App := resume (resume cancelled).

(** The adapter call of a [processQueue] run, if the run reaches it. *)
Definition processQueue_request (TARGET_LANG_OPTIONS : list (string * string))
    (pendingTask : FileTask) (reader : ReaderEvent) : option AdapterRequest :=
  match fileToBase64 reader with
  | Resolved base64 => Some (adapterRequest TARGET_LANG_OPTIONS pendingTask base64)
  | Rejected _ => None
  end.

(** Strings without a comma (MIME types, base64 text). *)
Fixpoint comma_free (s : string) : bool :=
  match s with
  | EmptyString => true
  | String c s' => negb (Ascii.eqb c ","%char) && comma_free s'
  end.

(** The exact progress formula, under a name that the binary64 reading
    does not shadow. *)
Definition currentProgress_exact (i totalBlocks : nat) : Z := currentProgress i totalBlocks.

(** ** The numeric code in binary64

    JavaScript numbers are binary64 floating-point numbers.  This module
    transcribes the numeric code with the operations that JavaScript
    performs on them: the progress formula of the scheduler and, from
    [SplitView], the font sizing of a block, the comparator and the sort
    of [sortedBlocks], and the zoom buttons. *)

(** The toolbar of [SplitView]: the zoom-out button, the zoom-in button,
    and the effect that runs when another task is shown. *)
Inductive ZoomEvent : Type := zoomOutClick | zoomInClick | taskChanged.

Module Binary64.
Import Floats.

(** A count or a length as a number. *)
Definition of_nat (n : nat) : float := PrimFloat.of_uint63 (Uint63.of_Z (Z.of_nat n)).

(** [Math.floor] of a finite number, as an integer. *)
Definition Math_floor (x : float) : Z :=
  match Prim2SF x with
  | S754_finite false m e =>
      if (0 <=? e)%Z then Z.shiftl (Zpos m) e else Zpos m / 2 ^ (- e)
  | S754_finite true m e =>
      if (0 <=? e)%Z then Z.shiftl (Zneg m) e else Zneg m / 2 ^ (- e)
  | _ => 0
  end.

(** [Math.min] and [Math.max]: [NaN] as soon as one argument is, and
    [-0] counts as smaller than [+0]. *)
Definition Math_min (x y : float) : float :=
  if is_nan x || is_nan y then nan
  else if (x <? y)%float then x
  else if (y <? x)%float then y
  else if get_sign x then x else y.

Definition Math_max (x y : float) : float :=
  if is_nan x || is_nan y then nan
  else if (y <? x)%float then x
  else if (x <? y)%float then y
  else if get_sign x then y else x.

(** [30 + Math.floor(((i + 1) / totalBlocks) * 60)]. *)
Definition currentProgress (i totalBlocks : nat) : Z :=
  30 + Math_floor ((of_nat (i + 1) / of_nat totalBlocks) * 60)%float.

(** The exact and the rounded progress agree for a list of [totalBlocks]
    blocks. *)
Definition progress_agrees (totalBlocks : nat) : bool :=
  forallb (fun i => Z.eqb (currentProgress i totalBlocks) (currentProgress_exact i totalBlocks))
          (seq 0 totalBlocks).

(** *** The task as [SplitView] reads it

    The records of the data model, with the four numbers of [box] as
    binary64 numbers. *)

Record Box : Type := mkBox { box0 : float; box1 : float; box2 : float; box3 : float }.

Record TranslatedBlock : Type := mkBlock {
  b_id : string;
  b_pageIndex : Z;
  b_text : string;
  b_translatedText : string;
  b_box : Box;
  b_isBold : option bool;
  b_type : option string
}.

Record FileTask : Type := mkTask {
  id : string;
  name : string;
  file : File;
  previewUrl : string;
  status : TaskStatus;
  detailedStatus : string;
  progress : Z;
  totalPages : Z;
  processedPages : Z;
  warnings : list string;
  translatedBlocks : list TranslatedBlock;
  targetLanguage : string
}.

(** *** Font sizing of one block (the body of [sortedBlocks.map]) *)

(** [block.type === 'heading'] and [block.type === 'table_cell']. *)
Definition is_heading (b : TranslatedBlock) : bool :=
  match b_type b with Some ty => String.eqb ty "heading" | None => false end.

Definition is_table_cell (b : TranslatedBlock) : bool :=
  match b_type b with Some ty => String.eqb ty "table_cell" | None => false end.

Definition height (b : TranslatedBlock) : float := (box2 (b_box b) - box0 (b_box b))%float.
Definition width (b : TranslatedBlock) : float := (box3 (b_box b) - box1 (b_box b))%float.

(** [width * 5.95 * zoom] and [height * 8.42 * zoom]. *)
Definition boxWidthPx (b : TranslatedBlock) (zoom : float) : float :=
  (width b * 5.95 * zoom)%float.
Definition boxHeightPx (b : TranslatedBlock) (zoom : float) : float :=
  (height b * 8.42 * zoom)%float.
Definition area (b : TranslatedBlock) (zoom : float) : float :=
  (boxWidthPx b zoom * boxHeightPx b zoom)%float.

(** [block.translatedText.length || 1]. *)
Definition charCount (b : TranslatedBlock) : nat :=
  match String.length (b_translatedText b) with
  | O => 1%nat
  | n => n
  end.

(** [Math.sqrt((area * 0.90) / charCount)]. *)
Definition densityFontSize (b : TranslatedBlock) (zoom : float) : float :=
  PrimFloat.sqrt ((area b zoom * 0.90) / of_nat (charCount b))%float.

(** After [if (charCount < 10) ... Math.min(estimatedFontSize, boxHeightPx * 0.85)]. *)
Definition cappedFontSize (b : TranslatedBlock) (zoom : float) : float :=
  if (charCount b <? 10)%nat
  then Math_min (densityFontSize b zoom) (boxHeightPx b zoom * 0.85)%float
  else densityFontSize b zoom.

Definition minFs (zoom : float) : float := (9 * zoom)%float.
Definition maxFs (zoom : float) : float := (48 * zoom)%float.

(** After [Math.max(minFs, Math.min(estimatedFontSize, maxFs))]. *)
Definition clampedFontSize (b : TranslatedBlock) (zoom : float) : float :=
  Math_max (minFs zoom) (Math_min (cappedFontSize b zoom) (maxFs zoom)).

(** [block.isBold || block.type === 'heading']. *)
Definition isBold (b : TranslatedBlock) : bool :=
  match b_isBold b with Some true => true | _ => is_heading b end.

(** [isHeader] reads the font size before the header adjustment:
    [block.type === 'heading' || (charCount < 30 && estimatedFontSize > 14 * zoom)]. *)
Definition isHeader (b : TranslatedBlock) (zoom : float) : bool :=
  is_heading b
  || ((charCount b <? 30)%nat && (14 * zoom <? clampedFontSize b zoom)%float).

Definition isTable (b : TranslatedBlock) : bool := is_table_cell b.

(** The value written into [fontSize: `${estimatedFontSize}px`]: for a
    heading, [Math.max(estimatedFontSize, 14 * zoom)]. *)
Definition estimatedFontSize (b : TranslatedBlock) (zoom : float) : float :=
  if is_heading b
  then Math_max (clampedFontSize b zoom) (14 * zoom)%float
  else clampedFontSize b zoom.

(** *** Render order ([sortedBlocks]) *)

(** [(a.box[2] - a.box[0]) * (a.box[3] - a.box[1])]. *)
Definition boxArea (b : TranslatedBlock) : float :=
  ((box2 (b_box b) - box0 (b_box b)) * (box3 (b_box b) - box1 (b_box b)))%float.

(** The comparator: [areaB - areaA]. *)
Definition compareArea (a b : TranslatedBlock) : float := (boxArea b - boxArea a)%float.

Section ArraySort.
Context {A : Type}.
Variable compareFn : A -> A -> float.

(** [Array.prototype.sort] is stable, and with a consistent comparator
    its result does not depend on the engine's algorithm.  It is embedded
    as insertion from the right: [x] stood before every element of [l],
    so it moves behind [y] only when [compareFn x y > 0]; a comparator
    value [NaN] counts as [+0]. *)
Fixpoint sort_insert (x : A) (l : list A) : list A :=
  match l with
  | [] => [x]
  | y :: l' =>
      if (0 <? compareFn x y)%float then y :: sort_insert x l' else x :: l
  end.

Fixpoint Array_sort (l : list A) : list A :=
  match l with
  | [] => []
  | x :: l' => sort_insert x (Array_sort l')
  end.
End ArraySort.

(** [[...task.translatedBlocks].sort(...)], or [[]] without a task. *)
Definition sortedBlocks (task : option FileTask) : list TranslatedBlock :=
  match task with
  | None => []
  | Some t => Array_sort compareArea (translatedBlocks t)
  end.

(** *** Zoom buttons *)

(** [setZoom(z => Math.max(0.5, z - 0.1))],
    [setZoom(z => Math.min(3, z + 0.1))], and [setZoom(1)] when another
    task is shown. *)
Definition zoomStep (zoom : float) (e : ZoomEvent) : float :=
  match e with
  | zoomOutClick => Math_max 0.5 (zoom - 0.1)
  | zoomInClick => Math_min 3 (zoom + 0.1)
  | taskChanged => 1
  end%float.

(** [useState(1)], then the events in order. *)
Definition zoomAfter (events : list ZoomEvent) : float := fold_left zoomStep events 1%float.

(** *** The specification's wording of the render order

    Section 4.3 sorts by descending box area, (bottom - top) x (right -
    left) of the box [[top, left, bottom, right]]; here with each
    operation rounded to binary64. *)

Definition spec_boxArea (b : TranslatedBlock) : float :=
  let '(mkBox boxTop boxLeft boxBottom boxRight) := b_box b in
  ((boxBottom - boxTop) * (boxRight - boxLeft))%float.

(** Descending area: [a] may stand before [b]. *)
Definition area_ge (a b : TranslatedBlock) : Prop :=
  (spec_boxArea b <=? spec_boxArea a)%float = true.

(** Blocks whose area equals [v]. *)
Definition hasArea (v : float) (b : TranslatedBlock) : bool := (spec_boxArea b =? v)%float.

(** The area of [b] is not [NaN]. *)
Definition areaIsNumber (b : TranslatedBlock) : Prop := is_nan (spec_boxArea b) = false.

(** The exact value of a finite binary64 number, and the area of a box
    without rounding. *)
Definition exact (x : float) : Q :=
  match Prim2SF x with
  | S754_finite s m e => inject_Z (cond_Zopp s (Zpos m)) * Qpower 2 e
  | _ => 0
  end%Q.

Definition exactArea (b : TranslatedBlock) : Q :=
  ((exact (box2 (b_box b)) - exact (box0 (b_box b)))
   * (exact (box3 (b_box b)) - exact (box1 (b_box b))))%Q.

(** *** Auxiliary notions for the proofs *)

(** The values that the zoom can take: what the two buttons and the
    reset reach from [1]. *)
Definition mem (z : float) (l : list float) : bool := existsb (Leibniz.eqb z) l.

Definition add_new (l : list float) (z : float) : list float :=
  if mem z l then l else l ++ [z].

Definition zoomEvents : list ZoomEvent := [zoomOutClick; zoomInClick; taskChanged].

Fixpoint zoomClosure (rounds : nat) (l : list float) : list float :=
  match rounds with
  | O => l
  | S n =>
      zoomClosure n
        (fold_left add_new (flat_map (fun z => map (zoomStep z) zoomEvents) l) l)
  end.

Definition zoomLevels : list float := Eval vm_compute in zoomClosure 50 [1%float].

(** At zoom [zoom] the bounds of the clamp and the floor of headings are
    numbers in their order, between 4.5 and 144. *)
Definition thresholds_ordered (zoom : float) : bool :=
  negb (is_nan zoom)
  && (0.5 <=? zoom)%float && (zoom <=? 3)%float
  && (4.5 <=? 9 * zoom)%float && (9 * zoom <=? 14 * zoom)%float
  && (14 * zoom <=? 48 * zoom)%float && (48 * zoom <=? 144)%float.

(** An order-preserving map of the binary64 numbers into the integers:
    a finite number goes to its value times [2 ^ 1074], the infinities
    beyond all of them. *)
Definition rank_SF (x : spec_float) : Z :=
  match x with
  | S754_zero _ => 0
  | S754_infinity s => cond_Zopp s (2 ^ 2200)
  | S754_nan => 0
  | S754_finite s m e => cond_Zopp s (Zpos m * 2 ^ (e + 1074))
  end.

Definition rank (x : float) : Z := rank_SF (Prim2SF x).


(** Zero, or a positive finite number with exponent at most [E]. *)
Definition below (E : Z) (x : spec_float) : bool :=
  match x with
  | S754_zero _ => true
  | S754_finite false _ e => (e <=? E)%Z
  | _ => false
  end.


(** *** Sample blocks *)

Definition plainBlock (text : string) (box : Box) : TranslatedBlock :=
  mkBlock "b-0-0" 0 text text box None (Some "text").

(** A completed task that shows [blocks]. *)
Definition shownTask (blocks : list TranslatedBlock) : FileTask :=
  mkTask "f1" "scan.png" imageFile "blob:f1" completed "Translation Completed" 100 1 0 []
    blocks "zh-CN".

(** A box whose bottom edge lies above its top edge. *)
Definition invertedBlock : TranslatedBlock := plainBlock "abc" (mkBox 50 10 40 20).

(** A box of no height whose width overflows when scaled. *)
Definition overflowBlock : TranslatedBlock := plainBlock "abc" (mkBox 0 0 0 1e308).

Definition headingBlock : TranslatedBlock :=
  mkBlock "b-1-0" 0 "Title" "Titre" (mkBox 5 10 10 90) None (Some "heading").

(** A box of a tenth of a percent of the page each way. *)
Definition smallBlock : TranslatedBlock := plainBlock "abc" (mkBox 10 10 10.1 10.1).

(** Two boxes with one-decimal coordinates and the same area, 213.75,
    when computed without rounding from the decimals: 17.1 x 12.5 and
    28.5 x 7.5. *)
Definition blockB : TranslatedBlock := plainBlock "B" (mkBox 28.8 4.8 45.9 17.3).
Definition blockA : TranslatedBlock := plainBlock "A" (mkBox 4.9 11.8 33.4 19.3).

(** A box whose area is [NaN]: its height overflows and its width is 0. *)
Definition nanAreaBlock : TranslatedBlock := plainBlock "N" (mkBox (-1e308) 0 1e308 0).
Definition area5Block : TranslatedBlock := plainBlock "5" (mkBox 0 0 1 5).
Definition area10Block : TranslatedBlock := plainBlock "10" (mkBox 0 0 2 5).

End Binary64.

(** ** The life of a task *)

(** The status changes that one transition may make. *)
Definition status_step (s s' : TaskStatus) : bool :=
  match s, s' with
  | pending, processing | processing, completed | processing, error => true
  | _, _ => status_eqb s s'
  end.

(** What an update appends to the blocks of its task. *)
Definition appended (p : Patch) : list TranslatedBlock :=
  match p with
  | PatchBlock i _ blockData now => [newBlock i blockData now]
  | _ => []
  end.

(** A streaming update carries an index below its total. *)
Definition block_in_range (p : Patch) : bool :=
  match p with
  | PatchBlock i totalBlocks _ _ => (i <? totalBlocks)%nat
  | _ => true
  end.

(** How status, progress, warnings and blocks of a listed task go
    together. *)
Definition task_ok (t : FileTask) : Prop :=
  match status t with
  | pending => progress t = 0 /\ warnings t = [] /\ translatedBlocks t = []
  | processing => 5 <= progress t <= 90 /\ warnings t = []
  | completed => progress t = 100 /\ warnings t = []
  | error => 5 <= progress t <= 90 /\ List.length (warnings t) = 1%nat
  end.

Record Inv2 (a : App) : Prop := mkInv2 {
  inv2_tasks : forall t, In t (tasks a) -> task_ok t;
  inv2_scripts : forall f, In f (flights a) -> forallb block_in_range (script f) = true
}.

(** The task at the end of a script. *)
Definition runScript (ps : list Patch) (t : FileTask) : FileTask :=
  fold_left (fun t p => applyPatch p t) ps t.

(** The blocks that streaming [blocks] from index [i] appends. *)
Fixpoint streamedFrom (i : nat) (blocks : list BlockData) (now : nat -> Z) : list TranslatedBlock :=
  match blocks with
  | [] => []
  | blockData :: rest => newBlock i blockData (now i) :: streamedFrom (S i) rest now
  end.

(** The run of [f1] has announced the translation and is about to stream
    its first block. *)
Definition translating : App := resume (resume (started (readable imageFile) answersThree)).
Definition f1_translating : FileTask := applyPatch PatchTranslating f1_extracting.
Definition f1_first_block : FileTask :=
  applyPatch (PatchBlock 0 3 (sampleData "eins" "one") (sampleClock 0)) f1_translating.

(** The task at the end of a run whose file was read and whose adapter
    call resolved with the list [blocks]. *)
Definition successfulRun (result : string) (blocks : list BlockData) (now : nat -> Z)
    (t : FileTask) : FileTask :=
  runScript (processQueue_writes (onload (Some result))
               (Resolved (Some (mkResult (Some blocks)))) now) t.

(** ** The full-screen zoom ([SplitView]) *)

(** The full-screen viewer: its two buttons, the wheel handler (which
    acts only with the control key held) and the reset to 0.9. *)
Inductive FullScreenEvent : Type :=
| fullScreenOutClick
| fullScreenInClick
| fullScreenWheel (ctrlKey : bool) (deltaY : R)
| fullScreenReset.

Definition fullScreenZoomStep (zoom : R) (e : FullScreenEvent) : R :=
  match e with
  | fullScreenOutClick => Rmax (1 / 10) (zoom - 1 / 10)
  | fullScreenInClick => Rmin 5 (zoom + 1 / 10)
  | fullScreenWheel ctrlKey deltaY =>
      if ctrlKey then Rmax (1 / 10) (Rmin 5 (zoom - deltaY * (5 / 1000))) else zoom
  | fullScreenReset => (9 / 10)%R
  end.

Definition fullScreenZoomAfter (events : list FullScreenEvent) : R :=
  fold_left fullScreenZoomStep events (9 / 10)%R.

(** ** Toasts, selection and the drop zone ([App], [FileUpload]) *)

Inductive ToastType : Type := toast_success | toast_error | toast_info.

Record Toast : Type := mkToast {
  toast_id : string;
  toast_type : ToastType;
  toast_message : string
}.

(** [addToast]: [setToasts(prev => [...prev, { id, message, type }])],
    [tid] being the id drawn for the toast. *)
Definition addToast (tid : string) (message : string) (type : ToastType)
    (prev : list Toast) : list Toast :=
  prev ++ [mkToast tid type message].

(** [removeToast], and what the 5 s timer of [addToast] does:
    [setToasts(prev => prev.filter(t => t.id !== id))]. *)
Definition removeToast (tid : string) (prev : list Toast) : list Toast :=
  filter (fun t => negb (String.eqb (toast_id t) tid)) prev.

(** The state that the handlers of [App] share. *)
Record Ui : Type := mkUi {
  ui_tasks : list FileTask;
  ui_activeTaskId : option string;
  ui_toasts : list Toast
}.

(** [!activeTaskId]: [null] and the empty string are falsy. *)
Definition falsy (o : option string) : bool :=
  match o with
  | None | Some EmptyString => true
  | Some _ => false
  end.

(** [handleFilesSelected] on the whole state; [toastId] is the id drawn
    for its toast. *)
Definition handleFilesSelected_ui (defaultTargetLang : string) (toastId : string)
    (picks : list (string * string * File)) (u : Ui) : Ui :=
  match picks with
  | [] => u
  | first :: _ =>
      mkUi (handleFilesSelected defaultTargetLang picks (ui_tasks u))
           (if falsy (ui_activeTaskId u) then Some (pick_id first) else ui_activeTaskId u)
           (addToast toastId
              ("Added " ++ str_of_nat (List.length picks) ++ " file(s) to queue")
              toast_info (ui_toasts u))
  end.

(** [tasks.find(t => t.id === activeTaskId) || null]. *)
Definition activeTask (u : Ui) : option FileTask :=
  match ui_activeTaskId u with
  | Some i => getTask i (ui_tasks u)
  | None => None
  end.

(** The cards that show the remove button: [activeTaskId === task.id]. *)
Definition removeButtons (u : Ui) : list FileTask :=
  filter (fun t => match ui_activeTaskId u with
                   | Some i => String.eqb i (id t)
                   | None => false
                   end) (ui_tasks u).

(** A click on the remove button of [task]. *)
Definition clickRemove (toastId : string) (task : FileTask) (u : Ui) : Ui :=
  mkUi (removeTask (id task) (ui_tasks u))
       (ui_activeTaskId u)
       (addToast toastId "Removed file" toast_info (ui_toasts u)).

(** A click on the card of [task]: [setActiveTaskId(task.id)]. *)
Definition clickCard (task : FileTask) (u : Ui) : Ui :=
  mkUi (ui_tasks u) (Some (id task)) (ui_toasts u).

(** [FileUpload]: [handleDrop] and [handleChange] call [onFilesSelected]
    only for a file list that exists and is not empty; the result is the
    argument of that call, if it is made. *)
Definition handleDrop (files : option (list File)) : option (list File) :=
  match files with
  | Some (f :: fs) => Some (f :: fs)
  | _ => None
  end.

(** The files with the ids and URLs drawn for them. *)
Definition withDrawn (drawn : list (string * string)) (files : list File)
  : list (string * string * File) :=
  map (fun '(d, f) => (fst d, snd d, f)) (combine drawn files).

(** A drop on the drop zone, through [FileUpload] into [App]. *)
Definition dropFiles (defaultTargetLang toastId : string) (drawn : list (string * string))
    (files : option (list File)) (u : Ui) : Ui :=
  match handleDrop files with
  | Some fs => handleFilesSelected_ui defaultTargetLang toastId (withDrawn drawn fs) u
  | None => u
  end.

(** ** Constants and the Gemini service ([constants.ts], [geminiService.ts]) *)

Inductive SupportedLocale : Type := EN | ZH_CN | ZH_TW | JA | KO | FR | DE | ES.

Definition locale_value (l : SupportedLocale) : string :=
  match l with
  | EN => "en" | ZH_CN => "zh-CN" | ZH_TW => "zh-TW" | JA => "ja"
  | KO => "ko" | FR => "fr" | DE => "de" | ES => "es"
  end.

(** The table of the source, as (value, label) pairs. *)
Definition TARGET_LANG_OPTIONS : list (string * string) :=
  [ (locale_value EN, "English");
    (locale_value ZH_CN, "Chinese (Simplified)");
    (locale_value ZH_TW, "Chinese (Traditional)");
    (locale_value JA, "Japanese");
    (locale_value KO, "Korean");
    (locale_value FR, "French");
    (locale_value DE, "German");
    (locale_value ES, "Spanish") ].

(** [analyzeAndTranslateImage] after the request was sent: [response] is
    how [generateContent] settled, with [response.text] when it resolved,
    and [JSON_parse] is [JSON.parse], which returns a value or throws.
    The [catch] block logs and rethrows. *)
Definition analyzeAndTranslateImage (response : Settled (option string))
    (JSON_parse : string -> AdapterAnswer) : AdapterAnswer :=
  match response with
  | Rejected e => Rejected e
  | Resolved None | Resolved (Some EmptyString) => Rejected (Error "No response from Gemini")
  | Resolved (Some text) => JSON_parse text
  end.

(** The task at the end of a run whose file was read, with the adapter
    of the source. *)
Definition serviceRun (result : string) (response : Settled (option string))
    (JSON_parse : string -> AdapterAnswer) (now : nat -> Z) (t : FileTask) : FileTask :=
  runScript (processQueue_writes (onload (Some result))
               (analyzeAndTranslateImage response JSON_parse) now) t.

(** [f1] was removed while its run waited, and the effect has started
    [f2]: two runs are suspended. *)
Definition overlapping : App :=
  afterEffect cancelled f2 (readable imageFile) answersThree sampleClock.

(** * Properties *)

(** ** Font sizing *)








(** ** Binary64 numbers: comparisons and the sign of a difference

    From the specification of the binary64 operations ([SpecFloat],
    [FloatAxioms]): comparing two numbers is comparing their ranks, and
    rounding neither turns a number that is not zero into zero nor
    changes its sign, so that [y - x > 0] holds exactly when [x < y]. *)

Section Binary64Order.
Import Floats.
Local Open Scope Z_scope.

(** *** Comparison is the order of the ranks *)

Lemma digits2_pos_bounds (m : positive) :
  2 ^ (Zpos (digits2_pos m) - 1) <= Zpos m < 2 ^ Zpos (digits2_pos m).
Proof.
  induction m as [p IH|p IH|]; cbn [digits2_pos].
  - rewrite Pos2Z.inj_succ.
    replace (Z.succ (Zpos (digits2_pos p)) - 1) with (Z.succ (Zpos (digits2_pos p) - 1)) by lia.
    rewrite !Z.pow_succ_r by lia. lia.
  - rewrite Pos2Z.inj_succ.
    replace (Z.succ (Zpos (digits2_pos p)) - 1) with (Z.succ (Zpos (digits2_pos p) - 1)) by lia.
    rewrite !Z.pow_succ_r by lia. lia.
  - simpl. lia.
Qed.

Lemma bounded_spec (m : positive) (e : Z) :
  bounded prec emax m e = true ->
  -1074 <= e <= 971
  /\ Zpos (digits2_pos m) <= 53
  /\ (-1074 < e -> Zpos (digits2_pos m) = 53).
Proof.
  unfold bounded, canonical_mantissa, fexp, SpecFloat.emin.
  change prec with 53; change emax with 1024.
  intros H. apply andb_true_iff in H. destruct H as [H1 H2].
  apply Z.eqb_eq in H1. apply Z.leb_le in H2. lia.
Qed.

Lemma finite_rank_bounds (m : positive) (e : Z) :
  bounded prec emax m e = true -> 0 < Zpos m * 2 ^ (e + 1074) < 2 ^ 2200.
Proof.
  intros H. apply bounded_spec in H. destruct H as (He & Hd & _).
  pose proof (digits2_pos_bounds m) as [_ Hm].
  assert (H53 : Zpos m < 2 ^ 53).
  { eapply Z.lt_le_trans; [exact Hm|]. apply Z.pow_le_mono_r; lia. }
  assert (Hp : 0 < 2 ^ (e + 1074)) by (apply Z.pow_pos_nonneg; lia).
  assert (Hq : 2 ^ (e + 1074) < 2 ^ 2046) by (apply Z.pow_lt_mono_r; lia).
  split; [lia|].
  apply Z.lt_le_trans with (2 ^ 53 * 2 ^ 2046).
  - apply Z.mul_lt_mono_nonneg; lia.
  - rewrite <- Z.pow_add_r by lia. apply Z.pow_le_mono_r; lia.
Qed.

Lemma finite_rank_lt (m1 m2 : positive) (e1 e2 : Z) :
  bounded prec emax m1 e1 = true -> bounded prec emax m2 e2 = true ->
  e1 < e2 -> Zpos m1 * 2 ^ (e1 + 1074) < Zpos m2 * 2 ^ (e2 + 1074).
Proof.
  intros H1 H2 Hlt.
  apply bounded_spec in H1, H2.
  destruct H1 as (He1 & Hd1 & _), H2 as (He2 & _ & Hd2).
  pose proof (digits2_pos_bounds m1) as [_ Hm1].
  pose proof (digits2_pos_bounds m2) as [Hm2 _].
  rewrite Hd2 in Hm2 by lia. change (53 - 1) with 52 in Hm2.
  assert (H53 : Zpos m1 < 2 ^ 53).
  { eapply Z.lt_le_trans; [exact Hm1|]. apply Z.pow_le_mono_r; lia. }
  replace (e2 + 1074) with ((e1 + 1074) + (e2 - e1)) by lia.
  rewrite (Z.pow_add_r 2 (e1 + 1074) (e2 - e1)) by lia.
  assert (Hp : 0 < 2 ^ (e1 + 1074)) by (apply Z.pow_pos_nonneg; lia).
  assert (Hq : 2 ^ 1 <= 2 ^ (e2 - e1)) by (apply Z.pow_le_mono_r; lia).
  change (2 ^ 1) with 2 in Hq.
  change (2 ^ 53) with (2 ^ 52 * 2) in H53.
  apply Z.lt_le_trans with (2 ^ 52 * 2 * 2 ^ (e1 + 1074)).
  - apply Z.mul_lt_mono_pos_r; assumption.
  - rewrite <- Z.mul_assoc. apply Z.mul_le_mono_nonneg; try lia.
    rewrite Z.mul_comm. apply Z.mul_le_mono_nonneg_l; lia.
Qed.

Lemma finite_compare (m1 m2 : positive) (e1 e2 : Z) :
  bounded prec emax m1 e1 = true -> bounded prec emax m2 e2 = true ->
  match e1 ?= e2 with
  | Lt => Lt
  | Gt => Gt
  | Eq => Pos.compare_cont Eq m1 m2
  end = (Zpos m1 * 2 ^ (e1 + 1074) ?= Zpos m2 * 2 ^ (e2 + 1074)).
Proof.
  intros H1 H2. destruct (Z.compare_spec e1 e2) as [->|Hlt|Hgt].
  - assert (Hp : 0 < 2 ^ (e2 + 1074)).
    { apply Z.pow_pos_nonneg; [lia|]. apply bounded_spec in H2. lia. }
    change (Pos.compare_cont Eq m1 m2) with (Zpos m1 ?= Zpos m2).
    destruct (Z.compare_spec (Zpos m1) (Zpos m2)) as [E|L|G]; symmetry.
    + apply Z.compare_eq_iff. now rewrite E.
    + apply Z.compare_lt_iff. now apply Z.mul_lt_mono_pos_r.
    + apply Z.compare_gt_iff. now apply Z.mul_lt_mono_pos_r.
  - symmetry. apply Z.compare_lt_iff. now apply finite_rank_lt.
  - symmetry. apply Z.compare_gt_iff. now apply finite_rank_lt.
Qed.

Lemma SFcompare_rank (x y : spec_float) :
  valid_binary x = true -> valid_binary y = true ->
  x <> S754_nan -> y <> S754_nan ->
  SFcompare x y = Some (Binary64.rank_SF x ?= Binary64.rank_SF y).
Proof.
  intros Hx Hy Nx Ny.
  destruct x as [sx|sx| |sx mx ex]; [| |congruence|];
  destruct y as [sy|sy| |sy my ey]; try congruence; cbn [valid_binary] in Hx, Hy.
  - reflexivity.
  - destruct sy; reflexivity.
  - pose proof (finite_rank_bounds _ _ Hy) as Hb.
    destruct sy; cbn [SFcompare Binary64.rank_SF cond_Zopp]; f_equal; symmetry.
    + apply Z.compare_gt_iff; lia.
    + apply Z.compare_lt_iff; lia.
  - destruct sx; reflexivity.
  - destruct sx, sy; reflexivity.
  - pose proof (finite_rank_bounds _ _ Hy) as Hb.
    destruct sx, sy; cbn [SFcompare Binary64.rank_SF cond_Zopp]; f_equal; symmetry;
      first [apply Z.compare_gt_iff; lia | apply Z.compare_lt_iff; lia].
  - pose proof (finite_rank_bounds _ _ Hx) as Hb.
    destruct sx; cbn [SFcompare Binary64.rank_SF cond_Zopp]; f_equal; symmetry.
    + apply Z.compare_lt_iff; lia.
    + apply Z.compare_gt_iff; lia.
  - pose proof (finite_rank_bounds _ _ Hx) as Hb.
    destruct sx, sy; cbn [SFcompare Binary64.rank_SF cond_Zopp]; f_equal; symmetry;
      first [apply Z.compare_gt_iff; lia | apply Z.compare_lt_iff; lia].
  - pose proof (finite_rank_bounds _ _ Hx) as Hbx.
    pose proof (finite_rank_bounds _ _ Hy) as Hby.
    destruct sx, sy; cbn [SFcompare Binary64.rank_SF cond_Zopp]; f_equal.
    + rewrite Z.compare_opp.
      rewrite (Z.compare_antisym (Zpos mx * _)).
      rewrite <- (finite_compare _ _ _ _ Hx Hy).
      destruct (ex ?= ey); reflexivity.
    + symmetry. apply Z.compare_lt_iff; lia.
    + symmetry. apply Z.compare_gt_iff; lia.
    + now apply finite_compare.
Qed.


Lemma is_nan_Prim2SF (x : float) : is_nan x = true <-> Prim2SF x = S754_nan.
Proof.
  unfold Prim2SF. destruct (is_nan x); split; try reflexivity; try discriminate.
  intros H. exfalso.
  destruct (is_zero x); [discriminate|].
  destruct (is_infinity x); [discriminate|].
  destruct (Z.frexp x) as [r ex].
  destruct (shr_fexp prec emax _ _ _) as [mrs e'].
  destruct (shr_m mrs); discriminate.
Qed.

Lemma not_nan_Prim2SF (x : float) : is_nan x = false <-> Prim2SF x <> S754_nan.
Proof.
  rewrite <- is_nan_Prim2SF. destruct (is_nan x); split; congruence.
Qed.

Lemma compare_rank (x y : float) :
  is_nan x = false -> is_nan y = false ->
  SFcompare (Prim2SF x) (Prim2SF y) = Some (Binary64.rank x ?= Binary64.rank y).
Proof.
  intros Hx Hy. apply SFcompare_rank; try apply Prim2SF_valid; now apply not_nan_Prim2SF.
Qed.

Lemma ltb_rank (x y : float) :
  is_nan x = false -> is_nan y = false ->
  (x <? y)%float = (Binary64.rank x <? Binary64.rank y).
Proof.
  intros Hx Hy. rewrite ltb_spec. unfold SFltb, Z.ltb.
  rewrite compare_rank by assumption. reflexivity.
Qed.

Lemma leb_rank (x y : float) :
  is_nan x = false -> is_nan y = false ->
  (x <=? y)%float = (Binary64.rank x <=? Binary64.rank y).
Proof.
  intros Hx Hy. rewrite leb_spec. unfold SFleb, Z.leb.
  rewrite compare_rank by assumption. destruct (_ ?= _); reflexivity.
Qed.

Lemma eqb_rank (x y : float) :
  is_nan x = false -> is_nan y = false ->
  (x =? y)%float = (Binary64.rank x =? Binary64.rank y).
Proof.
  intros Hx Hy. rewrite eqb_spec. unfold SFeqb.
  rewrite compare_rank by assumption.
  destruct (Z.eqb_spec (Binary64.rank x) (Binary64.rank y)) as [E|N].
  - now rewrite E, Z.compare_refl.
  - destruct (Z.compare_spec (Binary64.rank x) (Binary64.rank y)); [contradiction | | ]; reflexivity.
Qed.

(** A comparison with [NaN] is false. *)
Lemma eqb_true_not_nan (x y : float) :
  (x =? y)%float = true -> is_nan x = false /\ is_nan y = false.
Proof.
  rewrite eqb_spec. unfold SFeqb. intros H.
  split; apply not_nan_Prim2SF; intros E; rewrite E in H.
  - discriminate.
  - destruct (Prim2SF x); discriminate.
Qed.

Lemma ltb_true_not_nan (x y : float) :
  (x <? y)%float = true -> is_nan x = false /\ is_nan y = false.
Proof.
  rewrite ltb_spec. unfold SFltb. intros H.
  split; apply not_nan_Prim2SF; intros E; rewrite E in H.
  - discriminate.
  - destruct (Prim2SF x); discriminate.
Qed.

Lemma leb_true_not_nan (x y : float) :
  (x <=? y)%float = true -> is_nan x = false /\ is_nan y = false.
Proof.
  rewrite leb_spec. unfold SFleb. intros H.
  split; apply not_nan_Prim2SF; intros E; rewrite E in H.
  - discriminate.
  - destruct (Prim2SF x); discriminate.
Qed.

(** *** Rounding keeps the sign *)

Lemma shr_1_m (mrs : shr_record) :
  0 <= shr_m mrs -> shr_m (shr_1 mrs) = Z.div2 (shr_m mrs).
Proof.
  destruct mrs as [m r s]. destruct m as [|[p|p|]|p]; cbn; try reflexivity; lia.
Qed.

Lemma iter_shr_1_m (p : positive) (mrs : shr_record) :
  0 <= shr_m mrs -> shr_m (iter_pos shr_1 p mrs) = Z.shiftr (shr_m mrs) (Zpos p).
Proof.
  revert mrs. induction p as [p IH|p IH|]; intros mrs H; cbn [iter_pos].
  - assert (H1 : 0 <= shr_m (shr_1 mrs)).
    { rewrite shr_1_m by assumption. rewrite Z.div2_spec. now apply Z.shiftr_nonneg. }
    assert (H2 : 0 <= shr_m (iter_pos shr_1 p (shr_1 mrs))).
    { rewrite IH by assumption. now apply Z.shiftr_nonneg. }
    rewrite IH, IH, shr_1_m, Z.div2_spec by assumption.
    rewrite !Z.shiftr_shiftr by lia. f_equal. lia.
  - assert (H2 : 0 <= shr_m (iter_pos shr_1 p mrs)).
    { rewrite IH by assumption. now apply Z.shiftr_nonneg. }
    rewrite IH, IH by assumption.
    rewrite Z.shiftr_shiftr by lia. f_equal. lia.
  - rewrite shr_1_m by assumption. apply Z.div2_spec.
Qed.

Lemma shr_record_of_loc_m (m : Z) (l : location) : shr_m (shr_record_of_loc m l) = m.
Proof. destruct l as [|[]]; reflexivity. Qed.

Lemma shr_fexp_nonneg (m e : Z) (l : location) :
  0 <= m -> 0 <= shr_m (fst (shr_fexp prec emax m e l)).
Proof.
  intros H. unfold shr_fexp, shr.
  destruct (fexp prec emax (Zdigits2 m + e) - e) as [|p|p]; cbn [fst].
  - now rewrite shr_record_of_loc_m.
  - rewrite iter_shr_1_m; rewrite shr_record_of_loc_m; [apply Z.shiftr_nonneg|]; assumption.
  - now rewrite shr_record_of_loc_m.
Qed.

Lemma shr_fexp_pos (m : positive) (e : Z) (l : location) :
  -1074 <= e ->
  0 < shr_m (fst (shr_fexp prec emax (Zpos m) e l))
  /\ -1074 <= snd (shr_fexp prec emax (Zpos m) e l).
Proof.
  intros He. unfold shr_fexp, shr. cbn [Zdigits2].
  destruct (fexp prec emax (Zpos (digits2_pos m) + e) - e) as [|p|p] eqn:En; cbn [fst snd].
  - rewrite shr_record_of_loc_m. lia.
  - unfold fexp, SpecFloat.emin in En. change prec with 53 in En. change emax with 1024 in En.
    assert (Hp : Zpos p = Zpos (digits2_pos m) - 53) by lia.
    rewrite iter_shr_1_m by (rewrite shr_record_of_loc_m; lia).
    rewrite shr_record_of_loc_m. split; [|lia].
    rewrite Z.shiftr_div_pow2 by lia. apply Z.div_str_pos.
    split; [apply Z.pow_pos_nonneg; lia|].
    pose proof (digits2_pos_bounds m) as [Hm _].
    eapply Z.le_trans; [|exact Hm]. apply Z.pow_le_mono_r; lia.
  - rewrite shr_record_of_loc_m. lia.
Qed.

Lemma round_nearest_even_nonneg (m : Z) (l : location) :
  0 <= m -> 0 <= round_nearest_even m l.
Proof. intros H. destruct l as [|[]]; cbn; try destruct (Z.even m); lia. Qed.

Lemma round_nearest_even_pos (m : Z) (l : location) :
  0 < m -> 0 < round_nearest_even m l.
Proof. intros H. destruct l as [|[]]; cbn; try destruct (Z.even m); lia. Qed.

(** Rounding a non-negative mantissa never gives [NaN]. *)
Lemma binary_round_aux_not_nan (s : bool) (m e : Z) (l : location) :
  0 <= m -> binary_round_aux prec emax s m e l <> S754_nan.
Proof.
  intros H. unfold binary_round_aux.
  pose proof (shr_fexp_nonneg m e l H) as H1.
  destruct (shr_fexp prec emax m e l) as [mrs' e']. cbn [fst] in H1.
  pose proof (shr_fexp_nonneg _ e' loc_Exact
                (round_nearest_even_nonneg _ (loc_of_shr_record mrs') H1)) as H2.
  destruct (shr_fexp prec emax (round_nearest_even _ _) e' loc_Exact) as [mrs'' e''].
  cbn [fst] in H2.
  destruct (shr_m mrs'') as [|q|q]; [discriminate| |lia].
  destruct (e'' <=? emax - prec); discriminate.
Qed.

(** Above the least exponent, rounding a positive mantissa gives a
    number of the same sign that is not zero. *)
Lemma binary_round_aux_sign (s : bool) (m : positive) (e : Z) (l : location) :
  -1074 <= e ->
  SFltb (S754_zero false) (binary_round_aux prec emax s (Zpos m) e l) = negb s.
Proof.
  intros He. unfold binary_round_aux.
  pose proof (shr_fexp_pos m e l He) as [H1 He'].
  destruct (shr_fexp prec emax (Zpos m) e l) as [mrs' e']. cbn [fst snd] in H1, He'.
  pose proof (round_nearest_even_pos _ (loc_of_shr_record mrs') H1) as Hr.
  destruct (round_nearest_even (shr_m mrs') (loc_of_shr_record mrs')) as [|r|r]; try lia.
  pose proof (shr_fexp_pos r e' loc_Exact He') as [H2 _].
  destruct (shr_fexp prec emax (Zpos r) e' loc_Exact) as [mrs'' e'']. cbn [fst] in H2.
  destruct (shr_m mrs'') as [|q|q]; try lia.
  destruct (e'' <=? emax - prec), s; reflexivity.
Qed.

Lemma binary_round_sign (s : bool) (m : positive) (e : Z) :
  -1074 <= e ->
  SFltb (S754_zero false) (binary_round prec emax s m e) = negb s.
Proof.
  intros He. unfold binary_round.
  destruct (shl_align m e (fexp prec emax (Zpos (digits2_pos m) + e))) as [mz ez] eqn:E.
  apply binary_round_aux_sign.
  unfold shl_align in E.
  assert (Hf : -1074 <= fexp prec emax (Zpos (digits2_pos m) + e)).
  { unfold fexp, SpecFloat.emin. change prec with 53. change emax with 1024. lia. }
  destruct (fexp prec emax (Zpos (digits2_pos m) + e) - e); inversion E; subst; assumption.
Qed.

Lemma iter_xO_value (m d : positive) : Zpos (Pos.iter xO m d) = Zpos m * 2 ^ Zpos d.
Proof.
  induction d as [|d IH] using Pos.peano_ind.
  - cbn [Pos.iter]. rewrite Pos2Z.inj_xO. change (2 ^ 1) with 2. lia.
  - rewrite Pos.iter_succ, Pos2Z.inj_xO, IH, Pos2Z.inj_succ, Z.pow_succ_r by lia. lia.
Qed.

Lemma shl_align_value (m : positive) (e e' : Z) :
  e' <= e -> Zpos (fst (shl_align m e e')) = Zpos m * 2 ^ (e - e').
Proof.
  intros H. unfold shl_align. destruct (e' - e) as [|d|d] eqn:E; cbn [fst].
  - replace (e - e') with 0 by lia. change (2 ^ 0) with 1. lia.
  - lia.
  - rewrite iter_xO_value. f_equal. f_equal. lia.
Qed.

(** The sign of a difference is that of the comparison. *)
Lemma SFsub_sign (x y : spec_float) :
  valid_binary x = true -> valid_binary y = true ->
  x <> S754_nan -> y <> S754_nan ->
  SFltb (S754_zero false) (SF64sub y x) = (Binary64.rank_SF x <? Binary64.rank_SF y).
Proof.
  intros Hx Hy Nx Ny.
  destruct x as [sx|sx| |sx mx ex]; [| |congruence|];
  destruct y as [sy|sy| |sy my ey]; try congruence; cbn [valid_binary] in Hx, Hy.
  - destruct sx, sy; reflexivity.
  - destruct sx, sy; reflexivity.
  - pose proof (finite_rank_bounds _ _ Hy) as Hb.
    destruct sy; cbn [SF64sub SFsub SFltb SFcompare Binary64.rank_SF cond_Zopp];
      unfold SF64sub; cbn [SFsub SFltb SFcompare]; symmetry.
    + apply Z.ltb_ge; lia.
    + apply Z.ltb_lt; lia.
  - destruct sx, sy; reflexivity.
  - destruct sx, sy; reflexivity.
  - pose proof (finite_rank_bounds _ _ Hy) as Hb.
    destruct sx, sy; unfold SF64sub; cbn [SFsub SFltb SFcompare Binary64.rank_SF cond_Zopp negb];
      symmetry; first [apply Z.ltb_ge; lia | apply Z.ltb_lt; lia].
  - pose proof (finite_rank_bounds _ _ Hx) as Hb.
    destruct sx; unfold SF64sub; cbn [SFsub SFltb SFcompare Binary64.rank_SF cond_Zopp negb];
      symmetry; first [apply Z.ltb_ge; lia | apply Z.ltb_lt; lia].
  - pose proof (finite_rank_bounds _ _ Hx) as Hb.
    destruct sx, sy; unfold SF64sub; cbn [SFsub SFltb SFcompare Binary64.rank_SF cond_Zopp negb];
      symmetry; first [apply Z.ltb_ge; lia | apply Z.ltb_lt; lia].
  - pose proof (bounded_spec _ _ Hx) as (Hex & _).
    pose proof (bounded_spec _ _ Hy) as (Hey & _).
    unfold SF64sub. cbn [SFsub Binary64.rank_SF].
    set (ez := Z.min ey ex).
    assert (Hez : -1074 <= ez) by (unfold ez; lia).
    rewrite (shl_align_value my ey ez) by (unfold ez; lia).
    rewrite (shl_align_value mx ex ez) by (unfold ez; lia).
    set (D := cond_Zopp sy (Zpos my * 2 ^ (ey - ez)) - cond_Zopp sx (Zpos mx * 2 ^ (ex - ez))).
    assert (Hp : 0 < 2 ^ (ez + 1074)) by (apply Z.pow_pos_nonneg; lia).
    assert (HD : cond_Zopp sy (Zpos my * 2 ^ (ey + 1074)) - cond_Zopp sx (Zpos mx * 2 ^ (ex + 1074))
                 = D * 2 ^ (ez + 1074)).
    { unfold D.
      replace (ey + 1074) with ((ey - ez) + (ez + 1074)) by lia.
      replace (ex + 1074) with ((ex - ez) + (ez + 1074)) by lia.
      rewrite (Z.pow_add_r 2 (ey - ez) (ez + 1074)) by (unfold ez; lia).
      rewrite (Z.pow_add_r 2 (ex - ez) (ez + 1074)) by (unfold ez; lia).
      generalize (2 ^ (ey - ez)) (2 ^ (ex - ez)) (2 ^ (ez + 1074)). intros a b c.
      destruct sx, sy; cbn [cond_Zopp]; lia. }
    destruct D as [|d|d]; cbn [binary_normalize].
    + symmetry. apply Z.ltb_ge. lia.
    + rewrite binary_round_sign by assumption. symmetry. apply Z.ltb_lt. lia.
    + rewrite binary_round_sign by assumption. symmetry. apply Z.ltb_ge. lia.
Qed.

(** [areaB - areaA > 0] exactly when [areaA < areaB]. *)
Lemma sub_positive (x y : float) :
  is_nan x = false -> is_nan y = false ->
  (0 <? y - x)%float = (x <? y)%float.
Proof.
  intros Hx Hy. rewrite (ltb_rank x y Hx Hy).
  rewrite ltb_spec, sub_spec.
  change (Prim2SF 0) with (S754_zero false).
  apply SFsub_sign; try apply Prim2SF_valid; now apply not_nan_Prim2SF.
Qed.

End Binary64Order.

(** ** The clamp of the font size *)

Section FontSizeClamp.
Import Floats.
Import Binary64.
Local Open Scope Z_scope.

(** *** [NaN] through the operations *)

Lemma mul_not_nan (x y : float) :
  is_nan (x * y)%float = false -> is_nan x = false /\ is_nan y = false.
Proof.
  intros H. apply not_nan_Prim2SF in H. rewrite mul_spec in H.
  split; apply not_nan_Prim2SF; intros E; apply H; rewrite E; unfold SF64mul.
  - reflexivity.
  - destruct (Prim2SF x); reflexivity.
Qed.

Lemma div_not_nan (x y : float) : is_nan (x / y)%float = false -> is_nan x = false.
Proof.
  intros H. apply not_nan_Prim2SF in H. rewrite div_spec in H.
  apply not_nan_Prim2SF; intros E; apply H; rewrite E. reflexivity.
Qed.

Lemma sqrt_not_nan (x : float) : is_nan (PrimFloat.sqrt x) = false -> is_nan x = false.
Proof.
  intros H. apply not_nan_Prim2SF in H. rewrite sqrt_spec in H.
  apply not_nan_Prim2SF; intros E; apply H; rewrite E. reflexivity.
Qed.

(** A number times a finite constant other than zero is a number. *)
Lemma mul_const_not_nan (x c : float) (s : bool) (m : positive) (e : Z) :
  Prim2SF c = S754_finite s m e -> is_nan x = false -> is_nan (x * c)%float = false.
Proof.
  intros Hc Hx. apply not_nan_Prim2SF in Hx. apply not_nan_Prim2SF.
  rewrite mul_spec, Hc. unfold SF64mul.
  destruct (Prim2SF x) as [sx|sx| |sx mx ex]; cbn [SFmul]; try discriminate; try congruence.
  apply binary_round_aux_not_nan. lia.
Qed.

(** *** [Math.min] and [Math.max] *)

Lemma Math_min_nan (x y : float) : is_nan x || is_nan y = true -> is_nan (Math_min x y) = true.
Proof. intros H. unfold Math_min. now rewrite H. Qed.

Lemma Math_max_nan (x y : float) : is_nan x || is_nan y = true -> is_nan (Math_max x y) = true.
Proof. intros H. unfold Math_max. now rewrite H. Qed.

Lemma Math_min_rank (x y : float) :
  is_nan x = false -> is_nan y = false ->
  is_nan (Math_min x y) = false /\ rank (Math_min x y) = Z.min (rank x) (rank y).
Proof.
  intros Hx Hy. unfold Math_min. rewrite Hx, Hy. cbn [orb].
  rewrite (ltb_rank x y), (ltb_rank y x) by assumption.
  destruct (Z.ltb_spec (rank x) (rank y)); [split; [assumption|lia]|].
  destruct (Z.ltb_spec (rank y) (rank x)); [split; [assumption|lia]|].
  destruct (get_sign x); (split; [assumption|lia]).
Qed.

Lemma Math_max_rank (x y : float) :
  is_nan x = false -> is_nan y = false ->
  is_nan (Math_max x y) = false /\ rank (Math_max x y) = Z.max (rank x) (rank y).
Proof.
  intros Hx Hy. unfold Math_max. rewrite Hx, Hy. cbn [orb].
  rewrite (ltb_rank x y), (ltb_rank y x) by assumption.
  destruct (Z.ltb_spec (rank y) (rank x)); [split; [assumption|lia]|].
  destruct (Z.ltb_spec (rank x) (rank y)); [split; [assumption|lia]|].
  destruct (get_sign x); (split; [assumption|lia]).
Qed.

Lemma leb_true_rank (x y : float) :
  (x <=? y)%float = true -> is_nan x = false /\ is_nan y = false /\ rank x <= rank y.
Proof.
  intros H. destruct (leb_true_not_nan x y H) as [Hx Hy].
  rewrite leb_rank in H by assumption. apply Z.leb_le in H. auto.
Qed.

Lemma rank_leb (x y : float) :
  is_nan x = false -> is_nan y = false -> rank x <= rank y -> (x <=? y)%float = true.
Proof. intros Hx Hy H. rewrite leb_rank by assumption. now apply Z.leb_le. Qed.

(** *** The clamp *)

Lemma cap_not_nan (b : TranslatedBlock) (zoom : float) :
  is_nan (densityFontSize b zoom) = false ->
  is_nan (boxHeightPx b zoom * 0.85)%float = false.
Proof.
  unfold densityFontSize. intros H.
  apply sqrt_not_nan, div_not_nan, mul_not_nan in H. destruct H as [H _].
  unfold area in H. apply mul_not_nan in H. destruct H as [_ H].
  eapply mul_const_not_nan; [vm_compute; reflexivity | exact H].
Qed.

Lemma capped_number (b : TranslatedBlock) (zoom : float) :
  is_nan (densityFontSize b zoom) = false -> is_nan (cappedFontSize b zoom) = false.
Proof.
  intros H. unfold cappedFontSize. destruct (charCount b <? 10)%nat; [|exact H].
  apply Math_min_rank; [exact H | now apply cap_not_nan].
Qed.

Lemma capped_nan (b : TranslatedBlock) (zoom : float) :
  is_nan (densityFontSize b zoom) = true -> is_nan (cappedFontSize b zoom) = true.
Proof.
  intros H. unfold cappedFontSize. destruct (charCount b <? 10)%nat; [|exact H].
  apply Math_min_nan. now rewrite H.
Qed.

Lemma clamp_rank (est lo hi : float) :
  is_nan est = false -> is_nan lo = false -> is_nan hi = false -> rank lo <= rank hi ->
  is_nan (Math_max lo (Math_min est hi)) = false
  /\ rank lo <= rank (Math_max lo (Math_min est hi)) <= rank hi.
Proof.
  intros He Hlo Hhi Hle.
  destruct (Math_min_rank est hi He Hhi) as [Hm Em].
  destruct (Math_max_rank lo _ Hlo Hm) as [Hx Ex].
  split; [exact Hx|]. rewrite Ex, Em. lia.
Qed.

Lemma estimated_rank (b : TranslatedBlock) (zoom : float) :
  (9 * zoom <=? 14 * zoom)%float = true ->
  (14 * zoom <=? 48 * zoom)%float = true ->
  is_nan (densityFontSize b zoom) = false ->
  is_nan (clampedFontSize b zoom) = false
  /\ rank (9 * zoom)%float <= rank (clampedFontSize b zoom) <= rank (48 * zoom)%float
  /\ is_nan (estimatedFontSize b zoom) = false
  /\ rank (estimatedFontSize b zoom)
     = (if is_heading b
        then Z.max (rank (clampedFontSize b zoom)) (rank (14 * zoom)%float)
        else rank (clampedFontSize b zoom)).
Proof.
  intros H1 H2 Hd.
  apply leb_true_rank in H1. destruct H1 as (H9 & H14 & L1).
  apply leb_true_rank in H2. destruct H2 as (_ & H48 & L2).
  destruct (clamp_rank (cappedFontSize b zoom) (9 * zoom)%float (48 * zoom)%float)
    as [Hc Rc]; try assumption; [now apply capped_number | lia |].
  fold (minFs zoom) in Hc, Rc. fold (maxFs zoom) in Hc, Rc. fold (clampedFontSize b zoom) in Hc, Rc.
  split; [exact Hc|]. split; [exact Rc|].
  unfold estimatedFontSize. destruct (is_heading b).
  - apply Math_max_rank; assumption.
  - split; [exact Hc | reflexivity].
Qed.

Lemma estimated_nan (b : TranslatedBlock) (zoom : float) :
  is_nan (densityFontSize b zoom) = true -> is_nan (estimatedFontSize b zoom) = true.
Proof.
  intros H. apply capped_nan in H.
  assert (Hc : is_nan (clampedFontSize b zoom) = true).
  { unfold clampedFontSize. apply Math_max_nan.
    rewrite (Math_min_nan _ _) by (now rewrite H). apply orb_true_r. }
  unfold estimatedFontSize. destruct (is_heading b); [|exact Hc].
  apply Math_max_nan. now rewrite Hc.
Qed.


(** C4, as amended.  At every zoom factor at which the bounds are in
    order, [9 * zoom <= 14 * zoom <= 48 * zoom] as the code computes
    them, the font size written by [SplitView] is [NaN] exactly when the
    density estimate [Math.sqrt((area * 0.90) / charCount)] is [NaN]; in
    every other case it lies in [[9 * zoom, 48 * zoom]], and for a
    heading it is at least [14 * zoom]. *)
Theorem fontSize_in_range (b : TranslatedBlock) (zoom : float) :
  (9 * zoom <=? 14 * zoom)%float = true ->
  (14 * zoom <=? 48 * zoom)%float = true ->
  if is_nan (densityFontSize b zoom)
  then is_nan (estimatedFontSize b zoom) = true
  else (9 * zoom <=? estimatedFontSize b zoom)%float = true
       /\ (estimatedFontSize b zoom <=? 48 * zoom)%float = true
       /\ (is_heading b = true -> (14 * zoom <=? estimatedFontSize b zoom)%float = true).
Proof.
  intros H1 H2. destruct (is_nan (densityFontSize b zoom)) eqn:Hd.
  - now apply estimated_nan.
  - destruct (estimated_rank b zoom H1 H2 Hd) as (Hc & Rc & He & Re).
    apply leb_true_rank in H1. destruct H1 as (H9 & H14 & L1).
    apply leb_true_rank in H2. destruct H2 as (_ & H48 & L2).
    split; [|split].
    + apply rank_leb; try assumption. rewrite Re. destruct (is_heading b); lia.
    + apply rank_leb; try assumption. rewrite Re. destruct (is_heading b); lia.
    + intros Hh. apply rank_leb; try assumption. rewrite Re, Hh. lia.
Qed.

(** The amended C4 at the sample heading and zoom 1. *)
Lemma fontSize_in_range_heading :
  (9 * 1 <=? estimatedFontSize headingBlock 1)%float = true
  /\ (estimatedFontSize headingBlock 1 <=? 48 * 1)%float = true
  /\ (is_heading headingBlock = true ->
      (14 * 1 <=? estimatedFontSize headingBlock 1)%float = true).
Proof. exact (fontSize_in_range headingBlock 1 eq_refl eq_refl). Defined.

(** C4, as stated, fails: a block whose box has its bottom edge above its
    top edge has a negative pixel area at zoom 1, [Math.sqrt] gives [NaN]
    and [NaN] passes through every [Math.min] and [Math.max]. *)
Lemma fontSize_NaN_on_inverted_box :
  is_nan (estimatedFontSize invertedBlock 1) = true.
Proof. reflexivity. Qed.

(** So does a box of no height whose width is so large that its pixel
    width overflows: the pixel area is [Infinity * 0]. *)
Lemma fontSize_NaN_on_overflow :
  is_nan (estimatedFontSize overflowBlock 1) = true
  /\ boxWidthPx overflowBlock 1 = infinity
  /\ boxHeightPx overflowBlock 1 = 0%float.
Proof. repeat (split; [vm_compute; reflexivity|]). vm_compute. reflexivity. Qed.

(** The condition on the zoom: at zoom [-1] the bounds are [-9] and
    [-48], no number lies between them, and the sample heading gets the
    font size [-9]. *)
Lemma fontSize_at_negative_zoom :
  estimatedFontSize headingBlock (-1) = (-9)%float
  /\ (48 * -1 <? estimatedFontSize headingBlock (-1))%float = true.
Proof. split; vm_compute; reflexivity. Qed.

(** The bounds are the products as the code computes them.  After four
    clicks on the zoom-out button the zoom is 0.6000000000000001; nine
    times this number is rounded down, and a block with a small box gets
    the rounded product as its font size. *)
Lemma clamp_bounds_are_rounded :
  zoomAfter (repeat zoomOutClick 4) = 0.6000000000000001%float
  /\ estimatedFontSize smallBlock 0.6000000000000001 = (9 * 0.6000000000000001)%float
  /\ (exact (9 * 0.6000000000000001) < 9 * exact 0.6000000000000001)%Q.
Proof. repeat (split; [vm_compute; reflexivity|]). vm_compute. reflexivity. Qed.

End FontSizeClamp.

(** ** Render order *)

Section RenderOrder.
Import Floats.
Import Binary64.
Local Open Scope Z_scope.

Lemma spec_boxArea_boxArea (b : TranslatedBlock) : spec_boxArea b = boxArea b.
Proof. unfold spec_boxArea, boxArea. destruct (b_box b); reflexivity. Qed.

Lemma compareArea_positive (x y : TranslatedBlock) :
  is_nan (spec_boxArea x) = false -> is_nan (spec_boxArea y) = false ->
  (0 <? compareArea x y)%float = (rank (spec_boxArea x) <? rank (spec_boxArea y)).
Proof.
  intros Hx Hy. unfold compareArea. rewrite <- !spec_boxArea_boxArea.
  rewrite sub_positive by assumption. now apply ltb_rank.
Qed.

Lemma area_ge_rank (a b : TranslatedBlock) :
  is_nan (spec_boxArea a) = false -> is_nan (spec_boxArea b) = false ->
  area_ge a b <-> rank (spec_boxArea b) <= rank (spec_boxArea a).
Proof.
  intros Ha Hb. unfold area_ge. rewrite leb_rank by assumption. apply Z.leb_le.
Qed.

Lemma sort_insert_perm (x : TranslatedBlock) (l : list TranslatedBlock) :
  Permutation (x :: l) (sort_insert compareArea x l).
Proof.
  induction l as [|y l IH]; cbn [sort_insert].
  - apply Permutation_refl.
  - destruct (0 <? compareArea x y)%float.
    + apply perm_trans with (y :: x :: l); [apply perm_swap | now apply perm_skip].
    + apply Permutation_refl.
Qed.

Lemma Array_sort_perm (l : list TranslatedBlock) :
  Permutation l (Array_sort compareArea l).
Proof.
  induction l as [|x l IH]; cbn [Array_sort].
  - apply perm_nil.
  - apply perm_trans with (x :: Array_sort compareArea l).
    + now apply perm_skip.
    + apply sort_insert_perm.
Qed.

Lemma Array_sort_numbers (l : list TranslatedBlock) :
  Forall areaIsNumber l -> Forall areaIsNumber (Array_sort compareArea l).
Proof. intros H. eapply Permutation_Forall; [apply Array_sort_perm | exact H]. Qed.

Lemma sort_insert_sorted (x : TranslatedBlock) (l : list TranslatedBlock) :
  areaIsNumber x -> Forall areaIsNumber l ->
  StronglySorted area_ge l -> StronglySorted area_ge (sort_insert compareArea x l).
Proof.
  intros Hx Hl Hs. induction Hs as [|y l Hs IH Hy]; cbn [sort_insert].
  - constructor; constructor.
  - inversion Hl as [|? ? Ny Nl]; subst.
    rewrite compareArea_positive by assumption.
    destruct (Z.ltb_spec (rank (spec_boxArea x)) (rank (spec_boxArea y))) as [Hlt|Hge].
    + constructor; [now apply IH|].
      apply Permutation_Forall with (x :: l); [apply sort_insert_perm|].
      constructor; [|exact Hy].
      apply area_ge_rank; [assumption..|lia].
    + constructor; [now constructor|].
      constructor; [apply area_ge_rank; assumption|].
      rewrite Forall_forall in Hy, Nl |- *. intros z Hz.
      specialize (Hy z Hz). specialize (Nl z Hz).
      apply area_ge_rank in Hy; try assumption.
      apply area_ge_rank; try assumption. lia.
Qed.

Lemma Array_sort_sorted (l : list TranslatedBlock) :
  Forall areaIsNumber l -> StronglySorted area_ge (Array_sort compareArea l).
Proof.
  induction l as [|x l IH]; intros H; cbn [Array_sort].
  - constructor.
  - inversion H; subst. apply sort_insert_sorted; auto using Array_sort_numbers.
Qed.

Lemma sort_insert_ties (v : float) (x : TranslatedBlock) (l : list TranslatedBlock) :
  areaIsNumber x -> Forall areaIsNumber l ->
  filter (hasArea v) (sort_insert compareArea x l) = filter (hasArea v) (x :: l).
Proof.
  intros Hx Hl. induction Hl as [|y l Hy Hl IH]; [reflexivity|].
  cbn [sort_insert]. rewrite compareArea_positive by assumption.
  destruct (Z.ltb_spec (rank (spec_boxArea x)) (rank (spec_boxArea y))) as [Hlt|Hge]; [|reflexivity].
  cbn [filter] in *. rewrite IH.
  destruct (hasArea v x) eqn:Ex, (hasArea v y) eqn:Ey; try reflexivity.
  exfalso. unfold hasArea in Ex, Ey.
  destruct (eqb_true_not_nan _ _ Ex) as [_ Hv].
  rewrite eqb_rank in Ex, Ey by assumption.
  apply Z.eqb_eq in Ex, Ey. lia.
Qed.

Lemma Array_sort_ties (v : float) (l : list TranslatedBlock) :
  Forall areaIsNumber l ->
  filter (hasArea v) (Array_sort compareArea l) = filter (hasArea v) l.
Proof.
  induction l as [|x l IH]; intros H; [reflexivity|]. inversion H; subst.
  cbn [Array_sort]. rewrite sort_insert_ties by auto using Array_sort_numbers.
  cbn [filter]. now rewrite IH.
Qed.


(** C5, as amended.  When the computed area of every block is a number,
    the rendered sequence of a task is its block list sorted by
    descending box area as computed in binary64: it is a permutation of
    the list, every block stands before all blocks of smaller or equal
    computed area, and for each value the blocks with that computed area
    come in their original order; three blocks of computed areas 10, 50
    and 5 are rendered as 50, 10, 5. *)
Theorem sortedBlocks_stable_descending (task : FileTask) :
  Forall (fun b => is_nan (spec_boxArea b) = false) (translatedBlocks task) ->
  Permutation (translatedBlocks task) (sortedBlocks (Some task))
  /\ StronglySorted area_ge (sortedBlocks (Some task))
  /\ (forall v, filter (hasArea v) (sortedBlocks (Some task))
                = filter (hasArea v) (translatedBlocks task))
  /\ (forall b1 b2 b3,
        translatedBlocks task = [b1; b2; b3] ->
        spec_boxArea b1 = 10%float -> spec_boxArea b2 = 50%float ->
        spec_boxArea b3 = 5%float ->
        sortedBlocks (Some task) = [b2; b1; b3]).
Proof.
  intros H. unfold sortedBlocks.
  split; [|split; [|split]].
  - apply Array_sort_perm.
  - now apply Array_sort_sorted.
  - intros v. now apply Array_sort_ties.
  - intros b1 b2 b3 E H1 H2 H3. rewrite E.
    cbn [Array_sort sort_insert]. unfold compareArea.
    rewrite <- !spec_boxArea_boxArea, H2, H3.
    change (0 <? 5 - 50)%float with false. cbn [sort_insert].
    rewrite <- !spec_boxArea_boxArea, H1, H2, H3.
    change (0 <? 50 - 10)%float with true.
    change (0 <? 5 - 10)%float with false. reflexivity.
Qed.

(** The amended C5 at the task of the two sample blocks. *)
Lemma sortedBlocks_of_two :
  Forall (fun b => is_nan (spec_boxArea b) = false) [blockB; blockA]
  /\ Permutation [blockB; blockA] (sortedBlocks (Some (shownTask [blockB; blockA])))
  /\ StronglySorted area_ge (sortedBlocks (Some (shownTask [blockB; blockA]))).
Proof.
  assert (H : Forall (fun b => is_nan (spec_boxArea b) = false) [blockB; blockA])
    by (repeat constructor).
  split; [exact H|].
  split; apply (sortedBlocks_stable_descending (shownTask [blockB; blockA]) H).
Defined.

(** C5, as stated, fails.  The adapter returns [blockB] before [blockA].
    Their areas are equal when computed from the decimal coordinates
    (213.75 both), and on the exact values of the binary64 coordinates
    the area of [blockB] is the larger one; either way [blockB] should
    stay first.  The code computes 213.74999999999997 for [blockB] and
    213.75 for [blockA], and renders [blockA] first. *)
Lemma rounding_reorders_blocks :
  sortedBlocks (Some (shownTask [blockB; blockA])) = [blockA; blockB]
  /\ spec_boxArea blockB = 213.74999999999997%float
  /\ spec_boxArea blockA = 213.75%float
  /\ (exactArea blockA < exactArea blockB)%Q
  /\ (((459 # 10) - (288 # 10)) * ((173 # 10) - (48 # 10))
      == ((334 # 10) - (49 # 10)) * ((193 # 10) - (118 # 10)))%Q.
Proof. repeat (split; [vm_compute; reflexivity|]). vm_compute. reflexivity. Qed.

(** The condition on the areas.  A block whose area is [NaN] compares as
    equal to every block, also to two blocks that the comparator tells
    apart: the comparator is then not consistent, and the order that
    [Array.prototype.sort] returns is left to the engine. *)
Lemma nan_area_comparator :
  is_nan (spec_boxArea nanAreaBlock) = true
  /\ is_nan (compareArea area5Block nanAreaBlock) = true
  /\ is_nan (compareArea nanAreaBlock area10Block) = true
  /\ (0 <? compareArea area5Block area10Block)%float = true.
Proof. repeat (split; [vm_compute; reflexivity|]). vm_compute. reflexivity. Qed.

End RenderOrder.

(** ** Streaming progress *)

(** The floored quotient of the source is an integer division. *)
Lemma currentProgress_div (i totalBlocks : nat) :
  (1 <= totalBlocks)%nat ->
  currentProgress i totalBlocks
  = 30 + (60 * (Z.of_nat i + 1)) / Z.of_nat totalBlocks.
Proof.
  intros H. destruct totalBlocks as [|n]; [lia|].
  unfold currentProgress, Qdiv, Qinv, Qmult, Qfloor, inject_Z.
  cbn [Qnum Qden Z.of_nat].
  f_equal. f_equal; lia.
Qed.

Lemma states_length (ps : list Patch) :
  forall t, List.length (states ps t) = S (List.length ps).
Proof. induction ps as [|p ps IH]; intros t; simpl; [reflexivity | now rewrite IH]. Qed.

Lemma streamFrom_length (totalBlocks : nat) (now : nat -> Z) (blocks : list BlockData) :
  forall i0, List.length (streamFrom i0 totalBlocks blocks now) = List.length blocks.
Proof. induction blocks as [|b r IH]; intros i0; simpl; [reflexivity | now rewrite IH]. Qed.

Lemma states_nth_stream (totalBlocks : nat) (now : nat -> Z) (blocks : list BlockData) :
  forall (i0 : nat) (t : FileTask) (k : nat),
    (k <= List.length blocks)%nat ->
    let tk := nth k (states (streamFrom i0 totalBlocks blocks now) t) t in
    List.length (translatedBlocks tk) = (List.length (translatedBlocks t) + k)%nat
    /\ ((1 <= k)%nat -> progress tk = currentProgress (i0 + k - 1) totalBlocks).
Proof.
  induction blocks as [|bd rest IH]; intros i0 t k Hk; simpl in Hk.
  - assert (k = 0%nat) by lia. subst k. simpl. split; [lia | intros; lia].
  - destruct k as [|k].
    + simpl. split; [lia | intros; lia].
    + cbn [streamFrom states nth].
      set (t1 := applyPatch (PatchBlock i0 totalBlocks bd (now i0)) t).
      destruct (IH (S i0) t1 k) as [Hlen Hprog]; [lia|].
      rewrite (nth_indep _ t t1)
        by (rewrite states_length, streamFrom_length; lia).
      split.
      * rewrite Hlen. unfold t1. simpl. rewrite length_app. simpl. lia.
      * intros _. destruct k as [|k'].
        -- replace (i0 + 1 - 1)%nat with i0 by lia.
           destruct rest; reflexivity.
        -- rewrite Hprog by lia. f_equal. lia.
Qed.

(** C1, as amended.  When the adapter returns [N >= 1] blocks, the task has
    progress [30 + floor(60 * k / N)] and [k] more blocks once the [k]-th
    block is appended, and progress 90 once the last one is; with three
    blocks the [progress] field of the task takes the values 5, 20, 20,
    50, 70, 90 and then 100 at completion. *)
Theorem streaming_progress (blocks : list BlockData) (now : nat -> Z)
    (t : FileTask) (k : nat) :
  (1 <= k <= List.length blocks)%nat ->
  progress (nth k (states (streaming blocks now) t) t)
  = 30 + (60 * Z.of_nat k) / Z.of_nat (List.length blocks)
  /\ List.length (translatedBlocks (nth k (states (streaming blocks now) t) t))
     = (List.length (translatedBlocks t) + k)%nat
  /\ progress (nth (List.length blocks) (states (streaming blocks now) t) t) = 90
  /\ (forall result b1 b2 b3 clock t0,
        progressTrace
          (processQueue_writes (onload (Some result))
             (Resolved (Some (mkResult (Some [b1; b2; b3])))) clock) t0
        = [progress t0; 5; 20; 20; 50; 70; 90; 100]).
Proof.
  intros [H1 Hk]. unfold streaming.
  assert (Hat : forall j, (1 <= j <= List.length blocks)%nat ->
            progress (nth j (states (streamFrom 0 (List.length blocks) blocks now) t) t)
            = 30 + (60 * Z.of_nat j) / Z.of_nat (List.length blocks)).
  { intros j [Hj1 Hj2].
    destruct (states_nth_stream (List.length blocks) now blocks 0 t j Hj2) as [_ Hp].
    rewrite Hp by exact Hj1. rewrite currentProgress_div by lia.
    do 3 f_equal. lia. }
  split; [| split; [| split]].
  - apply Hat. lia.
  - apply (states_nth_stream (List.length blocks) now blocks 0 t k Hk).
  - rewrite Hat by lia. rewrite Z.div_mul by lia. reflexivity.
  - intros result b1 b2 b3 clock t0. reflexivity.
Qed.

(** The amended C1 at the second of three blocks. *)
Lemma streaming_progress_second_of_three :
  progress (nth 2 (states (streaming threeBlocks sampleClock) f1) f1)
  = 30 + (60 * Z.of_nat 2) / Z.of_nat (List.length threeBlocks)
  /\ List.length (translatedBlocks (nth 2 (states (streaming threeBlocks sampleClock) f1) f1))
     = (List.length (translatedBlocks f1) + 2)%nat
  /\ progress (nth (List.length threeBlocks) (states (streaming threeBlocks sampleClock) f1) f1) = 90
  /\ (forall result b1 b2 b3 clock t0,
        progressTrace
          (processQueue_writes (onload (Some result))
             (Resolved (Some (mkResult (Some [b1; b2; b3])))) clock) t0
        = [progress t0; 5; 20; 20; 50; 70; 90; 100]).
Proof.
  apply (streaming_progress threeBlocks sampleClock f1 2).
  simpl. lia.
Defined.

(** C1, as stated, fails in its scenario: for three blocks the progress
    of [f1] runs through 0, 5, 20, 20, 50, 70, 90, 100, and 30 is not
    among these values. *)
Lemma progress_never_30_for_three_blocks :
  progressTrace (processQueue_writes (readable imageFile) answersThree sampleClock) f1
  = [0; 5; 20; 20; 50; 70; 90; 100]
  /\ existsb (Z.eqb 30)
       (progressTrace (processQueue_writes (readable imageFile) answersThree sampleClock) f1)
     = false.
Proof. split; reflexivity. Qed.

(** ** The failure update *)

(** C10. The update that marks a task as failed changes its status, its
    detailed status and its warnings only: the task keeps its progress and
    the blocks streamed so far, and every other task of the list is left
    as it is. *)
Theorem error_patch_frame (errorMessage : string) (t : FileTask) :
  id (applyPatch (PatchError errorMessage) t) = id t
  /\ name (applyPatch (PatchError errorMessage) t) = name t
  /\ file (applyPatch (PatchError errorMessage) t) = file t
  /\ previewUrl (applyPatch (PatchError errorMessage) t) = previewUrl t
  /\ progress (applyPatch (PatchError errorMessage) t) = progress t
  /\ totalPages (applyPatch (PatchError errorMessage) t) = totalPages t
  /\ processedPages (applyPatch (PatchError errorMessage) t) = processedPages t
  /\ translatedBlocks (applyPatch (PatchError errorMessage) t) = translatedBlocks t
  /\ targetLanguage (applyPatch (PatchError errorMessage) t) = targetLanguage t
  /\ status (applyPatch (PatchError errorMessage) t) = error
  /\ (forall tid prev,
        map progress (setTasks tid (PatchError errorMessage) prev) = map progress prev
        /\ map translatedBlocks (setTasks tid (PatchError errorMessage) prev)
           = map translatedBlocks prev
        /\ forall u, In u prev -> id u <> tid ->
                     In u (setTasks tid (PatchError errorMessage) prev)).
Proof.
  repeat (split; [reflexivity|]).
  intros tid prev. unfold setTasks. rewrite !map_map.
  split; [| split].
  - apply map_ext. intros u. destruct (String.eqb (id u) tid); reflexivity.
  - apply map_ext. intros u. destruct (String.eqb (id u) tid); reflexivity.
  - intros u Hu Hne. apply in_map_iff. exists u. split; [|exact Hu].
    destruct (String.eqb_spec (id u) tid); [contradiction | reflexivity].
Qed.

(** ** Lists of tasks under the updates *)

Lemma applyPatch_id (p : Patch) (t : FileTask) : id (applyPatch p t) = id t.
Proof. destruct p; reflexivity. Qed.

Lemma applyPatch_progress (p : Patch) (t : FileTask) :
  progress (applyPatch p t) = match written p with Some q => q | None => progress t end.
Proof. destruct p; reflexivity. Qed.

Lemma ids_setTasks (tid : string) (p : Patch) (ts : list FileTask) :
  ids (setTasks tid p ts) = ids ts.
Proof.
  unfold ids, setTasks. rewrite map_map. apply map_ext.
  intros t. destruct (String.eqb (id t) tid); [apply applyPatch_id | reflexivity].
Qed.

Lemma In_setTasks (tid : string) (p : Patch) (ts : list FileTask) (u : FileTask) :
  In u (setTasks tid p ts) ->
  exists t, In t ts /\ id t = id u
            /\ ((id t = tid /\ u = applyPatch p t) \/ (id t <> tid /\ u = t)).
Proof.
  unfold setTasks. intros H. apply in_map_iff in H as (t & <- & Ht).
  exists t. split; [exact Ht|].
  destruct (String.eqb_spec (id t) tid) as [E|E].
  - split; [now rewrite applyPatch_id | left; auto].
  - split; [reflexivity | right; auto].
Qed.

(** No update changes the list when no task has the id. *)
Lemma setTasks_absent (tid : string) (p : Patch) (ts : list FileTask) :
  ~ In tid (ids ts) -> setTasks tid p ts = ts.
Proof.
  unfold setTasks, ids. induction ts as [|t ts IH]; intros H; [reflexivity|].
  simpl in *. destruct (String.eqb_spec (id t) tid) as [E|E].
  - exfalso. apply H. now left.
  - f_equal. apply IH. intros Hin. apply H. now right.
Qed.

Lemma In_removeTask (tid : string) (ts : list FileTask) (u : FileTask) :
  In u (removeTask tid ts) <-> In u ts /\ id u <> tid.
Proof.
  unfold removeTask. rewrite filter_In. split; intros [H1 H2]; split; try exact H1.
  - destruct (String.eqb_spec (id u) tid); [discriminate | assumption].
  - destruct (String.eqb_spec (id u) tid); [contradiction | reflexivity].
Qed.

Lemma removed_id_absent (tid : string) (ts : list FileTask) :
  ~ In tid (ids (removeTask tid ts)).
Proof.
  unfold ids. intros H. apply in_map_iff in H as (u & Hu & Hin).
  apply In_removeTask in Hin as [_ Hne]. contradiction.
Qed.

Lemma NoDup_ids_removeTask (tid : string) (ts : list FileTask) :
  NoDup (ids ts) -> NoDup (ids (removeTask tid ts)).
Proof.
  unfold ids, removeTask. induction ts as [|t ts IH]; intros H; simpl; [constructor|].
  inversion H as [|? ? Hnot Hrest]; subst.
  destruct (negb (String.eqb (id t) tid)); simpl; [|now apply IH].
  constructor; [|now apply IH].
  intros Hin. apply Hnot. apply in_map_iff in Hin as (u & Hu & Hin).
  apply filter_In in Hin as [Hin _]. apply in_map_iff. eauto.
Qed.

(** With distinct ids, a listed task is determined by its id. *)
Lemma NoDup_ids_eq (ts : list FileTask) (t u : FileTask) :
  NoDup (ids ts) -> In t ts -> In u ts -> id t = id u -> t = u.
Proof.
  unfold ids. induction ts as [|x ts IH]; intros Hnd Ht Hu E; [contradiction|].
  simpl in Hnd. inversion Hnd as [|? ? Hnot Hrest]; subst.
  destruct Ht as [<-|Ht], Hu as [<-|Hu]; auto.
  - exfalso. apply Hnot. rewrite E. now apply in_map.
  - exfalso. apply Hnot. rewrite <- E. now apply in_map.
Qed.

Lemma processing_counted (ts : list FileTask) (t : FileTask) :
  In t ts -> is_processing t = true -> (1 <= processingCount ts)%nat.
Proof.
  intros Hin Hp. unfold processingCount.
  assert (H : In t (filter is_processing ts)) by (apply filter_In; auto).
  destruct (filter is_processing ts); [contradiction | simpl; lia].
Qed.

Lemma no_processing_count (ts : list FileTask) :
  existsb is_processing ts = false <-> processingCount ts = 0%nat.
Proof.
  unfold processingCount. induction ts as [|t ts IH]; simpl; [tauto|].
  destruct (is_processing t); simpl.
  - split; [discriminate | lia].
  - exact IH.
Qed.

(** At most one processing task: two listed processing tasks share their id. *)
Lemma single_processing (ts : list FileTask) (t u : FileTask) :
  (processingCount ts <= 1)%nat ->
  In t ts -> In u ts -> is_processing t = true -> is_processing u = true ->
  id t = id u.
Proof.
  unfold processingCount. induction ts as [|x ts IH]; intros Hc Ht Hu Pt Pu; [contradiction|].
  simpl in Hc. destruct Ht as [<-|Ht], Hu as [<-|Hu]; auto.
  - rewrite Pt in Hc. simpl in Hc.
    pose proof (processing_counted ts u Hu Pu). unfold processingCount in *. lia.
  - rewrite Pu in Hc. simpl in Hc.
    pose proof (processing_counted ts t Ht Pt). unfold processingCount in *. lia.
  - apply IH; auto. destruct (is_processing x); simpl in Hc; lia.
Qed.

Lemma processing_after_patch (p : Patch) (t : FileTask) :
  p <> PatchProcessing ->
  is_processing (applyPatch p t) = true -> is_processing t = true.
Proof. destruct p; simpl; intros Hp H; try exact H; try discriminate; congruence. Qed.

Lemma count_setTasks_quiet (tid : string) (p : Patch) (ts : list FileTask) :
  p <> PatchProcessing ->
  (processingCount (setTasks tid p ts) <= processingCount ts)%nat.
Proof.
  intros Hp. unfold processingCount, setTasks.
  induction ts as [|t ts IH]; simpl; [lia|].
  destruct (String.eqb (id t) tid).
  - destruct (is_processing (applyPatch p t)) eqn:E.
    + rewrite (processing_after_patch p t Hp E). simpl. lia.
    + destruct (is_processing t); simpl; lia.
  - destruct (is_processing t); simpl; lia.
Qed.

Lemma count_setTasks_start (tid : string) (ts : list FileTask) :
  NoDup (ids ts) -> processingCount ts = 0%nat ->
  (processingCount (setTasks tid PatchProcessing ts) <= 1)%nat.
Proof.
  induction ts as [|t ts IH]; intros Hnd Hc; [simpl; lia|].
  inversion Hnd as [|? ? Hnot Hrest]; subst.
  unfold processingCount in Hc. simpl in Hc.
  destruct (is_processing t) eqn:Pt; [discriminate|].
  unfold setTasks. cbn [map].
  destruct (String.eqb_spec (id t) tid) as [E|E].
  - fold (setTasks tid PatchProcessing ts).
    rewrite setTasks_absent by (rewrite <- E; exact Hnot).
    unfold processingCount. simpl. fold (processingCount ts).
    unfold processingCount. rewrite Hc. simpl. lia.
  - unfold processingCount. cbn [filter]. rewrite Pt.
    apply IH; assumption.
Qed.

(** ** The scripts of [processQueue] *)

Lemma script_ok_cons (p : Patch) (rest : list Patch) :
  script_ok (p :: rest) = true ->
  p <> PatchProcessing
  /\ script_ok rest = true
  /\ (rest <> [] -> forall t, status (applyPatch p t) = status t).
Proof.
  destruct p; simpl; intros H; try discriminate;
    try (split; [discriminate | split; [exact H | reflexivity]]);
    destruct rest; try discriminate;
    (split; [discriminate | split; [reflexivity | congruence]]).
Qed.

Lemma streaming_ok (totalBlocks : nat) (now : nat -> Z) (blocks : list BlockData) :
  forall i, script_ok (streamFrom i totalBlocks blocks now ++ [PatchCompleted]) = true.
Proof. induction blocks as [|b r IH]; intros i; simpl; [reflexivity | apply IH]. Qed.

Lemma processQueue_rest_ok (reader : ReaderEvent) (answer : AdapterAnswer) (now : nat -> Z) :
  script_ok (processQueue_rest reader answer now) = true.
Proof.
  unfold processQueue_rest.
  destruct (fileToBase64 reader); [|reflexivity].
  destruct answer as [[[[bs|]]|]|e]; try reflexivity.
  cbn [script_ok]. apply streaming_ok.
Qed.

Lemma streaming_mono (totalBlocks : nat) (now : nat -> Z) (blocks : list BlockData) :
  forall (i : nat) (q : Z),
    (i + List.length blocks = totalBlocks)%nat ->
    q <= 30 + (60 * Z.of_nat i) / Z.of_nat totalBlocks ->
    mono_from q (streamFrom i totalBlocks blocks now ++ [PatchCompleted]) = true.
Proof.
  induction blocks as [|b r IH]; intros i q Hlen Hq;
    cbn [streamFrom app mono_from written List.length] in *.
  - rewrite Nat.add_0_r in Hlen. subst i.
    destruct totalBlocks as [|n].
    + cbn in Hq. apply andb_true_iff. split; [apply Z.leb_le; lia | reflexivity].
    + rewrite Z.div_mul in Hq by lia.
      apply andb_true_iff. split; [apply Z.leb_le; lia | reflexivity].
  - assert (HN : (1 <= totalBlocks)%nat) by lia.
    rewrite currentProgress_div by exact HN.
    apply andb_true_iff. split.
    + apply Z.leb_le.
      assert ((60 * Z.of_nat i) / Z.of_nat totalBlocks
              <= (60 * (Z.of_nat i + 1)) / Z.of_nat totalBlocks)
        by (apply Z.div_le_mono; lia).
      lia.
    + apply IH; [lia|].
      replace (Z.of_nat (S i)) with (Z.of_nat i + 1) by lia. lia.
Qed.

Lemma processQueue_rest_mono (reader : ReaderEvent) (answer : AdapterAnswer) (now : nat -> Z) :
  mono_from 5 (processQueue_rest reader answer now) = true.
Proof.
  unfold processQueue_rest.
  destruct (fileToBase64 reader); [|reflexivity].
  destruct answer as [[[[bs|]]|]|e]; try reflexivity.
  cbn [mono_from written]. change (5 <=? 20)%Z with true. cbn [andb].
  unfold streaming. apply streaming_mono; [reflexivity|].
  cbn. lia.
Qed.

(** ** The invariant is kept by every transition *)

Lemma handleFilesSelected_app (lang : string) (picks : list (string * string * File))
    (prev : list FileTask) :
  handleFilesSelected lang picks prev = prev ++ map (newTask lang) picks.
Proof. destruct picks; simpl; [now rewrite app_nil_r | reflexivity]. Qed.

Lemma ids_newTasks (lang : string) (picks : list (string * string * File)) :
  ids (map (newTask lang) picks) = map pick_id picks.
Proof.
  unfold ids. rewrite map_map. apply map_ext. intros [[tid url] f]. reflexivity.
Qed.

Lemma newTask_fresh (lang : string) (picks : list (string * string * File)) (t : FileTask) :
  In t (map (newTask lang) picks) ->
  status t = pending /\ progress t = 0 /\ In (id t) (map pick_id picks).
Proof.
  intros H. apply in_map_iff in H as ([[tid url] f] & <- & Hin).
  repeat split. apply in_map_iff. exists (tid, url, f). auto.
Qed.

Lemma count_app (l1 l2 : list FileTask) :
  processingCount (l1 ++ l2) = (processingCount l1 + processingCount l2)%nat.
Proof. unfold processingCount. now rewrite filter_app, length_app. Qed.

Lemma count_newTasks (lang : string) (picks : list (string * string * File)) :
  processingCount (map (newTask lang) picks) = 0%nat.
Proof.
  unfold processingCount. induction picks as [|[[tid url] f] r IH]; [reflexivity|].
  simpl. exact IH.
Qed.

Lemma count_removeTask (tid : string) (ts : list FileTask) :
  (processingCount (removeTask tid ts) <= processingCount ts)%nat.
Proof.
  unfold processingCount, removeTask. induction ts as [|t ts IH]; simpl; [lia|].
  destruct (negb (String.eqb (id t) tid)); simpl; destruct (is_processing t); simpl; lia.
Qed.

Lemma pending_after_patch (p : Patch) (t : FileTask) :
  status (applyPatch p t) = pending -> status t = pending.
Proof. destruct p; simpl; intros H; try exact H; discriminate. Qed.

Lemma effect_Some (ts : list FileTask) (p : FileTask) :
  effect ts = Some p ->
  existsb is_processing ts = false /\ In p ts /\ status p = pending.
Proof.
  unfold effect. destruct (existsb is_processing ts); [discriminate|].
  intros H. apply find_some in H as [Hin Hp].
  repeat split; [exact Hin|].
  unfold is_pending in Hp. destruct (status p); try discriminate. reflexivity.
Qed.

Lemma Inv_initial : Inv initial.
Proof.
  constructor; cbn [initial tasks flights issued].
  - constructor.
  - intros x [].
  - intros f [].
  - constructor.
  - unfold processingCount. simpl. lia.
  - intros t [].
  - intros f [].
Qed.

Lemma Inv_files (a : App) (lang : string) (picks : list (string * string * File)) :
  Inv a ->
  NoDup (map pick_id picks) ->
  (forall x, In x (map pick_id picks) -> ~ In x (issued a)) ->
  Inv (afterFiles a lang picks).
Proof.
  intros [Hnd Hiss Htg Htn Hone Hpen Hfl] Hpk Hfresh.
  unfold afterFiles. rewrite handleFilesSelected_app.
  constructor; cbn [tasks flights issued].
  - unfold ids. rewrite map_app. fold (ids (tasks a)). fold (ids (map (newTask lang) picks)).
    rewrite ids_newTasks. apply NoDup_app; auto.
    intros x Hx Hy. apply (Hfresh x Hy). auto.
  - intros x. unfold ids. rewrite map_app. fold (ids (tasks a)).
    fold (ids (map (newTask lang) picks)). rewrite ids_newTasks.
    rewrite !in_app_iff. intros [H|H]; auto.
  - intros f Hf. apply in_app_iff. left. auto.
  - exact Htn.
  - rewrite count_app, count_newTasks. lia.
  - intros t Ht Hs. apply in_app_iff in Ht as [Ht|Ht]; [auto|].
    now apply newTask_fresh in Ht.
  - intros f Hf. destruct (Hfl f Hf) as [Hok Hall]. split; [exact Hok|].
    intros t Ht E. apply in_app_iff in Ht as [Ht|Ht]; [auto|].
    apply newTask_fresh in Ht as (_ & _ & Hin).
    exfalso. apply (Hfresh _ Hin). rewrite E. auto.
Qed.

Lemma Inv_remove (a : App) (tid : string) :
  Inv a -> Inv (afterRemove a tid).
Proof.
  intros [Hnd Hiss Htg Htn Hone Hpen Hfl]. unfold afterRemove.
  constructor; cbn [tasks flights issued]; auto.
  - now apply NoDup_ids_removeTask.
  - intros x Hx. apply Hiss. unfold ids in *.
    apply in_map_iff in Hx as (u & <- & Hu). apply In_removeTask in Hu as [Hu _].
    now apply in_map.
  - pose proof (count_removeTask tid (tasks a)). lia.
  - intros t Ht. apply In_removeTask in Ht as [Ht _]. auto.
  - intros f Hf. destruct (Hfl f Hf) as [Hok Hall]. split; [exact Hok|].
    intros t Ht. apply In_removeTask in Ht as [Ht _]. auto.
Qed.

Lemma no_flight_on_pending (a : App) (p : FileTask) (f : Flight) :
  Inv a -> In p (tasks a) -> status p = pending -> In f (flights a) ->
  target f <> id p.
Proof.
  intros HI Hp Hs Hf E. destruct (inv_flights a HI f Hf) as [_ Hall].
  destruct (Hall p Hp (eq_sym E)) as (_ & Hnp & _). contradiction.
Qed.

Lemma Inv_effect (a : App) (pendingTask : FileTask) (reader : ReaderEvent)
    (answer : AdapterAnswer) (now : nat -> Z) :
  Inv a ->
  effect (tasks a) = Some pendingTask ->
  Inv (afterEffect a pendingTask reader answer now).
Proof.
  intros HI He. pose proof HI as [Hnd Hiss Htg Htn Hone Hpen Hfl]. unfold afterEffect.
  apply effect_Some in He as (Hnone & Hin & Hs).
  constructor; cbn [tasks flights issued].
  - now rewrite ids_setTasks.
  - rewrite ids_setTasks. exact Hiss.
  - intros f [<-|Hf]; [|auto]. cbn [target]. apply Hiss. unfold ids. now apply in_map.
  - cbn [map target]. constructor; [|exact Htn].
    intros Hx. apply in_map_iff in Hx as (f & E & Hf).
    now apply (no_flight_on_pending a pendingTask f HI Hin Hs Hf).
  - apply count_setTasks_start; [exact Hnd|]. now apply no_processing_count.
  - intros u Hu Hus. apply In_setTasks in Hu as (t & Ht & _ & [[_ ->]|[_ ->]]).
    + discriminate.
    + auto.
  - intros f [<-|Hf].
    + split; [apply processQueue_rest_ok|]. cbn [target script].
      intros u Hu E. apply In_setTasks in Hu as (t & Ht & Eid & [[_ ->]|[Hne ->]]).
      * cbn [applyPatch progress status]. split; [apply processQueue_rest_mono|].
        split; [discriminate | reflexivity].
      * contradiction.
    + destruct (Hfl f Hf) as [Hok Hall]. split; [exact Hok|].
      intros u Hu E. apply In_setTasks in Hu as (t & Ht & Eid & [[Et ->]|[Hne ->]]).
      * exfalso. apply (no_flight_on_pending a pendingTask f HI Hin Hs Hf).
        rewrite <- E, applyPatch_id. exact Et.
      * auto.
Qed.

Lemma other_flight_target (fs1 fs2 : list Flight) (f0 f : Flight) :
  NoDup (map target (fs1 ++ f0 :: fs2)) ->
  In f fs1 \/ In f fs2 -> target f <> target f0.
Proof.
  rewrite map_app. cbn [map]. intros Hnd Hin E.
  apply NoDup_remove_2 in Hnd. apply Hnd. rewrite <- E.
  apply in_app_iff. destruct Hin as [H|H]; [left | right]; now apply in_map.
Qed.

Lemma mono_from_step (p : Patch) (rest : list Patch) (t : FileTask) :
  mono_from (progress t) (p :: rest) = true ->
  progress t <= progress (applyPatch p t)
  /\ mono_from (progress (applyPatch p t)) rest = true.
Proof.
  rewrite applyPatch_progress. cbn [mono_from].
  destruct (written p) as [q|].
  - intros H. apply andb_true_iff in H as [H1 H2]. apply Z.leb_le in H1. auto.
  - intros H. split; [lia | exact H].
Qed.

Lemma Inv_write (a : App) (before after : list Flight) (tid : string)
    (p : Patch) (rest : list Patch) :
  Inv a ->
  flights a = before ++ mkFlight tid (p :: rest) :: after ->
  Inv (afterWrite a before tid p rest after).
Proof.
  intros HI Hfs. pose proof HI as [Hnd Hiss Htg Htn Hone Hpen Hfl]. unfold afterWrite.
  assert (Hf0 : In (mkFlight tid (p :: rest)) (flights a)).
  { rewrite Hfs. apply in_app_iff. right. now left. }
  destruct (Hfl _ Hf0) as [Hok0 Hall0]. cbn [script target] in Hok0, Hall0.
  apply script_ok_cons in Hok0 as (Hquiet & Hokr & Hkeep).
  constructor; cbn [tasks flights issued].
  - now rewrite ids_setTasks.
  - rewrite ids_setTasks. exact Hiss.
  - intros f Hf. apply in_app_iff in Hf as [Hf|[<-|Hf]].
    + apply Htg. rewrite Hfs. apply in_app_iff. now left.
    + apply (Htg _ Hf0).
    + apply Htg. rewrite Hfs. apply in_app_iff. right. now right.
  - rewrite Hfs in Htn. rewrite map_app in *. exact Htn.
  - pose proof (count_setTasks_quiet tid p (tasks a) Hquiet). lia.
  - intros u Hu Hus. apply In_setTasks in Hu as (t & Ht & _ & [[Et ->]|[_ ->]]).
    + apply pending_after_patch in Hus.
      destruct (Hall0 t Ht Et) as (_ & Hnp & _). contradiction.
    + auto.
  - intros f Hf. apply in_app_iff in Hf as [Hf|[<-|Hf]].
    + assert (Hne : target f <> tid).
      { apply (other_flight_target before after (mkFlight tid (p :: rest)) f).
        - rewrite <- Hfs. exact Htn.
        - now left. }
      assert (Hfa : In f (flights a)) by (rewrite Hfs; apply in_app_iff; now left).
      destruct (Hfl f Hfa) as [Hok Hall]. split; [exact Hok|].
      intros u Hu E. apply In_setTasks in Hu as (t & Ht & Eid & [[Et ->]|[_ ->]]).
      * exfalso. apply Hne. rewrite <- E, applyPatch_id. exact Et.
      * auto.
    + split; [exact Hokr|]. cbn [script target].
      intros u Hu E. apply In_setTasks in Hu as (t & Ht & Eid & [[Et ->]|[Hne ->]]).
      * destruct (Hall0 t Ht Et) as (Hm & Hnp & Hpr).
        apply mono_from_step in Hm as [_ Hm].
        split; [exact Hm|]. split.
        -- intros Hs. apply pending_after_patch in Hs. contradiction.
        -- intros Hr. rewrite (Hkeep Hr). apply Hpr. discriminate.
      * contradiction.
    + assert (Hne : target f <> tid).
      { apply (other_flight_target before after (mkFlight tid (p :: rest)) f).
        - rewrite <- Hfs. exact Htn.
        - now right. }
      assert (Hfa : In f (flights a)).
      { rewrite Hfs. apply in_app_iff. right. now right. }
      destruct (Hfl f Hfa) as [Hok Hall]. split; [exact Hok|].
      intros u Hu E. apply In_setTasks in Hu as (t & Ht & Eid & [[Et ->]|[_ ->]]).
      * exfalso. apply Hne. rewrite <- E, applyPatch_id. exact Et.
      * auto.
Qed.

Lemma Inv_step (a a' : App) : Inv a -> step a a' -> Inv a'.
Proof.
  intros HI Hs. destruct Hs.
  - now apply Inv_files.
  - now apply Inv_remove.
  - now apply Inv_effect.
  - now apply Inv_write.
Qed.

Lemma reachable_Inv (a : App) : reachable a -> Inv a.
Proof.
  unfold reachable. induction 1 as [|b c Hstep Hreach IH].
  - apply Inv_initial.
  - now apply (Inv_step b c).
Qed.

(** ** Sample runs *)

Lemma reachable_step (a a' : App) : reachable a -> step a a' -> reachable a'.
Proof. intros Ha Hs. unfold reachable in *. econstructor; eassumption. Qed.

Lemma step_resume (a : App) (tid : string) (p : Patch) (rest : list Patch)
    (after : list Flight) :
  flights a = mkFlight tid (p :: rest) :: after -> step a (resume a).
Proof.
  intros H. unfold resume. rewrite H.
  apply (step_write a [] tid p rest after). exact H.
Qed.

Lemma reachable_twoFiles : reachable twoFiles.
Proof.
  apply (reachable_step initial); [constructor|].
  apply (step_files initial "zh-CN" [("f1", "blob:f1", imageFile); ("f2", "blob:f2", imageFile)]).
  - repeat constructor; simpl; intuition discriminate.
  - intros x _ [].
Qed.

Lemma reachable_started (reader : ReaderEvent) (answer : AdapterAnswer) :
  reachable (started reader answer).
Proof.
  apply (reachable_step twoFiles); [apply reachable_twoFiles|].
  apply (step_effect twoFiles f1 reader answer sampleClock). reflexivity.
Qed.

(** ** Admission control *)

(** C2. In every reachable state at most one task is ['processing'], and
    the effect starts a task only when none is: the task it starts is a
    listed pending task. *)
Theorem at_most_one_processing (a : App) :
  reachable a ->
  (processingCount (tasks a) <= 1)%nat
  /\ (forall pendingTask,
        effect (tasks a) = Some pendingTask ->
        existsb is_processing (tasks a) = false
        /\ In pendingTask (tasks a)
        /\ status pendingTask = pending).
Proof.
  intros Hr. split.
  - apply (inv_single a (reachable_Inv a Hr)).
  - intros p. apply effect_Some.
Qed.

(** C2 in the state where [f1] was started and [f2] waits. *)
Lemma at_most_one_processing_started :
  (processingCount (tasks (started (readable imageFile) answersThree)) <= 1)%nat
  /\ (forall pendingTask,
        effect (tasks (started (readable imageFile) answersThree)) = Some pendingTask ->
        existsb is_processing (tasks (started (readable imageFile) answersThree)) = false
        /\ In pendingTask (tasks (started (readable imageFile) answersThree))
        /\ status pendingTask = pending).
Proof.
  apply (at_most_one_processing (started (readable imageFile) answersThree)).
  apply reachable_started.
Defined.

(** ** Progress never decreases *)

(** C6. Along every transition of a reachable state, a task that stays
    listed does not lose progress; a new task starts at 0, the updates of
    one [processQueue] run write non-decreasing values from there, and the
    failure update leaves the progress as it is. *)
Theorem progress_monotone (a a' : App) :
  reachable a -> step a a' ->
  (forall t t', In t (tasks a) -> In t' (tasks a') -> id t = id t' ->
                progress t <= progress t')
  /\ (forall lang pick, progress (newTask lang pick) = 0)
  /\ (forall reader answer now, mono_from 0 (processQueue_writes reader answer now) = true)
  /\ (forall msg t, progress (applyPatch (PatchError msg) t) = progress t).
Proof.
  intros Hr Hs. pose proof (reachable_Inv a Hr) as HI.
  pose proof HI as [Hnd Hiss Htg Htn Hone Hpen Hfl].
  split; [| split; [| split]].
  - intros t t' Ht Ht' E. destruct Hs as [a lang picks Hpk Hfresh|a tid|a p reader answer now He
                                         |a before tid p rest after Hfs];
      unfold afterFiles, afterRemove, afterEffect, afterWrite in Ht'; cbn [tasks] in Ht'.
    + rewrite handleFilesSelected_app in Ht'. apply in_app_iff in Ht' as [Ht'|Ht'].
      * rewrite (NoDup_ids_eq (tasks a) t t' Hnd Ht Ht' E). lia.
      * apply newTask_fresh in Ht' as (_ & _ & Hin). exfalso.
        apply (Hfresh _ Hin). apply Hiss. rewrite <- E. unfold ids. now apply in_map.
    + apply In_removeTask in Ht' as [Ht' _].
      rewrite (NoDup_ids_eq (tasks a) t t' Hnd Ht Ht' E). lia.
    + apply effect_Some in He as (_ & Hp & Hsp).
      apply In_setTasks in Ht' as (u & Hu & Eu & [[Eid ->]|[_ ->]]).
      * assert (u = p) by (apply (NoDup_ids_eq (tasks a)); auto).
        assert (t = u) by (apply (NoDup_ids_eq (tasks a)); auto; congruence).
        subst. rewrite (Hpen p Hp Hsp). simpl. lia.
      * rewrite (NoDup_ids_eq (tasks a) t u Hnd Ht Hu) by congruence. lia.
    + apply In_setTasks in Ht' as (u & Hu & Eu & [[Eid ->]|[_ ->]]).
      * assert (t = u) by (apply (NoDup_ids_eq (tasks a)); auto; congruence).
        subst u.
        assert (Hf0 : In (mkFlight tid (p :: rest)) (flights a)).
        { rewrite Hfs. apply in_app_iff. right. now left. }
        destruct (Hfl _ Hf0) as [_ Hall]. destruct (Hall t Ht Eid) as (Hm & _).
        now apply mono_from_step in Hm as [Hle _].
      * rewrite (NoDup_ids_eq (tasks a) t u Hnd Ht Hu) by congruence. lia.
  - intros lang [[tid url] f]. reflexivity.
  - intros reader answer now. unfold processQueue_writes. cbn [mono_from written].
    change (0 <=? 5)%Z with true. cbn [andb]. apply processQueue_rest_mono.
  - intros msg t. reflexivity.
Qed.

(** C6 on the step in which the run of [f1] writes progress 20. *)
Lemma progress_monotone_extracting :
  (forall t t',
      In t (tasks (started (readable imageFile) answersThree)) ->
      In t' (tasks (resume (started (readable imageFile) answersThree))) ->
      id t = id t' -> progress t <= progress t')
  /\ (forall lang pick, progress (newTask lang pick) = 0)
  /\ (forall reader answer now, mono_from 0 (processQueue_writes reader answer now) = true)
  /\ (forall msg t, progress (applyPatch (PatchError msg) t) = progress t).
Proof.
  apply (progress_monotone (started (readable imageFile) answersThree)
           (resume (started (readable imageFile) answersThree))).
  - apply reachable_started.
  - eapply step_resume. reflexivity.
Defined.

Lemma getTask_setTasks (p : Patch) (ts : list FileTask) (t : FileTask) :
  NoDup (ids ts) -> In t ts ->
  getTask (id t) (setTasks (id t) p ts) = Some (applyPatch p t).
Proof.
  unfold getTask, setTasks. induction ts as [|x ts IH]; intros Hnd Hin; [contradiction|].
  cbn [map find]. destruct (String.eqb_spec (id x) (id t)) as [E|E].
  - rewrite applyPatch_id, E, String.eqb_refl.
    now rewrite (NoDup_ids_eq (x :: ts) x t Hnd (or_introl eq_refl) Hin E).
  - apply String.eqb_neq in E. rewrite E.
    inversion Hnd; subst. destruct Hin as [->|Hin].
    + now rewrite String.eqb_refl in E.
    + now apply IH.
Qed.

(** ** Failure isolation and cancellation *)

Lemma is_pending_status (t : FileTask) : is_pending t = true <-> status t = pending.
Proof. unfold is_pending. destruct (status t); simpl; split; congruence. Qed.

Lemma is_processing_status (t : FileTask) : is_processing t = true <-> status t = processing.
Proof. unfold is_processing. destruct (status t); simpl; split; congruence. Qed.

(** An update of a started task does not change which task waits first. *)
Lemma find_pending_setTasks (tid : string) (p : Patch) (ts : list FileTask) :
  (forall t, In t ts -> id t = tid -> status t <> pending) ->
  find is_pending (setTasks tid p ts) = find is_pending ts.
Proof.
  unfold setTasks. induction ts as [|t ts IH]; intros H; [reflexivity|].
  cbn [map find]. destruct (String.eqb_spec (id t) tid) as [E|E].
  - assert (Hn : status t <> pending) by (apply H; [now left | exact E]).
    assert (H1 : is_pending t = false).
    { destruct (is_pending t) eqn:P; [|reflexivity]. apply is_pending_status in P. contradiction. }
    assert (H2 : is_pending (applyPatch p t) = false).
    { destruct (is_pending (applyPatch p t)) eqn:P; [|reflexivity].
      apply is_pending_status, pending_after_patch in P. contradiction. }
    rewrite H1, H2. apply IH. intros u Hu. apply H. now right.
  - destruct (is_pending t); [reflexivity|]. apply IH. intros u Hu. apply H. now right.
Qed.

Lemma find_pending_removeTask (tid : string) (ts : list FileTask) :
  (forall t, In t ts -> id t = tid -> status t <> pending) ->
  find is_pending (removeTask tid ts) = find is_pending ts.
Proof.
  unfold removeTask. induction ts as [|t ts IH]; intros H; [reflexivity|].
  cbn [filter find]. destruct (String.eqb_spec (id t) tid) as [E|E]; cbn [negb].
  - assert (Hn : status t <> pending) by (apply H; [now left | exact E]).
    destruct (is_pending t) eqn:P; [apply is_pending_status in P; contradiction|].
    apply IH. intros u Hu. apply H. now right.
  - cbn [find]. destruct (is_pending t); [reflexivity|].
    apply IH. intros u Hu. apply H. now right.
Qed.

(** Once the one processing task has left that status or the list, no
    task is processing. *)
Lemma slot_released (ts ts' : list FileTask) (t : FileTask) :
  (processingCount ts <= 1)%nat ->
  In t ts -> status t = processing ->
  (forall u', In u' ts' -> is_processing u' = true ->
              exists u, In u ts /\ is_processing u = true /\ id u <> id t) ->
  existsb is_processing ts' = false.
Proof.
  intros Hc Ht Hs Hsrc.
  destruct (existsb is_processing ts') eqn:E; [|reflexivity].
  apply existsb_exists in E as (u' & Hu' & Pu').
  destruct (Hsrc u' Hu' Pu') as (u & Hu & Pu & Hne).
  exfalso. apply Hne. symmetry.
  apply (single_processing ts t u Hc Ht Hu); [|exact Pu].
  now apply is_processing_status.
Qed.

Lemma effect_idle (ts : list FileTask) :
  existsb is_processing ts = false -> effect ts = find is_pending ts.
Proof. unfold effect. now intros ->. Qed.

(** C7. When [fileToBase64] has resolved and the adapter call rejects, or
    resolves without a block list, what remains of the run is one failure
    update with one message.  When a run makes that update on its listed
    task, the task gets status ['error'] and exactly that one warning; no
    task is processing afterwards, so the effect runs [processQueue]
    again, and the pending task that was first in line is started. *)
Theorem failure_isolation (a : App) (before after : list Flight)
    (t : FileTask) (msg : string) :
  reachable a ->
  flights a = before ++ mkFlight (id t) [PatchError msg] :: after ->
  In t (tasks a) ->
  step a (afterWrite a before (id t) (PatchError msg) [] after)
  /\ getTask (id t) (tasks (afterWrite a before (id t) (PatchError msg) [] after))
     = Some (applyPatch (PatchError msg) t)
  /\ status (applyPatch (PatchError msg) t) = error
  /\ warnings (applyPatch (PatchError msg) t) = [msg]
  /\ List.length (warnings (applyPatch (PatchError msg) t)) = 1%nat
  /\ existsb is_processing (tasks (afterWrite a before (id t) (PatchError msg) [] after)) = false
  /\ effect (tasks (afterWrite a before (id t) (PatchError msg) [] after))
     = find is_pending (tasks a)
  /\ (forall next reader answer now,
        find is_pending (tasks a) = Some next ->
        step (afterWrite a before (id t) (PatchError msg) [] after)
             (afterEffect (afterWrite a before (id t) (PatchError msg) [] after)
                          next reader answer now)
        /\ getTask (id next)
             (tasks (afterEffect (afterWrite a before (id t) (PatchError msg) [] after)
                                 next reader answer now))
           = Some (applyPatch PatchProcessing next))
  /\ (forall result e now,
        processQueue_rest (onload (Some result)) (Rejected e) now
        = [PatchExtracting; PatchError (errorMessage e)])
  /\ (forall result now,
        processQueue_rest (onload (Some result)) (Resolved (Some (mkResult None))) now
        = [PatchExtracting; PatchError "Invalid response format from Analysis Engine"]
        /\ processQueue_rest (onload (Some result)) (Resolved None) now
           = [PatchExtracting; PatchError "Invalid response format from Analysis Engine"]).
Proof.
  intros Hr Hfs Ht. pose proof (reachable_Inv a Hr) as HI.
  pose proof HI as [Hnd Hiss Htg Htn Hone Hpen Hfl].
  assert (Hf0 : In (mkFlight (id t) [PatchError msg]) (flights a)).
  { rewrite Hfs. apply in_app_iff. right. now left. }
  destruct (Hfl _ Hf0) as [_ Hall]. cbn [script target] in Hall.
  destruct (Hall t Ht eq_refl) as (_ & Hnp & Hproc).
  assert (Hst : status t = processing) by (apply Hproc; discriminate).
  assert (Hstep : step a (afterWrite a before (id t) (PatchError msg) [] after)).
  { apply (step_write a before (id t) (PatchError msg) [] after Hfs). }
  pose proof (Inv_step _ _ HI Hstep) as HI'.
  assert (Hidle : existsb is_processing
                    (tasks (afterWrite a before (id t) (PatchError msg) [] after)) = false).
  { apply (slot_released (tasks a) _ t Hone Ht Hst).
    intros u' Hu' Pu'. cbn [afterWrite tasks] in Hu'.
    apply In_setTasks in Hu' as (u & Hu & _ & [[_ ->]|[Hne ->]]).
    - discriminate.
    - exists u. auto. }
  assert (Hfind : find is_pending (tasks (afterWrite a before (id t) (PatchError msg) [] after))
                  = find is_pending (tasks a)).
  { cbn [afterWrite tasks]. apply find_pending_setTasks.
    intros u Hu E. rewrite (NoDup_ids_eq (tasks a) u t Hnd Hu Ht E). exact Hnp. }
  split; [exact Hstep|].
  split; [cbn [afterWrite tasks]; now apply getTask_setTasks|].
  split; [reflexivity|]. split; [reflexivity|]. split; [reflexivity|].
  split; [exact Hidle|].
  split; [rewrite <- Hfind; now apply effect_idle|].
  split; [| split; [reflexivity | split; reflexivity]].
  intros next reader answer now Hnext.
  assert (He : effect (tasks (afterWrite a before (id t) (PatchError msg) [] after)) = Some next).
  { rewrite effect_idle by exact Hidle. now rewrite Hfind. }
  split.
  - apply (step_effect _ next reader answer now He).
  - cbn [afterEffect tasks]. apply getTask_setTasks.
    + apply (inv_nodup _ HI').
    + now apply effect_Some in He as (_ & Hin & _).
Qed.

Lemma reachable_failing : reachable failing.
Proof.
  apply (reachable_step (started (readable imageFile) networkError)).
  - apply reachable_started.
  - eapply step_resume. reflexivity.
Qed.

(** C7 in the scenario of the specification: the adapter call of [f1]
    rejects with a network error, [f1] fails with one warning and [f2] is
    the task the effect starts next. *)
Lemma failure_isolation_network_error :
  step failing failed
  /\ getTask "f1" (tasks failed) = Some (applyPatch (PatchError "Failed to fetch") f1_extracting)
  /\ List.length (warnings (applyPatch (PatchError "Failed to fetch") f1_extracting)) = 1%nat
  /\ effect (tasks failed) = Some f2.
Proof.
  destruct (failure_isolation failing [] [] f1_extracting "Failed to fetch")
    as (H1 & H2 & _ & _ & H5 & _ & H7 & _).
  - apply reachable_failing.
  - reflexivity.
  - left. reflexivity.
  - split; [exact H1|]. split; [exact H2|]. split; [exact H5 | exact H7].
Defined.

(** An id that was issued and is no longer listed stays away. *)
Lemma absent_step (a a' : App) (x : string) :
  step a a' ->
  In x (issued a) -> ~ In x (ids (tasks a)) ->
  In x (issued a') /\ ~ In x (ids (tasks a')).
Proof.
  intros Hs Hi Hn. destruct Hs as [a lang picks Hpk Hfresh|a tid|a p reader answer now He
                                  |a before tid p rest after Hfs];
    unfold afterFiles, afterRemove, afterEffect, afterWrite; cbn [tasks issued].
  - split; [apply in_app_iff; now left|].
    rewrite handleFilesSelected_app. unfold ids. rewrite map_app.
    fold (ids (tasks a)). fold (ids (map (newTask lang) picks)). rewrite ids_newTasks.
    intros H. apply in_app_iff in H as [H|H]; [contradiction|].
    now apply (Hfresh x H).
  - split; [exact Hi|]. intros H. apply Hn. unfold ids in *.
    apply in_map_iff in H as (u & <- & Hu). apply In_removeTask in Hu as [Hu _].
    now apply in_map.
  - split; [exact Hi|]. now rewrite ids_setTasks.
  - split; [exact Hi|]. now rewrite ids_setTasks.
Qed.

Lemma absent_forever (a a' : App) (x : string) :
  clos_refl_trans_n1 App step a a' ->
  In x (issued a) -> ~ In x (ids (tasks a)) ->
  In x (issued a') /\ ~ In x (ids (tasks a')).
Proof.
  intros Hs Hi Hn. induction Hs as [|b c Hstep Hrt IH]; [auto|].
  destruct IH as [Hi' Hn']. now apply (absent_step b c).
Qed.

(** C8. Removing the task that is processing frees the slot: no task is
    processing in the next state, so the effect starts the first pending
    task, if there is one.  From then on the removed id is never listed
    again, whatever happens, and every update that the abandoned run
    still makes under that id leaves the task list as it is. *)
Theorem removal_releases_slot (a : App) (t : FileTask) :
  reachable a -> In t (tasks a) -> status t = processing ->
  step a (afterRemove a (id t))
  /\ existsb is_processing (tasks (afterRemove a (id t))) = false
  /\ effect (tasks (afterRemove a (id t))) = find is_pending (tasks a)
  /\ (forall next reader answer now,
        find is_pending (tasks a) = Some next ->
        step (afterRemove a (id t)) (afterEffect (afterRemove a (id t)) next reader answer now)
        /\ getTask (id next) (tasks (afterEffect (afterRemove a (id t)) next reader answer now))
           = Some (applyPatch PatchProcessing next))
  /\ (forall a', clos_refl_trans_n1 App step (afterRemove a (id t)) a' ->
        getTask (id t) (tasks a') = None
        /\ forall p, setTasks (id t) p (tasks a') = tasks a').
Proof.
  intros Hr Ht Hst. pose proof (reachable_Inv a Hr) as HI.
  pose proof HI as [Hnd Hiss Htg Htn Hone Hpen Hfl].
  assert (Hstep : step a (afterRemove a (id t))) by apply step_remove.
  pose proof (Inv_step _ _ HI Hstep) as HI'.
  assert (Hidle : existsb is_processing (tasks (afterRemove a (id t))) = false).
  { apply (slot_released (tasks a) _ t Hone Ht Hst).
    intros u' Hu' Pu'. cbn [afterRemove tasks] in Hu'.
    apply In_removeTask in Hu' as [Hu' Hne]. exists u'. auto. }
  assert (Hfind : find is_pending (tasks (afterRemove a (id t))) = find is_pending (tasks a)).
  { cbn [afterRemove tasks]. apply find_pending_removeTask.
    intros u Hu E. rewrite (NoDup_ids_eq (tasks a) u t Hnd Hu Ht E), Hst. discriminate. }
  split; [exact Hstep|]. split; [exact Hidle|].
  split; [rewrite <- Hfind; now apply effect_idle|].
  split.
  - intros next reader answer now Hnext.
    assert (He : effect (tasks (afterRemove a (id t))) = Some next).
    { rewrite effect_idle by exact Hidle. now rewrite Hfind. }
    split.
    + apply (step_effect _ next reader answer now He).
    + cbn [afterEffect tasks]. apply getTask_setTasks.
      * apply (inv_nodup _ HI').
      * now apply effect_Some in He as (_ & Hin & _).
  - intros a' Hrt.
    destruct (absent_forever (afterRemove a (id t)) a' (id t) Hrt) as [_ Habs].
    + cbn [afterRemove issued]. apply Hiss. unfold ids. now apply in_map.
    + cbn [afterRemove tasks]. apply removed_id_absent.
    + split.
      * unfold getTask. destruct (find _ (tasks a')) as [u|] eqn:E; [|reflexivity].
        apply find_some in E as [Hu Eu]. apply String.eqb_eq in Eu.
        exfalso. apply Habs. rewrite <- Eu. unfold ids. now apply in_map.
      * intros p. now apply setTasks_absent.
Qed.

(** C8 in the scenario of the specification: [f1] is removed while it is
    being analysed; [f2] is what the effect starts next, and the updates
    of the abandoned run leave [f2] alone in the list. *)
Lemma removal_releases_slot_f1 :
  step (started (readable imageFile) answersThree) cancelled
  /\ effect (tasks cancelled) = Some f2
  /\ getTask "f1" (tasks cancelled_later) = None
  /\ setTasks "f1" PatchCompleted (tasks cancelled_later) = tasks cancelled_later.
Proof.
  destruct (removal_releases_slot (started (readable imageFile) answersThree) f1_started)
    as (H1 & _ & H3 & _ & H5).
  - apply reachable_started.
  - left. reflexivity.
  - reflexivity.
  - split; [exact H1|]. split; [exact H3|].
    destruct (H5 cancelled_later) as [H6 H7].
    + apply (Relation_Operators.rtn1_trans _ _ _ (resume cancelled)).
      * eapply step_resume. reflexivity.
      * apply (Relation_Operators.rtn1_trans _ _ _ cancelled).
        -- eapply step_resume. reflexivity.
        -- apply Relation_Operators.rtn1_refl.
    + split; [exact H6 | exact (H7 PatchCompleted)].
Defined.

(** ** What the scheduler sends to the adapter *)

Lemma append_assoc (s1 s2 s3 : string) : ((s1 ++ s2) ++ s3 = s1 ++ (s2 ++ s3))%string.
Proof. induction s1 as [|c s1 IH]; simpl; [reflexivity | now rewrite IH]. Qed.

Lemma comma_free_app (s1 s2 : string) :
  comma_free (s1 ++ s2)%string = comma_free s1 && comma_free s2.
Proof.
  induction s1 as [|c s1 IH]; simpl; [reflexivity|].
  rewrite IH. now rewrite andb_assoc.
Qed.

Lemma split_acc_free (cur s : string) :
  comma_free s = true -> split_acc ","%char cur s = [(cur ++ s)%string].
Proof.
  revert cur. induction s as [|c s IH]; intros cur H; simpl in *.
  - replace (cur ++ "")%string with cur; [reflexivity|].
    clear. induction cur as [|d cur IHc]; simpl; [reflexivity | now rewrite <- IHc].
  - apply andb_true_iff in H as [Hc Hs]. apply negb_true_iff in Hc. rewrite Hc.
    rewrite IH by exact Hs. now rewrite append_assoc.
Qed.

Lemma split_acc_comma (cur s1 s2 : string) :
  comma_free s1 = true ->
  split_acc ","%char cur (s1 ++ String ","%char s2)%string
  = (cur ++ s1)%string :: split_acc ","%char EmptyString s2.
Proof.
  revert cur. induction s1 as [|c s1 IH]; intros cur H; simpl in *.
  - replace (cur ++ "")%string with cur; [reflexivity|].
    clear. induction cur as [|d cur IHc]; simpl; [reflexivity | now rewrite <- IHc].
  - apply andb_true_iff in H as [Hc Hs]. apply negb_true_iff in Hc. rewrite Hc.
    rewrite IH by exact Hs. now rewrite append_assoc.
Qed.

Lemma b64_char_no_comma (n : N) : Ascii.eqb (b64_char n) ","%char = false.
Proof.
  assert (Hne : forall m, (m < 256)%N -> m <> 44%N ->
                          Ascii.eqb (ascii_of_N m) ","%char = false).
  { intros m Hm Hd. apply Ascii.eqb_neq. intros E.
    apply (f_equal N_of_ascii) in E. rewrite N_ascii_embedding in E by exact Hm.
    apply Hd. exact E. }
  unfold b64_char.
  destruct (N.ltb_spec n 26); [apply Hne; lia|].
  destruct (N.ltb_spec n 52); [apply Hne; lia|].
  destruct (N.ltb_spec n 62); [apply Hne; lia|].
  destruct (n =? 62)%N; reflexivity.
Qed.

Lemma base64_comma_free (bs : list byte) : comma_free (base64 bs) = true.
Proof.
  assert (H : comma_free (base64 bs) = true
              /\ (forall a, comma_free (base64 (a :: bs)) = true)
              /\ (forall a b, comma_free (base64 (a :: b :: bs)) = true)).
  { induction bs as [|c bs (H0 & H1 & H2)].
    - split; [reflexivity|]. split; intros; cbn [base64 comma_free];
        rewrite ?b64_char_no_comma; reflexivity.
    - split; [apply H1|]. split; [intros a; apply H2|].
      intros a b. cbn [base64 comma_free]. rewrite !b64_char_no_comma. exact H0. }
  apply H.
Qed.

Lemma fileToBase64_readable (f : File) :
  comma_free (file_type f) = true ->
  fileToBase64 (readable f) = Resolved (Some (base64 (file_bytes f))).
Proof.
  intros Hty. unfold readable, fileToBase64, dataURL, split.
  replace ("data:" ++ file_type f ++ ";base64," ++ base64 (file_bytes f))%string
    with (("data:" ++ file_type f ++ ";base64") ++ String ","%char (base64 (file_bytes f)))%string.
  - rewrite split_acc_comma.
    + rewrite split_acc_free by apply base64_comma_free. reflexivity.
    + rewrite !comma_free_app, Hty. reflexivity.
  - rewrite !append_assoc. reflexivity.
Qed.

(** C9, as amended.  For every task whose file is readable, a PDF or an
    image, [processQueue] calls the adapter with the base64 text of the
    bytes of the file itself and with the MIME type of the file; the
    preview renderer has no part in it.  For a file that is not a PDF
    these are also the bytes that the preview shows. *)
Theorem adapter_receives_file_bytes (TARGET_LANG_OPTIONS : list (string * string))
    (task : FileTask) :
  comma_free (file_type (file task)) = true ->
  schedulerPageImage task = Resolved (Some (base64 (file_bytes (file task))))
  /\ processQueue_request TARGET_LANG_OPTIONS task (readable (file task))
     = Some {| req_base64 := Some (base64 (file_bytes (file task)));
               req_mimeType := file_type (file task);
               req_targetLang := targetLabel TARGET_LANG_OPTIONS (targetLanguage task) |}
  /\ (forall rasterize,
        String.eqb (file_type (file task)) "application/pdf" = false ->
        spec_pageImage rasterize task = Some (base64 (file_bytes (file task)))).
Proof.
  intros Hty. split; [| split].
  - now apply fileToBase64_readable.
  - unfold processQueue_request. rewrite fileToBase64_readable by exact Hty. reflexivity.
  - intros rasterize Hpdf. unfold spec_pageImage, loadPreview. rewrite Hpdf. reflexivity.
Qed.

(** The amended C9 at the sample PDF. *)
Lemma adapter_receives_pdf_bytes :
  schedulerPageImage pdfTask = Resolved (Some (base64 (file_bytes (file pdfTask))))
  /\ processQueue_request [("zh-CN", "Chinese")] pdfTask (readable (file pdfTask))
     = Some {| req_base64 := Some (base64 (file_bytes (file pdfTask)));
               req_mimeType := file_type (file pdfTask);
               req_targetLang := targetLabel [("zh-CN", "Chinese")] (targetLanguage pdfTask) |}
  /\ (forall rasterize,
        String.eqb (file_type (file pdfTask)) "application/pdf" = false ->
        spec_pageImage rasterize pdfTask = Some (base64 (file_bytes (file pdfTask)))).
Proof.
  apply (adapter_receives_file_bytes [("zh-CN", "Chinese")] pdfTask).
  reflexivity.
Defined.

(** C9, as stated, fails for a PDF: the adapter is sent the PDF file
    itself, as [application/pdf], and not the JPEG that the preview
    renderer makes of its first page. *)
Lemma pdf_is_sent_unrendered :
  processQueue_request [("zh-CN", "Chinese")] pdfTask (readable (file pdfTask))
  = Some {| req_base64 := Some "JVBERi0xLjQ=";
            req_mimeType := "application/pdf";
            req_targetLang := "Chinese" |}
  /\ spec_pageImage jpegStub pdfTask = Some "/9j/2Q=="
  /\ match processQueue_request [("zh-CN", "Chinese")] pdfTask (readable (file pdfTask)) with
     | Some r =>
         match req_base64 r, spec_pageImage jpegStub pdfTask with
         | Some sent, Some rendered => String.eqb sent rendered
         | _, _ => true
         end
     | None => true
     end = false.
Proof. repeat split. Qed.

(** ** Binary64 evaluation of the numeric code *)

Module Binary64Facts.
Import Floats.

(** Rounding does not change the progress values: for every list of up
    to 64 blocks, the binary64 evaluation of the source expression and
    its exact reading agree after each block. *)
Lemma binary64_progress_agrees :
  forallb Binary64.progress_agrees (seq 1 64) = true.
Proof. vm_compute. reflexivity. Qed.

(** The font size of the sample heading at zoom 1, and the zoom after
    five clicks on the zoom-out button. *)
Lemma binary64_font_sizes :
  Binary64.estimatedFontSize Binary64.headingBlock 1 = 35.785000000000004%float
  /\ Binary64.zoomAfter (repeat zoomOutClick 5) = 0.5000000000000001%float.
Proof. split; vm_compute; reflexivity. Qed.

End Binary64Facts.

(** * Further properties of the code *)

(** ** The life of a task *)

Lemma applyPatch_blocks (p : Patch) (t : FileTask) :
  translatedBlocks (applyPatch p t) = translatedBlocks t ++ appended p.
Proof. destruct p; simpl; try (now rewrite app_nil_r); reflexivity. Qed.

Lemma applyPatch_identity (p : Patch) (t : FileTask) :
  name (applyPatch p t) = name t
  /\ file (applyPatch p t) = file t
  /\ previewUrl (applyPatch p t) = previewUrl t
  /\ targetLanguage (applyPatch p t) = targetLanguage t
  /\ totalPages (applyPatch p t) = totalPages t
  /\ processedPages (applyPatch p t) = processedPages t.
Proof. destruct p; repeat split. Qed.

Lemma status_step_refl (s : TaskStatus) : status_step s s = true.
Proof. destruct s; reflexivity. Qed.

Lemma status_step_patch (p : Patch) (t : FileTask) :
  p <> PatchProcessing -> status t = processing ->
  status_step (status t) (status (applyPatch p t)) = true.
Proof. intros Hp Hs. destruct p; simpl; rewrite Hs; reflexivity. Qed.

(** How a listed task relates to the task of the same id one transition
    later. *)
Lemma task_after_step (a a' : App) (t t' : FileTask) :
  reachable a -> step a a' ->
  In t (tasks a) -> In t' (tasks a') -> id t = id t' ->
  t' = t
  \/ (status t = pending /\ t' = applyPatch PatchProcessing t)
  \/ (status t = processing
      /\ exists p, p <> PatchProcessing /\ t' = applyPatch p t).
Proof.
  intros Hr Hs Ht Ht' E. pose proof (reachable_Inv a Hr) as HI.
  pose proof HI as [Hnd Hiss Htg Htn Hone Hpen Hfl].
  destruct Hs as [a lang picks Hpk Hfresh|a tid|a q reader answer now He
                 |a before tid p rest after Hfs];
    unfold afterFiles, afterRemove, afterEffect, afterWrite in Ht'; cbn [tasks] in Ht'.
  - left. rewrite handleFilesSelected_app in Ht'. apply in_app_iff in Ht' as [Ht'|Ht'].
    + symmetry. now apply (NoDup_ids_eq (tasks a)).
    + apply newTask_fresh in Ht' as (_ & _ & Hin). exfalso.
      apply (Hfresh _ Hin). apply Hiss. rewrite <- E. unfold ids. now apply in_map.
  - left. apply In_removeTask in Ht' as [Ht' _].
    symmetry. now apply (NoDup_ids_eq (tasks a)).
  - apply effect_Some in He as (_ & Hq & Hsq).
    apply In_setTasks in Ht' as (u & Hu & Eu & [[Eid ->]|[_ ->]]).
    + assert (u = q) by (apply (NoDup_ids_eq (tasks a)); auto).
      assert (t = u) by (apply (NoDup_ids_eq (tasks a)); auto; congruence).
      subst. right. left. auto.
    + left. symmetry. apply (NoDup_ids_eq (tasks a)); auto; congruence.
  - apply In_setTasks in Ht' as (u & Hu & Eu & [[Eid ->]|[_ ->]]).
    + assert (t = u) by (apply (NoDup_ids_eq (tasks a)); auto; congruence).
      subst u.
      assert (Hf0 : In (mkFlight tid (p :: rest)) (flights a)).
      { rewrite Hfs. apply in_app_iff. right. now left. }
      destruct (Hfl _ Hf0) as [Hok Hall]. cbn [script target] in Hok, Hall.
      destruct (Hall t Ht Eid) as (_ & _ & Hproc).
      apply script_ok_cons in Hok as (Hquiet & _ & _).
      right. right. split; [apply Hproc; discriminate|]. exists p. auto.
    + left. symmetry. apply (NoDup_ids_eq (tasks a)); auto; congruence.
Qed.

Lemma reachable_resume (a : App) (tid : string) (p : Patch) (rest : list Patch)
    (after : list Flight) :
  reachable a -> flights a = mkFlight tid (p :: rest) :: after -> reachable (resume a).
Proof. intros Hr Hf. apply (reachable_step a); [exact Hr | now apply (step_resume a tid p rest after)]. Qed.

Lemma reachable_translating : reachable translating.
Proof.
  unfold translating.
  eapply reachable_resume; [|reflexivity].
  eapply reachable_resume; [|reflexivity].
  apply reachable_started.
Qed.

(** X1. Along every transition of a reachable state the status of a listed
    task stays as it is or moves one step along pending, processing,
    completed or error; a task that is completed or failed is never
    changed again. *)
Theorem status_moves_forward (a a' : App) (t t' : FileTask) :
  reachable a -> step a a' ->
  In t (tasks a) -> In t' (tasks a') -> id t = id t' ->
  status_step (status t) (status t') = true
  /\ (status t = completed \/ status t = error -> t' = t).
Proof.
  intros Hr Hs Ht Ht' E.
  destruct (task_after_step a a' t t' Hr Hs Ht Ht' E)
    as [->|[[Hp ->]|[Hp (p & Hq & ->)]]].
  - split; [apply status_step_refl | reflexivity].
  - split; [rewrite Hp; reflexivity|]. intros [H|H]; congruence.
  - split; [now apply status_step_patch|]. intros [H|H]; congruence.
Qed.

(** X1 on the step in which the run of [f1] writes progress 20. *)
Lemma status_moves_forward_extracting :
  status_step (status f1_started) (status f1_extracting) = true
  /\ (status f1_started = completed \/ status f1_started = error -> f1_extracting = f1_started).
Proof.
  apply (status_moves_forward (started (readable imageFile) answersThree)
           (resume (started (readable imageFile) answersThree))).
  - apply reachable_started.
  - eapply step_resume. reflexivity.
  - left. reflexivity.
  - left. reflexivity.
  - reflexivity.
Defined.

(** X2. Along every transition of a reachable state the blocks of a listed
    task only grow, by at most one block at their end, and name, file,
    preview URL, target language and page counts stay as they are. *)
Theorem blocks_append_only (a a' : App) (t t' : FileTask) :
  reachable a -> step a a' ->
  In t (tasks a) -> In t' (tasks a') -> id t = id t' ->
  (exists more, translatedBlocks t' = translatedBlocks t ++ more
                /\ (List.length more <= 1)%nat)
  /\ name t' = name t
  /\ file t' = file t
  /\ previewUrl t' = previewUrl t
  /\ targetLanguage t' = targetLanguage t
  /\ totalPages t' = totalPages t
  /\ processedPages t' = processedPages t.
Proof.
  intros Hr Hs Ht Ht' E.
  assert (Hp : forall p,
             (exists more, translatedBlocks (applyPatch p t) = translatedBlocks t ++ more
                           /\ (List.length more <= 1)%nat)
             /\ name (applyPatch p t) = name t
             /\ file (applyPatch p t) = file t
             /\ previewUrl (applyPatch p t) = previewUrl t
             /\ targetLanguage (applyPatch p t) = targetLanguage t
             /\ totalPages (applyPatch p t) = totalPages t
             /\ processedPages (applyPatch p t) = processedPages t).
  { intros p. split; [|apply applyPatch_identity].
    exists (appended p). split; [apply applyPatch_blocks|].
    destruct p; simpl; lia. }
  destruct (task_after_step a a' t t' Hr Hs Ht Ht' E)
    as [->|[[_ ->]|[_ (p & _ & ->)]]]; [|apply Hp|apply Hp].
  split; [|repeat split]. exists []. split; [now rewrite app_nil_r | simpl; lia].
Qed.

(** X2 on the step that appends the first of three blocks to [f1]. *)
Lemma blocks_append_only_first_block :
  (exists more, translatedBlocks f1_first_block = translatedBlocks f1_translating ++ more
                /\ (List.length more <= 1)%nat)
  /\ name f1_first_block = name f1_translating
  /\ file f1_first_block = file f1_translating
  /\ previewUrl f1_first_block = previewUrl f1_translating
  /\ targetLanguage f1_first_block = targetLanguage f1_translating
  /\ totalPages f1_first_block = totalPages f1_translating
  /\ processedPages f1_first_block = processedPages f1_translating.
Proof.
  apply (blocks_append_only translating (resume translating)).
  - apply reachable_translating.
  - eapply step_resume. reflexivity.
  - left. reflexivity.
  - left. reflexivity.
  - reflexivity.
Defined.

(** ** Status, progress and warnings go together *)

Lemma currentProgress_range (i totalBlocks : nat) :
  (i < totalBlocks)%nat -> 30 <= currentProgress i totalBlocks <= 90.
Proof.
  intros H. rewrite currentProgress_div by lia.
  assert (0 <= (60 * (Z.of_nat i + 1)) / Z.of_nat totalBlocks)
    by (apply Z.div_pos; lia).
  assert ((60 * (Z.of_nat i + 1)) / Z.of_nat totalBlocks <= 60).
  { apply Z.div_le_upper_bound; lia. }
  lia.
Qed.

Lemma streamFrom_in_range (totalBlocks : nat) (now : nat -> Z) (blocks : list BlockData) :
  forall i, (i + List.length blocks = totalBlocks)%nat ->
            forallb block_in_range (streamFrom i totalBlocks blocks now ++ [PatchCompleted]) = true.
Proof.
  induction blocks as [|b r IH]; intros i H; simpl in *; [reflexivity|].
  apply andb_true_iff. split; [apply Nat.ltb_lt; lia | apply IH; lia].
Qed.

Lemma processQueue_rest_in_range (reader : ReaderEvent) (answer : AdapterAnswer)
    (now : nat -> Z) :
  forallb block_in_range (processQueue_rest reader answer now) = true.
Proof.
  unfold processQueue_rest.
  destruct (fileToBase64 reader); [|reflexivity].
  destruct answer as [[[[bs|]]|]|e]; try reflexivity.
  cbn [forallb block_in_range andb]. unfold streaming. now apply streamFrom_in_range.
Qed.

Lemma task_ok_patch (p : Patch) (t : FileTask) :
  task_ok t -> status t = processing -> block_in_range p = true ->
  task_ok (applyPatch p t).
Proof.
  unfold task_ok. intros Hok Hs Hr. rewrite Hs in Hok. destruct Hok as [Hp Hw].
  destruct p; simpl; rewrite ?Hs; try (split; [lia | assumption]).
  - simpl in Hr. apply Nat.ltb_lt in Hr.
    pose proof (currentProgress_range i totalBlocks Hr). split; [lia | assumption].
  - split; [lia | reflexivity].
Qed.

Lemma task_ok_start (t : FileTask) :
  task_ok t -> status t = pending -> task_ok (applyPatch PatchProcessing t).
Proof.
  unfold task_ok. intros Hok Hs. rewrite Hs in Hok. destruct Hok as (_ & Hw & _).
  simpl. split; [lia | assumption].
Qed.

Lemma Inv2_step (a a' : App) : reachable a -> Inv2 a -> step a a' -> Inv2 a'.
Proof.
  intros Hr [Hts Hsc] Hs. pose proof (reachable_Inv a Hr) as HI.
  pose proof HI as [Hnd Hiss Htg Htn Hone Hpen Hfl].
  destruct Hs as [a lang picks Hpk Hfresh|a tid|a q reader answer now He
                 |a before tid p rest after Hfs];
    unfold afterFiles, afterRemove, afterEffect, afterWrite;
    constructor; cbn [tasks flights].
  - intros t Ht. rewrite handleFilesSelected_app in Ht. apply in_app_iff in Ht as [Ht|Ht]; [auto|].
    apply in_map_iff in Ht as ([[tid url] f] & <- & _). unfold task_ok. simpl. auto.
  - exact Hsc.
  - intros t Ht. apply In_removeTask in Ht as [Ht _]. auto.
  - exact Hsc.
  - apply effect_Some in He as (_ & Hq & Hsq).
    intros t Ht. apply In_setTasks in Ht as (u & Hu & Eu & [[Eid ->]|[_ ->]]); [|auto].
    assert (u = q) by (apply (NoDup_ids_eq (tasks a)); auto). subst u.
    apply task_ok_start; auto.
  - intros f [<-|Hf]; [apply processQueue_rest_in_range | auto].
  - assert (Hf0 : In (mkFlight tid (p :: rest)) (flights a)).
    { rewrite Hfs. apply in_app_iff. right. now left. }
    intros t Ht. apply In_setTasks in Ht as (u & Hu & Eu & [[Eid ->]|[_ ->]]); [|auto].
    destruct (Hfl _ Hf0) as [_ Hall]. cbn [script target] in Hall.
    destruct (Hall u Hu Eid) as (_ & _ & Hproc).
    apply task_ok_patch; [auto | apply Hproc; discriminate|].
    specialize (Hsc _ Hf0). cbn [script forallb] in Hsc.
    now apply andb_true_iff in Hsc as [Hsc _].
  - assert (Hf0 : In (mkFlight tid (p :: rest)) (flights a)).
    { rewrite Hfs. apply in_app_iff. right. now left. }
    intros f Hf. apply in_app_iff in Hf as [Hf|[<-|Hf]].
    + apply Hsc. rewrite Hfs. apply in_app_iff. now left.
    + specialize (Hsc _ Hf0). cbn [script forallb] in *.
      now apply andb_true_iff in Hsc as [_ Hsc].
    + apply Hsc. rewrite Hfs. apply in_app_iff. right. now right.
Qed.

Lemma reachable_Inv2 (a : App) : reachable a -> Inv2 a.
Proof.
  intros Hr. pose proof Hr as Hr'. unfold reachable in Hr'.
  induction Hr' as [|b c Hstep Hreach IH].
  - constructor; intros ? [].
  - apply (Inv2_step b c); auto.
Qed.

(** X3. In every reachable state the progress of a listed task lies
    between 0 and 100; it is 100 exactly when the task is completed and 0
    exactly when it is pending; a failed task carries exactly one
    warning, every other task none; and a pending task has no blocks. *)
Theorem progress_matches_status (a : App) (t : FileTask) :
  reachable a -> In t (tasks a) ->
  0 <= progress t <= 100
  /\ (progress t = 100 <-> status t = completed)
  /\ (progress t = 0 <-> status t = pending)
  /\ (status t = error -> List.length (warnings t) = 1%nat)
  /\ (status t = pending \/ status t = processing \/ status t = completed -> warnings t = [])
  /\ (status t = pending -> translatedBlocks t = []).
Proof.
  intros Hr Ht. pose proof (inv2_tasks a (reachable_Inv2 a Hr) t Ht) as Hok.
  unfold task_ok in Hok. destruct (status t) eqn:Hs.
  - destruct Hok as (Hp & Hw & Hb).
    repeat split; try lia; try congruence; try (intros; lia); auto.
  - destruct Hok as (Hp & Hw).
    repeat split; try lia; try congruence; try (intros; lia); auto.
  - destruct Hok as (Hp & Hw).
    repeat split; try lia; try congruence; try (intros; lia); auto.
  - destruct Hok as (Hp & Hw).
    repeat split; try lia; try congruence; try (intros; lia); auto;
      try (intros [H|[H|H]]; congruence).
Qed.

(** X3 for [f1] right after it failed on a network error. *)
Lemma progress_matches_status_failed :
  0 <= progress (applyPatch (PatchError "Failed to fetch") f1_extracting) <= 100
  /\ (progress (applyPatch (PatchError "Failed to fetch") f1_extracting) = 100
      <-> status (applyPatch (PatchError "Failed to fetch") f1_extracting) = completed)
  /\ (progress (applyPatch (PatchError "Failed to fetch") f1_extracting) = 0
      <-> status (applyPatch (PatchError "Failed to fetch") f1_extracting) = pending)
  /\ (status (applyPatch (PatchError "Failed to fetch") f1_extracting) = error ->
      List.length (warnings (applyPatch (PatchError "Failed to fetch") f1_extracting)) = 1%nat)
  /\ (status (applyPatch (PatchError "Failed to fetch") f1_extracting) = pending
      \/ status (applyPatch (PatchError "Failed to fetch") f1_extracting) = processing
      \/ status (applyPatch (PatchError "Failed to fetch") f1_extracting) = completed ->
      warnings (applyPatch (PatchError "Failed to fetch") f1_extracting) = [])
  /\ (status (applyPatch (PatchError "Failed to fetch") f1_extracting) = pending ->
      translatedBlocks (applyPatch (PatchError "Failed to fetch") f1_extracting) = []).
Proof.
  apply (progress_matches_status failed).
  - apply (reachable_step failing); [apply reachable_failing|].
    eapply step_resume. reflexivity.
  - left. reflexivity.
Defined.

(** ** A successful run *)

Lemma runScript_app (ps qs : list Patch) (t : FileTask) :
  runScript (ps ++ qs) t = runScript qs (runScript ps t).
Proof. unfold runScript. apply fold_left_app. Qed.

Lemma runScript_stream (totalBlocks : nat) (now : nat -> Z) (blocks : list BlockData) :
  forall i t,
    translatedBlocks (runScript (streamFrom i totalBlocks blocks now) t)
    = translatedBlocks t ++ streamedFrom i blocks now
    /\ warnings (runScript (streamFrom i totalBlocks blocks now) t) = warnings t.
Proof.
  induction blocks as [|b r IH]; intros i t.
  - simpl. now rewrite app_nil_r.
  - cbn [streamFrom streamedFrom]. unfold runScript in *. cbn [fold_left].
    destruct (IH (S i) (applyPatch (PatchBlock i totalBlocks b (now i)) t)) as [Hb Hw].
    rewrite Hb, Hw. simpl. rewrite <- app_assoc. split; reflexivity.
Qed.

Lemma streamedFrom_fields (now : nat -> Z) (blocks : list BlockData) :
  forall i,
    map b_text (streamedFrom i blocks now) = map bd_text blocks
    /\ map b_translatedText (streamedFrom i blocks now) = map bd_translatedText blocks
    /\ map b_box (streamedFrom i blocks now) = map bd_box blocks
    /\ map b_isBold (streamedFrom i blocks now) = map bd_isBold blocks
    /\ map b_type (streamedFrom i blocks now) = map bd_type blocks
    /\ List.length (streamedFrom i blocks now) = List.length blocks.
Proof.
  induction blocks as [|b r IH]; intros i; [repeat split|].
  destruct (IH (S i)) as (H1 & H2 & H3 & H4 & H5 & H6).
  cbn [streamedFrom map List.length newBlock b_text b_translatedText b_box b_isBold b_type].
  rewrite H1, H2, H3, H4, H5, H6. repeat split.
Qed.

Lemma streamedFrom_pageIndex (now : nat -> Z) (blocks : list BlockData) :
  forall i, Forall (fun b => b_pageIndex b = 0) (streamedFrom i blocks now).
Proof.
  induction blocks as [|b r IH]; intros i; constructor; [reflexivity | apply IH].
Qed.

(** X4. When the file was read and the adapter resolves with a block
    list, the run ends with the task completed at progress 100, its
    warnings untouched, and its blocks extended by one block per element
    of the list, in the order of the list, each with the text,
    translation, box, bold flag and type of its element and page index 0.
    An empty list is not an error: the task completes with no block
    added. *)
Theorem successful_run_keeps_adapter_order (result : string) (blocks : list BlockData)
    (now : nat -> Z) (t : FileTask) :
  status (successfulRun result blocks now t) = completed
  /\ progress (successfulRun result blocks now t) = 100
  /\ warnings (successfulRun result blocks now t) = warnings t
  /\ translatedBlocks (successfulRun result blocks now t)
     = translatedBlocks t ++ streamedFrom 0 blocks now
  /\ map b_text (streamedFrom 0 blocks now) = map bd_text blocks
  /\ map b_translatedText (streamedFrom 0 blocks now) = map bd_translatedText blocks
  /\ map b_box (streamedFrom 0 blocks now) = map bd_box blocks
  /\ map b_isBold (streamedFrom 0 blocks now) = map bd_isBold blocks
  /\ map b_type (streamedFrom 0 blocks now) = map bd_type blocks
  /\ Forall (fun b => b_pageIndex b = 0) (streamedFrom 0 blocks now)
  /\ translatedBlocks (successfulRun result [] now t) = translatedBlocks t
  /\ status (successfulRun result [] now t) = completed.
Proof.
  unfold successfulRun, processQueue_writes, processQueue_rest.
  cbn [fileToBase64].
  assert (Hrun : forall bs u,
            runScript (PatchProcessing :: PatchExtracting :: PatchTranslating
                         :: streaming bs now ++ [PatchCompleted]) u
            = applyPatch PatchCompleted
                (runScript (streaming bs now)
                   (applyPatch PatchTranslating
                      (applyPatch PatchExtracting (applyPatch PatchProcessing u))))).
  { intros bs u. unfold runScript at 1. cbn [fold_left].
    fold (runScript (streaming bs now ++ [PatchCompleted])
            (applyPatch PatchTranslating
               (applyPatch PatchExtracting (applyPatch PatchProcessing u)))).
    rewrite runScript_app. reflexivity. }
  rewrite !Hrun.
  set (u := applyPatch PatchTranslating
              (applyPatch PatchExtracting (applyPatch PatchProcessing t))).
  destruct (runScript_stream (List.length blocks) now blocks 0 u) as [Hb Hw].
  destruct (streamedFrom_fields now blocks 0) as (H1 & H2 & H3 & H4 & H5 & _).
  split; [reflexivity|]. split; [reflexivity|].
  split.
  { change (warnings (runScript (streaming blocks now) u) = warnings t).
    unfold streaming. rewrite Hw. reflexivity. }
  split.
  { change (translatedBlocks (runScript (streaming blocks now) u)
            = translatedBlocks t ++ streamedFrom 0 blocks now).
    unfold streaming. rewrite Hb. reflexivity. }
  repeat (split; [assumption|]).
  split; [apply streamedFrom_pageIndex|].
  split; reflexivity.
Qed.

(** ** The queue *)

Lemma find_first {A : Type} (f : A -> bool) (l : list A) (x : A) :
  find f l = Some x ->
  exists l1 l2, l = l1 ++ x :: l2 /\ forall u, In u l1 -> f u = false.
Proof.
  induction l as [|y l IH]; simpl; [discriminate|].
  destruct (f y) eqn:E.
  - intros H. injection H as <-. exists [], l. split; [reflexivity | intros u []].
  - intros H. destruct (IH H) as (l1 & l2 & -> & Hl1).
    exists (y :: l1), l2. split; [reflexivity|].
    intros u [<-|Hu]; auto.
Qed.

Lemma filter_all {A : Type} (l : list A) : filter (fun _ => true) l = l.
Proof. induction l as [|x l IH]; simpl; [reflexivity | now rewrite IH]. Qed.

Lemma ids_removeTask (tid : string) (ts : list FileTask) :
  ids (removeTask tid ts) = filter (fun x => negb (String.eqb x tid)) (ids ts).
Proof.
  unfold ids, removeTask. induction ts as [|t ts IH]; simpl; [reflexivity|].
  destruct (negb (String.eqb (id t) tid)); simpl; now rewrite IH.
Qed.

(** X5. The task list is a first-in first-out queue.  A transition never
    reorders the listed ids: it keeps a selection of them in their order
    and may add ids never issued before at the end.  And the task that the
    effect starts is the first pending one: every task listed before it
    is completed or failed. *)
Theorem queue_is_fifo (a a' : App) :
  step a a' ->
  (exists keep added,
      ids (tasks a') = filter keep (ids (tasks a)) ++ added
      /\ forall x, In x added -> ~ In x (issued a))
  /\ (forall pendingTask,
        effect (tasks a) = Some pendingTask ->
        exists earlier later,
          tasks a = earlier ++ pendingTask :: later
          /\ forall u, In u earlier -> status u = completed \/ status u = error).
Proof.
  intros Hs. split.
  - destruct Hs as [a lang picks Hpk Hfresh|a tid|a q reader answer now He
                   |a before tid p rest after Hfs];
      unfold afterFiles, afterRemove, afterEffect, afterWrite; cbn [tasks].
    + exists (fun _ => true), (map pick_id picks). split; [|exact Hfresh].
      rewrite handleFilesSelected_app, filter_all. unfold ids. rewrite map_app.
      fold (ids (map (newTask lang) picks)). now rewrite ids_newTasks.
    + exists (fun x => negb (String.eqb x tid)), []. split; [|intros x []].
      now rewrite app_nil_r, ids_removeTask.
    + exists (fun _ => true), []. split; [|intros x []].
      now rewrite app_nil_r, filter_all, ids_setTasks.
    + exists (fun _ => true), []. split; [|intros x []].
      now rewrite app_nil_r, filter_all, ids_setTasks.
  - intros q He. unfold effect in He.
    destruct (existsb is_processing (tasks a)) eqn:Hex; [discriminate|].
    destruct (find_first _ _ _ He) as (l1 & l2 & Hl & Hl1).
    exists l1, l2. split; [exact Hl|].
    intros u Hu. specialize (Hl1 u Hu).
    assert (Hnp : is_processing u = false).
    { destruct (is_processing u) eqn:E; [|reflexivity].
      assert (existsb is_processing (tasks a) = true); [|congruence].
      apply existsb_exists. exists u. split; [|exact E].
      rewrite Hl. apply in_app_iff. now left. }
    unfold is_pending in Hl1. unfold is_processing in Hnp.
    destruct (status u); simpl in *; try discriminate; auto.
Qed.

(** X5 on the step in which the effect starts [f1] with [f2] behind it. *)
Lemma queue_is_fifo_two_files :
  (exists keep added,
      ids (tasks (started (readable imageFile) answersThree))
      = filter keep (ids (tasks twoFiles)) ++ added
      /\ forall x, In x added -> ~ In x (issued twoFiles))
  /\ (forall pendingTask,
        effect (tasks twoFiles) = Some pendingTask ->
        exists earlier later,
          tasks twoFiles = earlier ++ pendingTask :: later
          /\ forall u, In u earlier -> status u = completed \/ status u = error).
Proof.
  apply (queue_is_fifo twoFiles (started (readable imageFile) answersThree)).
  apply (step_effect twoFiles f1 (readable imageFile) answersThree sampleClock).
  reflexivity.
Defined.

(** ** Zoom *)

Lemma fold_left_invariant {A B : Type} (P : A -> Prop) (f : A -> B -> A) (l : list B) :
  (forall x e, P x -> P (f x e)) -> forall x, P x -> P (fold_left f l x).
Proof. intros Hf. induction l as [|e l IH]; intros x Hx; simpl; auto. Qed.

Section ZoomRange.
Import Floats.
Import Binary64.
Local Open Scope Z_scope.

(** *** The levels of the zoom *)

Lemma mem_In (z : float) (l : list float) : mem z l = true -> In z l.
Proof.
  unfold mem. intros H. apply existsb_exists in H. destruct H as (y & Hy & E).
  apply Leibniz.eqb_spec in E. now subst.
Qed.

Lemma zoomLevels_closed :
  forallb (fun z => forallb (fun e => mem (zoomStep z e) zoomLevels) zoomEvents) zoomLevels = true.
Proof. vm_compute. reflexivity. Qed.

Lemma zoomStep_level (z : float) (e : ZoomEvent) : In z zoomLevels -> In (zoomStep z e) zoomLevels.
Proof.
  intros H. pose proof zoomLevels_closed as Hc.
  rewrite forallb_forall in Hc. specialize (Hc z H).
  rewrite forallb_forall in Hc. apply mem_In, Hc.
  destruct e; cbn; auto.
Qed.

Lemma zoomAfter_level (events : list ZoomEvent) : In (zoomAfter events) zoomLevels.
Proof.
  unfold zoomAfter.
  assert (H : In 1%float zoomLevels) by (apply mem_In; vm_compute; reflexivity).
  revert H. generalize 1%float. induction events as [|e events IH]; intros z Hz; cbn [fold_left].
  - exact Hz.
  - apply IH. now apply zoomStep_level.
Qed.

Lemma zoomLevels_ordered : forallb thresholds_ordered zoomLevels = true.
Proof. vm_compute. reflexivity. Qed.

Lemma zoomAfter_thresholds (events : list ZoomEvent) :
  thresholds_ordered (zoomAfter events) = true.
Proof.
  pose proof zoomLevels_ordered as H. rewrite forallb_forall in H.
  apply H, zoomAfter_level.
Qed.

(** X6. Whatever sequence of zoom-out clicks, zoom-in clicks and task
    changes the toolbar receives, the zoom factor computed in binary64
    stays between 0.5 and 3, and the bounds of the clamp are in order at
    it, [9 * zoom <= 14 * zoom <= 48 * zoom]; hence the font size of
    every block whose density estimate is a number is a number between
    4.5 and 144 pixels. *)
Theorem zoom_stays_in_range (events : list ZoomEvent) :
  (0.5 <=? zoomAfter events)%float = true
  /\ (zoomAfter events <=? 3)%float = true
  /\ (9 * zoomAfter events <=? 14 * zoomAfter events)%float = true
  /\ (14 * zoomAfter events <=? 48 * zoomAfter events)%float = true
  /\ (forall b, is_nan (densityFontSize b (zoomAfter events)) = false ->
        (4.5 <=? estimatedFontSize b (zoomAfter events))%float = true
        /\ (estimatedFontSize b (zoomAfter events) <=? 144)%float = true).
Proof.
  pose proof (zoomAfter_thresholds events) as Hz.
  set (zoom := zoomAfter events) in *.
  unfold thresholds_ordered in Hz.
  repeat (apply andb_true_iff in Hz; destruct Hz as [Hz ?]).
  repeat (split; [assumption|]).
  intros b Hd.
  destruct (estimated_rank b zoom) as (Hc & Rc & He & Re); try assumption.
  repeat match goal with H : (_ <=? _)%float = true |- _ =>
    apply leb_true_rank in H; destruct H as (? & ? & ?) end.
  split; apply rank_leb; try assumption; rewrite Re; destruct (is_heading b); lia.
Qed.

End ZoomRange.

(** X7. Whatever sequence of button clicks, wheel events (with or without
    the control key, with any scroll amount) and resets the full-screen
    viewer receives, its zoom stays between 0.1 and 5, and a wheel event
    without the control key leaves it as it is. *)
Theorem fullScreenZoom_stays_in_range (events : list FullScreenEvent) :
  (1 / 10 <= fullScreenZoomAfter events <= 5)%R
  /\ (forall deltaY,
        fullScreenZoomAfter (events ++ [fullScreenWheel false deltaY])
        = fullScreenZoomAfter events).
Proof.
  split.
  - unfold fullScreenZoomAfter.
    apply (fold_left_invariant (fun z => (1 / 10 <= z <= 5)%R)); [|lra].
    intros x e H. destruct e as [| |ctrl d|]; simpl.
    + split; [apply Rmax_l | apply Rmax_lub; lra].
    + split; [apply Rmin_glb; lra | apply Rmin_l].
    + destruct ctrl; [|exact H].
      split; [apply Rmax_l | apply Rmax_lub; [lra | apply Rmin_l]].
    + lra.
  - intros deltaY. unfold fullScreenZoomAfter. rewrite fold_left_app. reflexivity.
Qed.

(** ** Header layout *)

Section HeaderLayout.
Import Floats.
Import Binary64.
Local Open Scope Z_scope.

Lemma Math_max_number (x y : float) :
  is_nan (Math_max x y) = false -> is_nan x = false /\ is_nan y = false.
Proof.
  unfold Math_max. destruct (is_nan x), (is_nan y); cbn [orb]; intros H;
    first [discriminate | split; reflexivity].
Qed.


(** X8. Whenever the font size of a block is a number, at any zoom: a
    block laid out as a header (centred, tight line height) has a font
    size of at least 14 times the zoom; every heading is laid out as a
    header and in bold; a block that is not a heading and has 30
    characters or more is never laid out as a header; and a table cell is
    not a heading. *)
Theorem header_layout (b : TranslatedBlock) (zoom : float) :
  is_nan (estimatedFontSize b zoom) = false ->
  (isHeader b zoom = true -> (14 * zoom <=? estimatedFontSize b zoom)%float = true)
  /\ (is_heading b = true -> isHeader b zoom = true /\ isBold b = true)
  /\ (is_heading b = false -> (30 <= charCount b)%nat -> isHeader b zoom = false)
  /\ (isTable b = true -> is_heading b = false).
Proof.
  intros Hn. split; [|split; [|split]].
  - unfold isHeader, estimatedFontSize in *. destruct (is_heading b); cbn [orb].
    + intros _. destruct (Math_max_number _ _ Hn) as [Hc Hh].
      destruct (Math_max_rank _ _ Hc Hh) as [_ E].
      apply rank_leb; try assumption. rewrite E. lia.
    + intros H. apply andb_true_iff in H. destruct H as [_ H].
      destruct (ltb_true_not_nan _ _ H) as [Hh Hc].
      rewrite ltb_rank in H by assumption. apply Z.ltb_lt in H.
      apply rank_leb; try assumption. lia.
  - intros H. unfold isHeader, isBold. rewrite H. split; [reflexivity|].
    destruct (b_isBold b) as [[|]|]; reflexivity.
  - intros H Hc. unfold isHeader. rewrite H. cbn [orb].
    apply andb_false_iff. left. apply Nat.ltb_ge. exact Hc.
  - unfold isTable, is_table_cell, is_heading. destruct (b_type b) as [ty|]; [|discriminate].
    intros H. apply String.eqb_eq in H. subst ty. reflexivity.
Qed.

(** X8 at the sample heading and zoom 1. *)
Lemma header_layout_sample :
  is_nan (estimatedFontSize headingBlock 1) = false
  /\ (isHeader headingBlock 1 = true ->
      (14 * 1 <=? estimatedFontSize headingBlock 1)%float = true)
  /\ (is_heading headingBlock = true ->
      isHeader headingBlock 1 = true /\ isBold headingBlock = true).
Proof.
  assert (H : is_nan (estimatedFontSize headingBlock 1) = false) by reflexivity.
  split; [exact H|]. split; apply (header_layout headingBlock 1 H).
Defined.

End HeaderLayout.

(** ** Sorting again *)

Section SortingAgain.
Import Floats.
Import Binary64.
Local Open Scope Z_scope.

Lemma sort_insert_front (x : TranslatedBlock) (l : list TranslatedBlock) :
  areaIsNumber x -> Forall areaIsNumber l ->
  Forall (area_ge x) l -> sort_insert compareArea x l = x :: l.
Proof.
  intros Hx Hl H. destruct H as [|y l Hy _]; [reflexivity|].
  inversion Hl; subst.
  cbn [sort_insert]. rewrite compareArea_positive by assumption.
  apply area_ge_rank in Hy; try assumption.
  destruct (Z.ltb_spec (rank (spec_boxArea x)) (rank (spec_boxArea y))); [lia|reflexivity].
Qed.

Lemma Array_sort_sorted_id (l : list TranslatedBlock) :
  Forall areaIsNumber l -> StronglySorted area_ge l -> Array_sort compareArea l = l.
Proof.
  intros Hl H. induction H as [|x l Hs IH Hx]; [reflexivity|].
  inversion Hl; subst.
  cbn [Array_sort]. rewrite IH by assumption. now apply sort_insert_front.
Qed.


(** X9. When the computed area of every block is a number, sorting is a
    fixed point on sorted input: a block list that is already in
    descending order of computed area is rendered in exactly its own
    order, so sorting a second time changes nothing; and sorting keeps
    the number of blocks. *)
Theorem sortedBlocks_idempotent (blocks : list TranslatedBlock) :
  Forall (fun b => is_nan (spec_boxArea b) = false) blocks ->
  Array_sort compareArea (Array_sort compareArea blocks) = Array_sort compareArea blocks
  /\ (StronglySorted area_ge blocks -> Array_sort compareArea blocks = blocks)
  /\ List.length (Array_sort compareArea blocks) = List.length blocks.
Proof.
  intros H. split; [|split].
  - apply Array_sort_sorted_id; [now apply Array_sort_numbers | now apply Array_sort_sorted].
  - now apply Array_sort_sorted_id.
  - symmetry. apply Permutation_length, Array_sort_perm.
Qed.

(** X9 at the two sample blocks. *)
Lemma sortedBlocks_idempotent_two :
  Forall (fun b => is_nan (spec_boxArea b) = false) [blockB; blockA]
  /\ Array_sort compareArea (Array_sort compareArea [blockB; blockA])
     = Array_sort compareArea [blockB; blockA]
  /\ List.length (Array_sort compareArea [blockB; blockA]) = 2%nat.
Proof.
  assert (H : Forall (fun b => is_nan (spec_boxArea b) = false) [blockB; blockA])
    by (repeat constructor).
  split; [exact H|].
  split; apply (sortedBlocks_idempotent [blockB; blockA] H).
Defined.


End SortingAgain.

(** ** Boxes inside the page *)

Section PageBoxes.
Import Floats.
Import Binary64.
Local Open Scope Z_scope.








Lemma below_mono (E E' : Z) (x : spec_float) : E <= E' -> below E x = true -> below E' x = true.
Proof.
  intros H. destruct x as [| | |[|] m e]; cbn; try easy.
  rewrite !Z.leb_le. lia.
Qed.

















End PageBoxes.

(** ** The message of a failure *)

Lemma prefix_app_iff (s1 s2 : string) :
  prefix s1 s2 = true <-> exists post, s2 = (s1 ++ post)%string.
Proof.
  revert s2. induction s1 as [|c s1 IH]; intros s2.
  - split; [intros _; now exists s2 | intros _; destruct s2; reflexivity].
  - destruct s2 as [|d s2]; simpl.
    + split; [discriminate | intros [post H]; discriminate].
    + destruct (ascii_dec c d) as [->|Hne].
      * rewrite IH. split; intros [post H]; exists post; [now rewrite H | now injection H].
      * split; [discriminate | intros [post H]; injection H as H1 H2; congruence].
Qed.

Lemma includes_iff (needle s : string) :
  includes needle s = true <-> exists pre post, s = (pre ++ needle ++ post)%string.
Proof.
  split.
  - induction s as [|c s IH]; cbn [includes]; intros H; apply orb_true_iff in H as [H|H].
    + apply prefix_app_iff in H as [post H]. now exists EmptyString, post.
    + discriminate.
    + apply prefix_app_iff in H as [post H]. now exists EmptyString, post.
    + destruct (IH H) as (pre & post & ->). now exists (String c pre), post.
  - intros (pre & post & ->). induction pre as [|c pre IH].
    + assert (Hp : prefix needle (needle ++ post) = true)
        by (apply prefix_app_iff; now exists post).
      simpl. destruct (needle ++ post)%string; cbn [includes]; rewrite Hp; reflexivity.
    + cbn [append includes]. rewrite IH. apply orb_true_r.
Qed.

Lemma errorMessage_nonempty (e : JsError) : (1 <= String.length (errorMessage e))%nat.
Proof.
  unfold errorMessage. destruct e as [[|c m]|]; [simpl; lia | | simpl; lia].
  destruct (includes "API key" (String c m)); cbn [String.length]; lia.
Qed.

Lemma In_streamFrom (totalBlocks : nat) (now : nat -> Z) (blocks : list BlockData) (p : Patch) :
  forall i, In p (streamFrom i totalBlocks blocks now) ->
            exists j blockData, p = PatchBlock j totalBlocks blockData (now j).
Proof.
  induction blocks as [|b r IH]; intros i; simpl; [intros []|].
  intros [<-|H]; [eauto | eapply IH; eauto].
Qed.

(** X10. The warning of a failure is never empty.  The message is
    "Invalid API Key" whenever the thrown message contains "API key"
    (anywhere, in this spelling), the thrown message itself when it is
    not empty and contains no "API key", and "Analysis failed" when the
    thrown value has no message or an empty one.  Every failure update
    that a [processQueue] run can make carries such a message. *)
Theorem failure_message_never_empty (e : JsError) :
  (1 <= String.length (errorMessage e))%nat
  /\ (forall pre post,
        errorMessage (Error (pre ++ "API key" ++ post)) = "Invalid API Key")
  /\ (forall c m,
        includes "API key" (String c m) = false ->
        errorMessage (Error (String c m)) = String c m)
  /\ errorMessage None = "Analysis failed"
  /\ errorMessage (Error "") = "Analysis failed"
  /\ (forall reader answer now msg,
        In (PatchError msg) (processQueue_rest reader answer now) ->
        (1 <= String.length msg)%nat).
Proof.
  split; [apply errorMessage_nonempty|].
  split.
  { intros pre post.
    assert (H : includes "API key" (pre ++ "API key" ++ post) = true)
      by (apply includes_iff; now exists pre, post).
    unfold errorMessage, Error.
    destruct (pre ++ "API key" ++ post)%string as [|c m] eqn:E.
    - destruct pre; discriminate.
    - now rewrite H. }
  split; [intros c m H; unfold errorMessage, Error; now rewrite H|].
  split; [reflexivity|]. split; [reflexivity|].
  intros reader answer now msg. unfold processQueue_rest.
  destruct (fileToBase64 reader) as [b64|e0].
  - destruct answer as [[[[bs|]]|]|e1]; simpl;
      try (intros [H|[H|[]]]; [discriminate | injection H as <-; simpl; lia]).
    + intros [H|[H|H]]; try discriminate.
      apply in_app_iff in H as [H|[H|[]]]; [|discriminate].
      apply In_streamFrom in H as (j & bd & H). discriminate.
    + intros [H|[H|[]]]; [discriminate|]. injection H as <-. apply errorMessage_nonempty.
  - intros [H|[]]. injection H as <-. apply errorMessage_nonempty.
Qed.

(** ** Reading the file *)

(** X11. When [fileToBase64] rejects (the reader fails, or its result is
    not a string), the run never calls the adapter, whatever the adapter
    would have answered: its only updates are the start and one failure
    update, so the task ends failed at progress 5 with the one warning
    and the blocks it had.  A result that is not a string gives the
    warning "Failed to read file"; a reader error without a message gives
    "Analysis failed". *)
Theorem read_failure_stops_run (reader : ReaderEvent) (e : JsError)
    (TARGET_LANG_OPTIONS : list (string * string)) (t : FileTask)
    (answer : AdapterAnswer) (now : nat -> Z) :
  fileToBase64 reader = Rejected e ->
  processQueue_request TARGET_LANG_OPTIONS t reader = None
  /\ processQueue_writes reader answer now = [PatchProcessing; PatchError (errorMessage e)]
  /\ status (runScript (processQueue_writes reader answer now) t) = error
  /\ progress (runScript (processQueue_writes reader answer now) t) = 5
  /\ warnings (runScript (processQueue_writes reader answer now) t) = [errorMessage e]
  /\ translatedBlocks (runScript (processQueue_writes reader answer now) t) = translatedBlocks t
  /\ errorMessage (Error "Failed to read file") = "Failed to read file"
  /\ fileToBase64 (onload None) = Rejected (Error "Failed to read file")
  /\ (forall e', fileToBase64 (onerror e') = Rejected e').
Proof.
  intros H. unfold processQueue_request, processQueue_writes, processQueue_rest.
  rewrite H. repeat split.
Qed.

(** X11 for a reader whose result is not a string. *)
Lemma read_failure_not_a_string :
  processQueue_request [] f1 (onload None) = None
  /\ processQueue_writes (onload None) answersThree sampleClock
     = [PatchProcessing; PatchError (errorMessage (Error "Failed to read file"))]
  /\ status (runScript (processQueue_writes (onload None) answersThree sampleClock) f1) = error
  /\ progress (runScript (processQueue_writes (onload None) answersThree sampleClock) f1) = 5
  /\ warnings (runScript (processQueue_writes (onload None) answersThree sampleClock) f1)
     = [errorMessage (Error "Failed to read file")]
  /\ translatedBlocks (runScript (processQueue_writes (onload None) answersThree sampleClock) f1)
     = translatedBlocks f1
  /\ errorMessage (Error "Failed to read file") = "Failed to read file"
  /\ fileToBase64 (onload None) = Rejected (Error "Failed to read file")
  /\ (forall e', fileToBase64 (onerror e') = Rejected e').
Proof.
  apply (read_failure_stops_run (onload None) (Error "Failed to read file") [] f1
           answersThree sampleClock).
  reflexivity.
Defined.

Lemma split_first_two (pre mid rest : string) :
  comma_free pre = true -> comma_free mid = true ->
  nth_error (split ","%char (pre ++ String ","%char (mid ++ String ","%char rest))%string) 1
  = Some mid.
Proof.
  intros Hp Hm. unfold split. rewrite split_acc_comma by exact Hp.
  rewrite split_acc_comma by exact Hm. reflexivity.
Qed.

(** X12. [fileToBase64] resolves with the text between the first and the
    second comma of the reader's result.  If the result has no comma (as
    for the text "data:"), it resolves with [undefined],
    the run is not failed for it, and the adapter is called without image
    data; if the result has a second comma, what follows it is dropped. *)
Theorem fileToBase64_takes_second_piece (result : string)
    (TARGET_LANG_OPTIONS : list (string * string)) (t : FileTask) :
  comma_free result = true ->
  fileToBase64 (onload (Some result)) = Resolved None
  /\ processQueue_request TARGET_LANG_OPTIONS t (onload (Some result))
     = Some (adapterRequest TARGET_LANG_OPTIONS t None)
  /\ (forall answer now,
        exists rest, processQueue_rest (onload (Some result)) answer now
                     = PatchExtracting :: rest)
  /\ (forall mid, comma_free mid = true ->
        fileToBase64 (onload (Some (result ++ String ","%char mid)%string))
        = Resolved (Some mid))
  /\ (forall mid rest, comma_free mid = true ->
        fileToBase64
          (onload (Some (result ++ String ","%char (mid ++ String ","%char rest))%string))
        = Resolved (Some mid)).
Proof.
  intros Hr.
  assert (H0 : fileToBase64 (onload (Some result)) = Resolved None).
  { unfold fileToBase64, split. rewrite split_acc_free by exact Hr. reflexivity. }
  split; [exact H0|]. split; [unfold processQueue_request; now rewrite H0|].
  split.
  { intros answer now. unfold processQueue_rest. rewrite H0. eauto. }
  split.
  - intros mid Hm. unfold fileToBase64, split.
    rewrite split_acc_comma by exact Hr. rewrite split_acc_free by exact Hm. reflexivity.
  - intros mid rest Hm. unfold fileToBase64. now rewrite split_first_two.
Qed.

(** X12 for the text "data:". *)
Lemma fileToBase64_of_empty_data_url :
  fileToBase64 (onload (Some "data:")) = Resolved None
  /\ processQueue_request [] f1 (onload (Some "data:")) = Some (adapterRequest [] f1 None)
  /\ (forall answer now,
        exists rest, processQueue_rest (onload (Some "data:")) answer now
                     = PatchExtracting :: rest)
  /\ (forall mid, comma_free mid = true ->
        fileToBase64 (onload (Some ("data:" ++ String ","%char mid)%string))
        = Resolved (Some mid))
  /\ (forall mid rest, comma_free mid = true ->
        fileToBase64
          (onload (Some ("data:" ++ String ","%char (mid ++ String ","%char rest))%string))
        = Resolved (Some mid)).
Proof.
  apply (fileToBase64_takes_second_piece "data:" [] f1).
  reflexivity.
Defined.

(** ** Toasts *)

Lemma In_removeToast (tid : string) (prev : list Toast) (t : Toast) :
  In t (removeToast tid prev) <-> In t prev /\ toast_id t <> tid.
Proof.
  unfold removeToast. rewrite filter_In. split; intros [H1 H2]; split; try exact H1.
  - destruct (String.eqb_spec (toast_id t) tid); [discriminate | assumption].
  - destruct (String.eqb_spec (toast_id t) tid); [contradiction | reflexivity].
Qed.

Lemma removeToast_absent (tid : string) (prev : list Toast) :
  Forall (fun t => toast_id t <> tid) prev -> removeToast tid prev = prev.
Proof.
  unfold removeToast. induction 1 as [|t l Ht Hl IH]; simpl; [reflexivity|].
  destruct (String.eqb_spec (toast_id t) tid); [contradiction|]. simpl. now rewrite IH.
Qed.

(** X13. Closing a toast, by its button or by its 5 s timer, removes the
    toasts of that id and keeps all others in their order.  A second
    removal (the timer after the button) changes nothing; adding a toast
    and removing it again gives back the list when the id was not in use;
    the removal of one toast never loses a toast added under another id;
    and removals commute. *)
Theorem toast_removal (tid : string) (prev : list Toast) :
  removeToast tid (removeToast tid prev) = removeToast tid prev
  /\ (forall m ty, removeToast tid (addToast tid m ty prev) = removeToast tid prev)
  /\ (Forall (fun t => toast_id t <> tid) prev ->
      forall m ty, removeToast tid (addToast tid m ty prev) = prev)
  /\ (forall other m ty, other <> tid ->
        removeToast tid (addToast other m ty prev)
        = addToast other m ty (removeToast tid prev))
  /\ (forall other,
        removeToast tid (removeToast other prev) = removeToast other (removeToast tid prev))
  /\ (forall t, In t (removeToast tid prev) <-> In t prev /\ toast_id t <> tid).
Proof.
  assert (Hadd : forall m ty, removeToast tid (addToast tid m ty prev) = removeToast tid prev).
  { intros m ty. unfold removeToast, addToast. rewrite filter_app. simpl.
    rewrite String.eqb_refl. simpl. now rewrite app_nil_r. }
  split; [| split; [| split; [| split; [| split]]]].
  - apply removeToast_absent. apply Forall_forall. intros t Ht.
    now apply In_removeToast in Ht as [_ Ht].
  - exact Hadd.
  - intros H m ty. rewrite Hadd. now apply removeToast_absent.
  - intros other m ty Hne. unfold removeToast, addToast. rewrite filter_app. simpl.
    destruct (String.eqb_spec other tid); [contradiction | reflexivity].
  - intros other. clear Hadd. unfold removeToast.
    induction prev as [|t l IH]; [reflexivity|].
    simpl. destruct (String.eqb (toast_id t) other) eqn:E1,
                    (String.eqb (toast_id t) tid) eqn:E2; simpl;
      rewrite ?E1, ?E2; simpl; now rewrite IH.
  - intros t. apply In_removeToast.
Qed.

(** ** Dropping files *)

Lemma withDrawn_files (lang : string) (drawn : list (string * string)) (files : list File) :
  List.length drawn = List.length files ->
  map file (map (newTask lang) (withDrawn drawn files)) = files
  /\ map name (map (newTask lang) (withDrawn drawn files)) = map file_name files
  /\ ids (map (newTask lang) (withDrawn drawn files)) = map fst drawn
  /\ Forall (fun t => status t = pending /\ progress t = 0
                      /\ targetLanguage t = lang /\ translatedBlocks t = [])
            (map (newTask lang) (withDrawn drawn files)).
Proof.
  revert files. induction drawn as [|d ds IH]; intros [|f fs] H; try discriminate.
  - repeat split; constructor.
  - injection H as H. destruct (IH fs H) as (H1 & H2 & H3 & H4).
    unfold withDrawn, ids in *. cbn [combine map newTask file name id fst snd].
    rewrite H1, H2, H3. repeat split. constructor; [repeat split | exact H4].
Qed.

(** X14. A drop of one or more files, of whatever MIME types, adds one
    pending task per file at the end of the list, in the order of the
    files, with the file's name, progress 0 and the current target
    language, and announces their number in one toast; no file is
    rejected for its type, and when such a task is run on a readable file
    the adapter is called with that file's own MIME type.  A drop without
    files changes nothing. *)
Theorem dropped_files_become_tasks (lang toastId : string)
    (drawn : list (string * string)) (f : File) (fs : list File) (u : Ui) :
  List.length drawn = List.length (f :: fs) ->
  (exists added,
      ui_tasks (dropFiles lang toastId drawn (Some (f :: fs)) u) = ui_tasks u ++ added
      /\ map file added = f :: fs
      /\ map name added = map file_name (f :: fs)
      /\ ids added = map fst drawn
      /\ Forall (fun t => status t = pending /\ progress t = 0
                          /\ targetLanguage t = lang /\ translatedBlocks t = []) added
      /\ forall TARGET_LANG_OPTIONS t,
           In t added -> comma_free (file_type (file t)) = true ->
           option_map req_mimeType
             (processQueue_request TARGET_LANG_OPTIONS t (readable (file t)))
           = Some (file_type (file t)))
  /\ ui_toasts (dropFiles lang toastId drawn (Some (f :: fs)) u)
     = ui_toasts u
       ++ [mkToast toastId toast_info
             ("Added " ++ str_of_nat (List.length (f :: fs)) ++ " file(s) to queue")]
  /\ dropFiles lang toastId drawn None u = u
  /\ dropFiles lang toastId drawn (Some []) u = u.
Proof.
  intros Hlen. destruct drawn as [|d ds]; [discriminate|].
  destruct (withDrawn_files lang (d :: ds) (f :: fs) Hlen) as (H1 & H2 & H3 & H4).
  assert (Hn : List.length (withDrawn (d :: ds) (f :: fs)) = List.length (f :: fs)).
  { rewrite <- (length_map (newTask lang)), <- (length_map file), H1. reflexivity. }
  split; [| split; [| split]]; try reflexivity.
  - exists (map (newTask lang) (withDrawn (d :: ds) (f :: fs))).
    split; [reflexivity|]. repeat (split; [assumption|]).
    intros opts t _ Hty. unfold processQueue_request.
    rewrite fileToBase64_readable by exact Hty. reflexivity.
  - unfold dropFiles, handleDrop, handleFilesSelected_ui.
    change (withDrawn (d :: ds) (f :: fs))
      with ((fst d, snd d, f) :: withDrawn ds fs) at 1.
    cbn [ui_toasts]. unfold addToast.
    change ((fst d, snd d, f) :: withDrawn ds fs) with (withDrawn (d :: ds) (f :: fs)).
    now rewrite Hn.
Qed.

(** X14 for a text file dropped on an empty page. *)
Lemma dropped_text_file_becomes_task :
  (exists added,
      ui_tasks (dropFiles "zh-CN" "t1" [("n1", "blob:n1")]
                  (Some [mkFile "notes.txt" "text/plain" []]) (mkUi [] None []))
      = ui_tasks (mkUi [] None []) ++ added
      /\ map file added = [mkFile "notes.txt" "text/plain" []]
      /\ map name added = map file_name [mkFile "notes.txt" "text/plain" []]
      /\ ids added = map fst [("n1", "blob:n1")]
      /\ Forall (fun t => status t = pending /\ progress t = 0
                          /\ targetLanguage t = "zh-CN" /\ translatedBlocks t = []) added
      /\ forall TARGET_LANG_OPTIONS t,
           In t added -> comma_free (file_type (file t)) = true ->
           option_map req_mimeType
             (processQueue_request TARGET_LANG_OPTIONS t (readable (file t)))
           = Some (file_type (file t)))
  /\ ui_toasts (dropFiles "zh-CN" "t1" [("n1", "blob:n1")]
                  (Some [mkFile "notes.txt" "text/plain" []]) (mkUi [] None []))
     = ui_toasts (mkUi [] None [])
       ++ [mkToast "t1" toast_info
             ("Added " ++ str_of_nat (List.length [mkFile "notes.txt" "text/plain" []])
                ++ " file(s) to queue")]
  /\ dropFiles "zh-CN" "t1" [("n1", "blob:n1")] None (mkUi [] None []) = mkUi [] None []
  /\ dropFiles "zh-CN" "t1" [("n1", "blob:n1")] (Some []) (mkUi [] None []) = mkUi [] None [].
Proof.
  apply (dropped_files_become_tasks "zh-CN" "t1" [("n1", "blob:n1")]
           (mkFile "notes.txt" "text/plain" []) [] (mkUi [] None [])).
  reflexivity.
Defined.

(** ** The selected task *)

Lemma getTask_removed (tid : string) (ts : list FileTask) :
  getTask tid (removeTask tid ts) = None.
Proof.
  unfold getTask. destruct (find _ (removeTask tid ts)) as [u|] eqn:E; [|reflexivity].
  apply find_some in E as [Hu Eu]. apply String.eqb_eq in Eu.
  now apply In_removeTask in Hu as [_ Hu].
Qed.

Lemma getTask_absent (tid : string) (ts : list FileTask) :
  ~ In tid (ids ts) -> getTask tid ts = None.
Proof.
  intros H. unfold getTask. destruct (find _ ts) as [u|] eqn:E; [|reflexivity].
  apply find_some in E as [Hu Eu]. apply String.eqb_eq in Eu.
  exfalso. apply H. rewrite <- Eu. unfold ids. now apply in_map.
Qed.

Lemma getTask_present (ts : list FileTask) (t : FileTask) :
  NoDup (ids ts) -> In t ts -> getTask (id t) ts = Some t.
Proof.
  intros Hnd Hin. unfold getTask.
  destruct (find (fun u => String.eqb (id u) (id t)) ts) as [u|] eqn:E.
  - apply find_some in E as [Hu Eu]. apply String.eqb_eq in Eu.
    now rewrite (NoDup_ids_eq ts u t Hnd Hu Hin Eu).
  - exfalso. apply (find_none _ _ E) in Hin. now rewrite String.eqb_refl in Hin.
Qed.

Lemma buttons_none (tid : string) (ts : list FileTask) :
  ~ In tid (ids ts) -> filter (fun t => String.eqb tid (id t)) ts = [].
Proof.
  induction ts as [|t ts IH]; intros H; [reflexivity|]. simpl in *.
  destruct (String.eqb_spec tid (id t)) as [E|E].
  - exfalso. apply H. now left.
  - apply IH. intros Hin. apply H. now right.
Qed.

Lemma buttons_one (ts : list FileTask) (t : FileTask) :
  NoDup (ids ts) -> In t ts -> filter (fun u => String.eqb (id t) (id u)) ts = [t].
Proof.
  induction ts as [|x ts IH]; intros Hnd Hin; [contradiction|].
  simpl in Hnd. inversion Hnd as [|? ? Hnot Hrest]; subst. simpl.
  destruct Hin as [->|Hin].
  - rewrite String.eqb_refl. f_equal. now apply buttons_none.
  - destruct (String.eqb_spec (id t) (id x)) as [E|E].
    + exfalso. apply Hnot. rewrite <- E. unfold ids. now apply in_map.
    + now apply IH.
Qed.

Lemma getTask_app_new (lang : string) (first : string * string * File)
    (rest : list (string * string * File)) (ts : list FileTask) :
  ~ In (pick_id first) (ids ts) ->
  getTask (pick_id first) (ts ++ map (newTask lang) (first :: rest)) = Some (newTask lang first).
Proof.
  intros H. unfold getTask. induction ts as [|t ts IH]; simpl in *.
  - destruct first as [[tid url] f]. cbn [pick_id fst newTask id]. now rewrite String.eqb_refl.
  - destruct (String.eqb_spec (id t) (pick_id first)) as [E|E].
    + exfalso. apply H. now left.
    + apply IH. intros Hin. apply H. now right.
Qed.

(** X15. The selection.  A drop selects its first file when nothing is
    selected, and leaves a selection alone otherwise.  When the selected
    task is listed (under distinct ids) it is the one card with a remove
    button.  A click on that button removes the task but keeps its id as
    the selection: afterwards no task is shown, no card has a remove
    button, and this stays so after further drops (of files under other
    ids), until a card is clicked. *)
Theorem selection_after_removal (u : Ui) (task : FileTask) :
  NoDup (ids (ui_tasks u)) ->
  In task (ui_tasks u) ->
  ui_activeTaskId u = Some (id task) ->
  falsy (Some (id task)) = false ->
  activeTask u = Some task
  /\ removeButtons u = [task]
  /\ (forall toastId,
        ui_activeTaskId (clickRemove toastId task u) = Some (id task)
        /\ activeTask (clickRemove toastId task u) = None
        /\ removeButtons (clickRemove toastId task u) = [])
  /\ (forall toastId lang toastId' picks,
        ~ In (id task) (map pick_id picks) ->
        ui_activeTaskId
          (handleFilesSelected_ui lang toastId' picks (clickRemove toastId task u))
        = Some (id task)
        /\ activeTask
             (handleFilesSelected_ui lang toastId' picks (clickRemove toastId task u))
           = None
        /\ removeButtons
             (handleFilesSelected_ui lang toastId' picks (clickRemove toastId task u))
           = [])
  /\ (forall u0 lang toastId first rest,
        (falsy (ui_activeTaskId u0) = true ->
         ui_activeTaskId (handleFilesSelected_ui lang toastId (first :: rest) u0)
         = Some (pick_id first)
         /\ (~ In (pick_id first) (ids (ui_tasks u0)) ->
             activeTask (handleFilesSelected_ui lang toastId (first :: rest) u0)
             = Some (newTask lang first)))
        /\ (falsy (ui_activeTaskId u0) = false ->
            ui_activeTaskId (handleFilesSelected_ui lang toastId (first :: rest) u0)
            = ui_activeTaskId u0)).
Proof.
  intros Hnd Hin Hact Htruthy.
  assert (Habs : ~ In (id task) (ids (removeTask (id task) (ui_tasks u))))
    by apply removed_id_absent.
  split; [unfold activeTask; rewrite Hact; now apply getTask_present|].
  split; [unfold removeButtons; rewrite Hact; now apply buttons_one|].
  split.
  { intros toastId. unfold activeTask, removeButtons, clickRemove.
    cbn [ui_activeTaskId ui_tasks]. rewrite Hact.
    split; [reflexivity|]. split; [apply getTask_removed | now apply buttons_none]. }
  split.
  { intros toastId lang toastId' picks Hfresh.
    assert (Habs' : ~ In (id task)
                      (ids (handleFilesSelected lang picks (removeTask (id task) (ui_tasks u))))).
    { rewrite handleFilesSelected_app. unfold ids. rewrite map_app.
      fold (ids (removeTask (id task) (ui_tasks u))).
      fold (ids (map (newTask lang) picks)). rewrite ids_newTasks.
      intros H. apply in_app_iff in H as [H|H]; contradiction. }
    destruct picks as [|first rest].
    - unfold activeTask, removeButtons, handleFilesSelected_ui, clickRemove.
      cbn [ui_activeTaskId ui_tasks]. rewrite Hact.
      split; [reflexivity|]. split; [apply getTask_removed | now apply buttons_none].
    - unfold activeTask, removeButtons, handleFilesSelected_ui, clickRemove.
      cbn [ui_activeTaskId ui_tasks]. rewrite Hact, Htruthy.
      split; [reflexivity|]. split; [now apply getTask_absent | now apply buttons_none]. }
  intros u0 lang toastId first rest. split.
  - intros Hf. unfold activeTask, handleFilesSelected_ui. cbn [ui_activeTaskId ui_tasks].
    rewrite Hf. split; [reflexivity|]. intros Hn.
    rewrite handleFilesSelected_app. now apply getTask_app_new.
  - intros Hf. unfold handleFilesSelected_ui. cbn [ui_activeTaskId]. now rewrite Hf.
Qed.

(** X15 with [f1] selected beside [f2]. *)
Lemma selection_after_removal_f1 :
  activeTask (mkUi [f1; f2] (Some "f1") []) = Some f1
  /\ removeButtons (mkUi [f1; f2] (Some "f1") []) = [f1]
  /\ activeTask (clickRemove "t1" f1 (mkUi [f1; f2] (Some "f1") [])) = None
  /\ activeTask (handleFilesSelected_ui "zh-CN" "t2" [("p1", "blob:p1", pdfFile)]
                   (clickRemove "t1" f1 (mkUi [f1; f2] (Some "f1") []))) = None.
Proof.
  destruct (selection_after_removal (mkUi [f1; f2] (Some "f1") []) f1)
    as (H1 & H2 & H3 & H4 & _).
  - repeat constructor; simpl; intuition discriminate.
  - left. reflexivity.
  - reflexivity.
  - reflexivity.
  - split; [exact H1|]. split; [exact H2|]. split; [apply (H3 "t1")|].
    apply (H4 "t1" "zh-CN" "t2" [("p1", "blob:p1", pdfFile)]).
    simpl. intuition discriminate.
Defined.

Lemma successful_run_completes (result : string) (blocks : list BlockData)
    (now : nat -> Z) (t : FileTask) :
  status (successfulRun result blocks now t) = completed
  /\ progress (successfulRun result blocks now t) = 100.
Proof.
  unfold successfulRun, processQueue_writes, processQueue_rest. cbn [fileToBase64].
  unfold runScript. cbn [fold_left]. rewrite fold_left_app. split; reflexivity.
Qed.

(** ** The language sent to the adapter *)

Lemma targetLabel_found (options : list (string * string)) (value label : string) :
  NoDup (map fst options) ->
  In (value, label) options ->
  find (fun o => String.eqb (fst o) value) options = Some (value, label).
Proof.
  induction options as [|[v l] options IH]; intros Hnd Hin; [contradiction|].
  simpl in *. inversion Hnd as [|? ? Hnot Hrest]; subst.
  destruct Hin as [H|H].
  - injection H as -> ->. now rewrite String.eqb_refl.
  - destruct (String.eqb_spec v value) as [->|E].
    + exfalso. apply Hnot. apply in_map_iff. exists (value, label). auto.
    + now apply IH.
Qed.

Lemma targetLabel_nonempty (options : list (string * string)) (lang : string) :
  (1 <= String.length (targetLabel options lang))%nat.
Proof.
  unfold targetLabel. destruct (find _ options) as [[v [|c l]]|]; simpl; lia.
Qed.

(** X16. For a table of distinct values with labels that are not empty,
    the language name sent to the adapter for a value of the table is the
    label shown for it in the selector; for a language code that is not
    in the table it is "English".  The name is never empty.  The table of
    the source is such a table, and it gives the eight locales eight
    different names. *)
Theorem targetLabel_is_table_label (options : list (string * string)) :
  NoDup (map fst options) ->
  Forall (fun o => snd o <> EmptyString) options ->
  (forall value label, In (value, label) options -> targetLabel options value = label)
  /\ (forall lang, ~ In lang (map fst options) -> targetLabel options lang = "English")
  /\ (forall lang, (1 <= String.length (targetLabel options lang))%nat)
  /\ (forall l l',
        targetLabel TARGET_LANG_OPTIONS (locale_value l)
        = targetLabel TARGET_LANG_OPTIONS (locale_value l') -> l = l').
Proof.
  intros Hnd Hne. split; [| split; [| split]].
  - intros value label Hin. unfold targetLabel.
    rewrite (targetLabel_found options value label Hnd Hin).
    rewrite Forall_forall in Hne. specialize (Hne _ Hin). simpl in Hne.
    destruct label; [contradiction | reflexivity].
  - intros lang Hn. unfold targetLabel.
    destruct (find _ options) as [[v l]|] eqn:E; [|reflexivity].
    apply find_some in E as [Hin Ev]. simpl in Ev. apply String.eqb_eq in Ev. subst v.
    exfalso. apply Hn. apply in_map_iff. exists (lang, l). auto.
  - apply targetLabel_nonempty.
  - intros l l'. destruct l, l'; vm_compute; intros H; first [reflexivity | discriminate].
Qed.

(** X16 for the table of the source. *)
Lemma targetLabel_is_table_label_source :
  (forall value label,
      In (value, label) TARGET_LANG_OPTIONS -> targetLabel TARGET_LANG_OPTIONS value = label)
  /\ (forall lang, ~ In lang (map fst TARGET_LANG_OPTIONS) ->
                   targetLabel TARGET_LANG_OPTIONS lang = "English")
  /\ (forall lang, (1 <= String.length (targetLabel TARGET_LANG_OPTIONS lang))%nat)
  /\ (forall l l',
        targetLabel TARGET_LANG_OPTIONS (locale_value l)
        = targetLabel TARGET_LANG_OPTIONS (locale_value l') -> l = l').
Proof.
  apply (targetLabel_is_table_label TARGET_LANG_OPTIONS).
  - repeat constructor; simpl; intuition discriminate.
  - repeat constructor; simpl; discriminate.
Defined.

(** ** From the service to the warning *)

(** X17. How a failure of the Gemini service reaches the task, once the
    file was read.  An empty or missing response text gives the warning
    "No response from Gemini"; a rejected request or an exception of
    [JSON.parse] gives the warning of its message; a parsed value that is
    [null] or has no block list gives "Invalid response format from
    Analysis Engine".  In each case the task ends failed at progress 20
    with no block added; with a block list it ends completed. *)
Theorem service_failure_reaches_task (result : string)
    (JSON_parse : string -> AdapterAnswer) (now : nat -> Z) (t : FileTask) :
  (forall response,
      response = Resolved None \/ response = Resolved (Some EmptyString) ->
      warnings (serviceRun result response JSON_parse now t) = ["No response from Gemini"]
      /\ status (serviceRun result response JSON_parse now t) = error)
  /\ (forall e,
        warnings (serviceRun result (Rejected e) JSON_parse now t) = [errorMessage e]
        /\ status (serviceRun result (Rejected e) JSON_parse now t) = error)
  /\ (forall c text e,
        JSON_parse (String c text) = Rejected e ->
        warnings (serviceRun result (Resolved (Some (String c text))) JSON_parse now t)
        = [errorMessage e])
  /\ (forall c text,
        JSON_parse (String c text) = Resolved None
        \/ JSON_parse (String c text) = Resolved (Some (mkResult None)) ->
        warnings (serviceRun result (Resolved (Some (String c text))) JSON_parse now t)
        = ["Invalid response format from Analysis Engine"])
  /\ (forall response,
        status (serviceRun result response JSON_parse now t) = error ->
        progress (serviceRun result response JSON_parse now t) = 20
        /\ translatedBlocks (serviceRun result response JSON_parse now t)
           = translatedBlocks t
        /\ List.length (warnings (serviceRun result response JSON_parse now t)) = 1%nat)
  /\ (forall c text blocks,
        JSON_parse (String c text) = Resolved (Some (mkResult (Some blocks))) ->
        serviceRun result (Resolved (Some (String c text))) JSON_parse now t
        = successfulRun result blocks now t).
Proof.
  unfold serviceRun, successfulRun.
  split; [| split; [| split; [| split; [| split]]]].
  - intros response [->| ->]; split; reflexivity.
  - intros e. split; reflexivity.
  - intros c text e H. cbn [analyzeAndTranslateImage]. rewrite H. reflexivity.
  - intros c text [H|H]; cbn [analyzeAndTranslateImage]; rewrite H; reflexivity.
  - intros response.
    destruct (analyzeAndTranslateImage response JSON_parse) as [[[[bs|]]|]|e] eqn:E.
    + intros H. exfalso.
      destruct (successful_run_completes result bs now t) as [Hs _].
      unfold successfulRun in Hs. rewrite Hs in H. discriminate.
    + intros _. repeat split.
    + intros _. repeat split.
    + intros _. repeat split.
  - intros c text blocks H. cbn [analyzeAndTranslateImage]. rewrite H. reflexivity.
Qed.

(** ** Runs in flight *)

Lemma NoDup_target_eq (fs : list Flight) (f g : Flight) :
  NoDup (map target fs) -> In f fs -> In g fs -> target f = target g -> f = g.
Proof.
  induction fs as [|x fs IH]; intros Hnd Hf Hg E; [contradiction|].
  simpl in Hnd. inversion Hnd as [|? ? Hnot Hrest]; subst.
  destruct Hf as [<-|Hf], Hg as [<-|Hg]; auto.
  - exfalso. apply Hnot. rewrite E. now apply in_map.
  - exfalso. apply Hnot. rewrite <- E. now apply in_map.
Qed.

(** X18. In every reachable state at most one suspended run that has
    updates left belongs to a listed task, and that task is the one being
    processed.  Runs of removed tasks are not stopped, though: after the
    processing task is removed and the next one started, two runs with
    updates left are in flight. *)
Theorem one_run_per_listed_task (a : App) (f g : Flight) :
  reachable a ->
  In f (flights a) -> In g (flights a) ->
  script f <> [] -> script g <> [] ->
  In (target f) (ids (tasks a)) -> In (target g) (ids (tasks a)) ->
  f = g
  /\ (exists t, In t (tasks a) /\ id t = target f /\ status t = processing)
  /\ reachable overlapping
  /\ map target (flights overlapping) = ["f2"; "f1"]
  /\ forallb (fun r => negb (Nat.eqb (List.length (script r)) 0)) (flights overlapping) = true.
Proof.
  intros Hr Hf Hg Hsf Hsg Htf Htg. pose proof (reachable_Inv a Hr) as HI.
  pose proof HI as [Hnd Hiss Htgs Htn Hone Hpen Hfl].
  unfold ids in Htf, Htg.
  apply in_map_iff in Htf as (t & Et & Ht). apply in_map_iff in Htg as (u & Eu & Hu).
  destruct (Hfl f Hf) as [_ Hallf]. destruct (Hfl g Hg) as [_ Hallg].
  destruct (Hallf t Ht Et) as (_ & _ & Hpt). destruct (Hallg u Hu Eu) as (_ & _ & Hpu).
  specialize (Hpt Hsf). specialize (Hpu Hsg).
  split; [| split; [| split; [| split]]].
  - apply (NoDup_target_eq (flights a)); auto.
    rewrite <- Et, <- Eu.
    apply (single_processing (tasks a)); auto; now apply is_processing_status.
  - exists t. auto.
  - apply (reachable_step cancelled).
    + apply (reachable_step (started (readable imageFile) answersThree));
        [apply reachable_started | apply step_remove].
    + apply (step_effect cancelled f2 (readable imageFile) answersThree sampleClock).
      reflexivity.
  - reflexivity.
  - reflexivity.
Qed.

(** X18 in the state where [f1] is being processed. *)
Lemma one_run_per_listed_task_started :
  mkFlight "f1" (processQueue_rest (readable imageFile) answersThree sampleClock)
  = mkFlight "f1" (processQueue_rest (readable imageFile) answersThree sampleClock)
  /\ (exists t, In t (tasks (started (readable imageFile) answersThree))
                /\ id t = "f1" /\ status t = processing)
  /\ reachable overlapping
  /\ map target (flights overlapping) = ["f2"; "f1"]
  /\ forallb (fun r => negb (Nat.eqb (List.length (script r)) 0)) (flights overlapping) = true.
Proof.
  apply (one_run_per_listed_task (started (readable imageFile) answersThree)
           (mkFlight "f1" (processQueue_rest (readable imageFile) answersThree sampleClock))
           (mkFlight "f1" (processQueue_rest (readable imageFile) answersThree sampleClock))).
  - apply reachable_started.
  - left. reflexivity.
  - left. reflexivity.
  - discriminate.
  - discriminate.
  - left. reflexivity.
  - left. reflexivity.
Defined.
